(** * ESP32 demo backend: throttling, input validation, process runner,
      flash workflow and auth gate

    A shallow embedding of [backend/index.js] and [backend/auth.js].

    Conventions of the embedding.
    - A JavaScript string is a Rocq [string]; its characters stand for code
      units in the range 0..255.  [String.length] is the [length] property.
    - [Date.now()] is an explicit argument [now : Z] (milliseconds).
    - The two [Map] stores are [gmap string _]; a function that mutates a
      store returns the new store.
    - The platform pieces the backend calls ([path.posix.normalize],
      [path.resolve], [path.extname] in their POSIX variant, [fs.statSync],
      [child_process.spawn], [jwt.verify]) are modelled in module [NodePath]
      or taken as section variables. *)

From Stdlib Require Import ZArith String Ascii List Lia Bool.
From Stdlib Require Import Numbers.DecimalString.
From stdpp Require Import gmap strings list.
Import ListNotations.
Open Scope Z_scope.

(** ** JavaScript values reaching the handlers *)

Module JS.

(** A field of a parsed JSON body, or [undefined] when it is absent.  Of the
    numbers only the integers are represented, of objects and arrays only
    that they are objects: the handlers test such values for truthiness and
    for being a string, nothing more. *)
Inductive jsval : Type :=
  | JUndefined
  | JNull
  | JBool (b : bool)
  | JNum (n : Z)
  | JStr (s : string)
  | JObject.

Definition is_empty (s : string) : bool :=
  match s with EmptyString => true | String _ _ => false end.

(** [!!v] *)
Definition truthy (v : jsval) : bool :=
  match v with
  | JUndefined | JNull => false
  | JBool b => b
  | JNum n => negb (n =? 0)
  | JStr s => negb (is_empty s)
  | JObject => true
  end.

(** [typeof v === 'string'] *)
Definition is_string (v : jsval) : bool :=
  match v with JStr _ => true | _ => false end.

(** The characters of a value already known to be a string. *)
Definition str_of (v : jsval) : string :=
  match v with JStr s => s | _ => "" end.

(** [Math.ceil(x / d)] on integers, [d > 0]. *)
Definition ceil_div (x d : Z) : Z := - ((- x) / d).

(** Template-literal rendering of an integer. *)
Definition show_Z (z : Z) : string := NilZero.string_of_int (Z.to_int z).

(** *** String primitives *)

Fixpoint str_rev_onto (s acc : string) : string :=
  match s with
  | EmptyString => acc
  | String c s' => str_rev_onto s' (String c acc)
  end.

Definition str_rev (s : string) : string := str_rev_onto s "".

Fixpoint str_map (f : ascii -> ascii) (s : string) : string :=
  match s with
  | EmptyString => EmptyString
  | String c s' => String (f c) (str_map f s')
  end.

Fixpoint str_forallb (p : ascii -> bool) (s : string) : bool :=
  match s with
  | EmptyString => true
  | String c s' => p c && str_forallb p s'
  end.

(** [s.slice(n)] for [0 <= n]: the string without its first [n] characters. *)
Fixpoint slice_from (n : nat) (s : string) : string :=
  match n, s with
  | O, _ => s
  | S _, EmptyString => EmptyString
  | S n', String _ s' => slice_from n' s'
  end.

(** [s.startsWith(p)] *)
Fixpoint startsWith (s p : string) {struct p} : bool :=
  match p, s with
  | EmptyString, _ => true
  | String _ _, EmptyString => false
  | String a p', String b s' => Ascii.eqb a b && startsWith s' p'
  end.

(** [s.includes(p)] *)
Fixpoint includes (s p : string) : bool :=
  startsWith s p ||
  match s with
  | EmptyString => false
  | String _ s' => includes s' p
  end.

(** [s.split(sep)] for a one-character separator: never an empty list. *)
Fixpoint split_on (sep : ascii) (s : string) : list string :=
  match s with
  | EmptyString => [EmptyString]
  | String c s' =>
      if Ascii.eqb c sep then EmptyString :: split_on sep s'
      else match split_on sep s' with
           | [] => [String c EmptyString]
           | w :: ws => String c w :: ws
           end
  end.

(** [parts.join(sep)] *)
Fixpoint join (sep : string) (parts : list string) : string :=
  match parts with
  | [] => EmptyString
  | [w] => w
  | w :: ws => w +:+ sep +:+ join sep ws
  end.

(** White space and line terminators removed by [trim]. *)
Definition is_space (c : ascii) : bool :=
  let n := nat_of_ascii c in
  ((9 <=? n)%nat && (n <=? 13)%nat) || (n =? 32)%nat || (n =? 160)%nat.

Fixpoint trim_start (s : string) : string :=
  match s with
  | EmptyString => EmptyString
  | String c s' => if is_space c then trim_start s' else s
  end.

(** [s.trim()] *)
Definition trim (s : string) : string :=
  str_rev (trim_start (str_rev (trim_start s))).

(** [s.replace(/\\/g, '/')] *)
Definition backslashes_to_slashes (s : string) : string :=
  str_map (fun c => if Ascii.eqb c "\" then "/"%char else c) s.

Definition is_upper (c : ascii) : bool :=
  let n := nat_of_ascii c in (65 <=? n)%nat && (n <=? 90)%nat.

Definition is_lower (c : ascii) : bool :=
  let n := nat_of_ascii c in (97 <=? n)%nat && (n <=? 122)%nat.

Definition is_digit (c : ascii) : bool :=
  let n := nat_of_ascii c in (48 <=? n)%nat && (n <=? 57)%nat.

(** [s.toLowerCase()] *)
Definition toLowerCase (s : string) : string :=
  str_map (fun c => if is_upper c then ascii_of_nat (nat_of_ascii c + 32) else c) s.

(** The regular-expression class [\w]. *)
Definition is_word_char (c : ascii) : bool :=
  is_upper c || is_lower c || is_digit c || Ascii.eqb c "_".

(** [/^[cls]{lo,hi}$/.test(s)]; [hi = None] is an open upper bound. *)
Definition test_class_repeat (cls : ascii -> bool) (lo : nat) (hi : option nat)
    (s : string) : bool :=
  str_forallb cls s &&
  (lo <=? String.length s)%nat &&
  match hi with
  | Some h => (String.length s <=? h)%nat
  | None => true
  end.

End JS.

(** ** Sliding-window counter ([index.js], lines 56-89) *)

Module RateLimit.

Record RateWindow : Type := { windowStart : Z; count : Z }.

Inductive RateResult : Type :=
  | Allowed (remaining : Z)
  | Denied (retryAfter : Z).

Definition RATE_LIMIT_WINDOW_MS : Z := 15 * 60 * 1000.
Definition RATE_LIMIT_MAX_REQUESTS : Z := 10.

Definition rateLimit (key : string) (now : Z) (rateLimitStore : gmap string RateWindow)
    : RateResult * gmap string RateWindow :=
  let fresh :=
    (Allowed (RATE_LIMIT_MAX_REQUESTS - 1),
     <[key := {| windowStart := now; count := 1 |}]> rateLimitStore) in
  match rateLimitStore !! key with
  | None => fresh
  | Some record =>
      if now - windowStart record >? RATE_LIMIT_WINDOW_MS then fresh
      else if count record >=? RATE_LIMIT_MAX_REQUESTS then
        (Denied (JS.ceil_div (RATE_LIMIT_WINDOW_MS - (now - windowStart record)) 1000),
         rateLimitStore)
      else
        let record' := {| windowStart := windowStart record;
                          count := count record + 1 |} in
        (Allowed (RATE_LIMIT_MAX_REQUESTS - count record'),
         <[key := record']> rateLimitStore)
  end.

(** The periodic sweep registered with [setInterval]. *)
Definition sweep (now : Z) (rateLimitStore : gmap string RateWindow)
    : gmap string RateWindow :=
  filter (fun kv => negb (now - windowStart kv.2 >? RATE_LIMIT_WINDOW_MS) = true)
         rateLimitStore.

(** Successive calls for one key at the given clock readings. *)
Fixpoint calls (key : string) (times : list Z) (store : gmap string RateWindow)
    : list RateResult * gmap string RateWindow :=
  match times with
  | [] => ([], store)
  | now :: rest =>
      let '(r, store') := rateLimit key now store in
      let '(rs, store'') := calls key rest store' in
      (r :: rs, store'')
  end.

End RateLimit.

(** ** Credential failure throttle ([index.js], lines 91-138) *)

Module Throttle.

Record FailureRecord : Type := { failures : Z; firstFailure : Z }.

Inductive ThrottleStatus : Type :=
  | NotBlocked
  | Blocked (retryAfter : Z).

Definition CREDENTIAL_WINDOW_MS : Z := 10 * 60 * 1000.
Definition CREDENTIAL_MAX_FAILURES : Z := 5.

(** [!key] for a string key. *)
Definition no_key (key : string) : bool := JS.is_empty key.

Definition getCredentialThrottle (key : string) (now : Z)
    (credentialThrottleStore : gmap string FailureRecord)
    : ThrottleStatus * gmap string FailureRecord :=
  if no_key key then (NotBlocked, credentialThrottleStore)
  else match credentialThrottleStore !! key with
  | None => (NotBlocked, credentialThrottleStore)
  | Some record =>
      if now - firstFailure record >? CREDENTIAL_WINDOW_MS then
        (NotBlocked, delete key credentialThrottleStore)
      else if failures record >=? CREDENTIAL_MAX_FAILURES then
        (Blocked (JS.ceil_div (CREDENTIAL_WINDOW_MS - (now - firstFailure record)) 1000),
         credentialThrottleStore)
      else (NotBlocked, credentialThrottleStore)
  end.

Definition recordCredentialFailure (key : string) (now : Z)
    (credentialThrottleStore : gmap string FailureRecord)
    : gmap string FailureRecord :=
  if no_key key then credentialThrottleStore
  else
    let fresh := <[key := {| failures := 1; firstFailure := now |}]>
                   credentialThrottleStore in
    match credentialThrottleStore !! key with
    | None => fresh
    | Some record =>
        if now - firstFailure record >? CREDENTIAL_WINDOW_MS then fresh
        else <[key := {| failures := failures record + 1;
                         firstFailure := firstFailure record |}]>
               credentialThrottleStore
    end.

Definition resetCredentialFailures (key : string)
    (credentialThrottleStore : gmap string FailureRecord)
    : gmap string FailureRecord :=
  delete key credentialThrottleStore.

(** The start of the window in which a failure recorded at [now] is
    counted: that of the record in place unless there is none or it has
    expired. *)
Definition window_of_failure (key : string) (now : Z)
    (store : gmap string FailureRecord) : Z :=
  match store !! key with
  | Some record =>
      if now - firstFailure record >? CREDENTIAL_WINDOW_MS then now
      else firstFailure record
  | None => now
  end.

(** Successive failures of one identity at the given clock readings. *)
Definition recordFailures (key : string) (times : list Z)
    (store : gmap string FailureRecord) : gmap string FailureRecord :=
  fold_left (fun st now => recordCredentialFailure key now st) times store.

End Throttle.

(** ** Node's [path] module, POSIX variant *)

Module NodePath.
Import JS.

Definition is_absolute (p : string) : bool :=
  match p with
  | String c _ => Ascii.eqb c "/"
  | EmptyString => false
  end.

Definition has_trailing_slash (p : string) : bool := is_absolute (str_rev p).

(** [normalizeString]: the segment stack is kept innermost first.  Empty and
    ["."] segments are skipped; [".."] removes the innermost segment unless
    there is none or it is itself [".."], in which case it is kept only when
    the path may climb above its start. *)
Fixpoint normalize_segments (allowAboveRoot : bool) (segs stack : list string)
    : list string :=
  match segs with
  | [] => rev stack
  | seg :: rest =>
      if is_empty seg || String.eqb seg "." then
        normalize_segments allowAboveRoot rest stack
      else if String.eqb seg ".." then
        match stack with
        | top :: below =>
            if String.eqb top ".." then
              normalize_segments allowAboveRoot rest
                (if allowAboveRoot then ".." :: stack else stack)
            else normalize_segments allowAboveRoot rest below
        | [] =>
            normalize_segments allowAboveRoot rest
              (if allowAboveRoot then [".."] else [])
        end
      else normalize_segments allowAboveRoot rest (seg :: stack)
  end.

Definition normalizeString (p : string) (allowAboveRoot : bool) : string :=
  join "/" (normalize_segments allowAboveRoot (split_on "/" p) []).

(** [path.posix.normalize] *)
Definition normalize (p : string) : string :=
  if is_empty p then "."
  else
    let isAbsolute := is_absolute p in
    let trailingSeparator := has_trailing_slash p in
    let body := normalizeString p (negb isAbsolute) in
    if is_empty body then
      if isAbsolute then "/" else if trailingSeparator then "./" else "."
    else
      let body := if trailingSeparator then body +:+ "/" else body in
      if isAbsolute then "/" +:+ body else body.

(** The right-to-left loop of [path.resolve]: [paths] is given last argument
    first and ends with the working directory. *)
Fixpoint resolve_loop (paths : list string) (resolvedPath : string)
    : string * bool :=
  match paths with
  | [] => (resolvedPath, false)
  | p :: rest =>
      if is_empty p then resolve_loop rest resolvedPath
      else
        let resolvedPath := p +:+ "/" +:+ resolvedPath in
        if is_absolute p then (resolvedPath, true)
        else resolve_loop rest resolvedPath
  end.

(** [path.resolve(...args)] in a process whose working directory is [cwd]. *)
Definition resolve (cwd : string) (args : list string) : string :=
  let '(resolvedPath, resolvedAbsolute) := resolve_loop (rev args ++ [cwd]) "" in
  let body := normalizeString resolvedPath (negb resolvedAbsolute) in
  if resolvedAbsolute then "/" +:+ body
  else if is_empty body then "." else body.

(** The suffix of [s] that starts at its last dot. *)
Fixpoint from_last_dot (s : string) : option string :=
  match s with
  | EmptyString => None
  | String c s' =>
      match from_last_dot s' with
      | Some e => Some e
      | None => if Ascii.eqb c "." then Some s else None
      end
  end.

(** The last non-empty segment of a path. *)
Definition last_segment (p : string) : string :=
  List.last (List.filter (fun seg => negb (is_empty seg)) (split_on "/" p)) "".

(** [path.extname]: the extension of the last segment starts at its last
    dot; there is none when that dot is the first character or the segment
    is [".."]. *)
Definition extname (p : string) : string :=
  let base := last_segment p in
  match from_last_dot base with
  | None => ""
  | Some e =>
      if String.eqb e base || String.eqb base ".." then "" else e
  end.

(** A segment as [normalizeString] keeps it: not empty, without separator. *)
Definition clean_segment (seg : string) : bool :=
  negb (is_empty seg) && str_forallb (fun c => negb (Ascii.eqb c "/")) seg.

(** A clean segment other than [.] and [..]. *)
Definition plain_segment (seg : string) : bool :=
  clean_segment seg && negb (String.eqb seg ".") && negb (String.eqb seg "..").

(** The non-empty segments of a path. *)
Definition segments (p : string) : list string :=
  List.filter (fun seg => negb (is_empty seg)) (split_on "/" p).

Fixpoint segments_prefix (xs ys : list string) : bool :=
  match xs, ys with
  | [], _ => true
  | _ :: _, [] => false
  | x :: xs', y :: ys' => String.eqb x y && segments_prefix xs' ys'
  end.

(** An absolute path [p] names the directory [root] or something below it:
    what [Sketch path must stay within project workspace] asks for. *)
Definition is_within (root p : string) : bool :=
  segments_prefix (segments root) (segments p).

End NodePath.

(** ** Input validators ([index.js], lines 140-171) *)

Module Validators.
Import JS.

Definition sanitizePath (inputPath : jsval) : option string :=
  match inputPath with
  | JStr s =>
      let trimmed := trim (backslashes_to_slashes s) in
      if is_empty trimmed then None
      else
        let normalized := NodePath.normalize trimmed in
        if includes normalized ".." then None else Some normalized
  | _ => None
  end.

(** Character class of [SERIAL_PORT_PATTERN = /^[\w\-\/.:]+$/]. *)
Definition serial_port_char (c : ascii) : bool :=
  is_word_char c || Ascii.eqb c "-" || Ascii.eqb c "/" || Ascii.eqb c "."
  || Ascii.eqb c ":".

(** Character class of [FQBN_PATTERN = /^[\w:.\-]{3,120}$/]. *)
Definition fqbn_char (c : ascii) : bool :=
  is_word_char c || Ascii.eqb c ":" || Ascii.eqb c "." || Ascii.eqb c "-".

Definition SERIAL_PORT_PATTERN (s : string) : bool :=
  test_class_repeat serial_port_char 1 None s.

Definition FQBN_PATTERN (s : string) : bool :=
  test_class_repeat fqbn_char 3 (Some 120%nat) s.

Definition ALLOWED_SKETCH_EXTENSIONS : list string := [".ino"; ".bin"].

(** The board-identifier rule in the words of the specification (section
    4.3): length at most 120 and every character a word character, [:],
    [.] or [-]. *)
Definition spec_board_identifier_ok (s : string) : bool :=
  (String.length s <=? 120)%nat && str_forallb fqbn_char s.

Definition isValidSerialPort (portPath : jsval) : bool :=
  match portPath with
  | JStr s => (String.length s <=? 200)%nat && SERIAL_PORT_PATTERN s
  | _ => false
  end.

Definition isValidFqbn (fqbn : jsval) : bool :=
  if negb (truthy fqbn) then true
  else match fqbn with
       | JStr s => (String.length s <=? 120)%nat && FQBN_PATTERN s
       | _ => false
       end.

End Validators.

(** ** Process runner ([spawnCliAndStream], [index.js], lines 525-574) *)

Module Runner.
Import JS.

(** State of a promise. *)
Inductive Settled (V E : Type) : Type :=
  | Pending
  | Resolved (v : V)
  | Rejected (e : E).
Arguments Pending {V E}.
Arguments Resolved {V E} v.
Arguments Rejected {V E} e.

(** [resolve] and [reject] have no effect on a promise already settled. *)
Definition settle {V E : Type} (p outcome : Settled V E) : Settled V E :=
  match p with
  | Pending => outcome
  | _ => p
  end.

(** What the event loop delivers to the callbacks registered on one child
    process: a ['data'] chunk of stdout or stderr (after [toString]), the
    expiry of the kill timer, ['error'], and ['close'] with the exit code
    ([None] is [null], a child ended by a signal). *)
Inductive ChildEvent : Type :=
  | Data (chunk : string)
  | KillTimer
  | SpawnError
  | Close (code : option Z).

(** The [Error] objects the runner rejects with; an absent field is [None]
    or [false]. *)
Record CliError : Type := {
  message : string;
  cause : bool;
  timedOut : option bool;
  cliOutput : string
}.

Record Options : Type := { timeoutMs : option Z; maxBuffer : option Z }.

Definition no_options : Options := {| timeoutMs := None; maxBuffer := None |}.

Definition CLI_MAX_OUTPUT_BYTES : Z := 4000.

(** [Number.isFinite(options.maxBuffer) && options.maxBuffer > 0
      ? options.maxBuffer : CLI_MAX_OUTPUT_BYTES] *)
Definition effective_maxBuffer (options : Options) : Z :=
  match maxBuffer options with
  | Some m => if m >? 0 then m else CLI_MAX_OUTPUT_BYTES
  | None => CLI_MAX_OUTPUT_BYTES
  end.

Definition appendChunk (maxBuffer : Z) (output chunk : string) : string :=
  let output := output +:+ chunk in
  if Z.of_nat (String.length output) >? maxBuffer then
    slice_from (Z.to_nat (Z.of_nat (String.length output) - maxBuffer)) output
  else output.

(** The variables captured by the callbacks of one invocation.  The wall
    clock is not part of the state: when the kill timer expires is told by
    where [KillTimer] stands among the events. *)
Record Child : Type := {
  output : string;
  timedOutFlag : bool;
  killTimerArmed : bool;
  promise : Settled string CliError
}.

Definition spawned : Child :=
  {| output := ""; timedOutFlag := false; killTimerArmed := true;
     promise := Pending |}.

(** The value passed to [reject] by the ['close'] callback. *)
Definition close_error (timedOut : bool) (code : option Z) (output : string)
    : CliError :=
  {| message :=
       if timedOut then "arduino-cli timed out"
       else "arduino-cli exited with code " +:+
            match code with Some c => show_Z c | None => "null" end;
     cause := false;
     timedOut := Some timedOut;
     cliOutput := output |}.

(** The value passed to [reject] by the ['error'] callback. *)
Definition spawn_error (output : string) : CliError :=
  {| message := "Failed to run arduino-cli";
     cause := true;
     timedOut := None;
     cliOutput := output |}.

(** The outcome chosen by the ['close'] callback. *)
Definition on_close (timedOut : bool) (code : option Z) (output : string)
    : Settled string CliError :=
  if negb timedOut && match code with Some c => c =? 0 | None => false end
  then Resolved output
  else Rejected (close_error timedOut code output).

Definition on_event (maxBuffer : Z) (st : Child) (ev : ChildEvent) : Child :=
  match ev with
  | Data chunk =>
      {| output := appendChunk maxBuffer (output st) chunk;
         timedOutFlag := timedOutFlag st;
         killTimerArmed := killTimerArmed st;
         promise := promise st |}
  | KillTimer =>
      if killTimerArmed st then
        {| output := output st; timedOutFlag := true; killTimerArmed := false;
           promise := promise st |}
      else st
  | SpawnError =>
      {| output := output st; timedOutFlag := timedOutFlag st;
         killTimerArmed := false;
         promise := settle (promise st) (Rejected (spawn_error (output st))) |}
  | Close code =>
      {| output := output st; timedOutFlag := timedOutFlag st;
         killTimerArmed := false;
         promise := settle (promise st)
                      (on_close (timedOutFlag st) code (output st)) |}
  end.

Definition run (maxBuffer : Z) (events : list ChildEvent) (st : Child) : Child :=
  fold_left (on_event maxBuffer) events st.

(** Everything the child wrote, in the order the chunks were delivered. *)
Fixpoint written (events : list ChildEvent) : string :=
  match events with
  | [] => ""
  | Data chunk :: rest => chunk +:+ written rest
  | _ :: rest => written rest
  end.

(** [spawnCliAndStream(args, options)] for a child that produces [events]:
    the promise as it stands once all of them are delivered. *)
Definition spawnCliAndStream (options : Options) (events : list ChildEvent)
    : Settled string CliError :=
  promise (run (effective_maxBuffer options) events spawned).

(** The liveness probe of the flash handler: [spawn('arduino-cli',
    ['version'])] with an ['error'] and a ['close'] callback only. *)
Fixpoint probe (events : list ChildEvent) : Settled unit unit :=
  match events with
  | [] => Pending
  | SpawnError :: _ => Rejected tt
  | Close code :: _ =>
      match code with
      | Some 0 => Resolved tt
      | _ => Rejected tt
      end
  | _ :: rest => probe rest
  end.

End Runner.

(** ** Auth gate ([auth.js]) *)

Module Auth.
Import JS.

Record Response : Type := { status : Z; error : string }.

Record Identity : Type := { id : string; email : string }.

(** The exceptions of [jwt.verify]. *)
Inductive JwtError : Type :=
  | TokenExpiredError
  | NotBeforeError
  | JsonWebTokenError (reason : string).

Inductive Gate : Type :=
  | Refused (res : Response)
  | Next (user : Identity).

Section Gate.

(** [jwt.verify(token, SECRET, {issuer, audience})] *)
Variable jwt_verify : string -> JwtError + Identity.

Definition verifyToken (token : string) : option Identity :=
  match jwt_verify token with
  | inr payload => Some payload
  | inl _ => None
  end.

(** [authorization] is [req.headers.authorization], [None] when the header
    is absent. *)
Definition authMiddleware (authorization : option string) : Gate :=
  match authorization with
  | None => Refused {| status := 401; error := "Missing Authorization header" |}
  | Some auth =>
      if is_empty auth then
        Refused {| status := 401; error := "Missing Authorization header" |}
      else
        match split_on " " auth with
        | [scheme; token] =>
            if negb (String.eqb scheme "Bearer") then
              Refused {| status := 401; error := "Bad Authorization format" |}
            else
              match verifyToken token with
              | None =>
                  Refused {| status := 401; error := "Invalid or expired token" |}
              | Some payload => Next payload
              end
        | _ => Refused {| status := 401; error := "Bad Authorization format" |}
        end
  end.

End Gate.

End Auth.

(** ** Flash workflow ([POST /api/flash], [index.js], lines 458-523) *)

Module Flash.
Import JS.
Export Runner.

(** [res.status(s).json({error})] or [res.json({ok: true, msg})]. *)
Inductive Json : Type :=
  | ErrorBody (error : string)
  | OkBody (msg : string).

Record Response : Type := { status : Z; body : Json }.

Record FlashBody : Type := { sketchPath : jsval; port : jsval; fqbn : jsval }.

(** [fs.statSync(p)]: it throws, or tells whether [p] is a regular file. *)
Inductive Stat : Type :=
  | StatThrows
  | StatIsFile (isFile : bool).

Inductive Outcome : Type := StillPending | DidResolve | DidReject.

Definition outcome_of {V E : Type} (p : Settled V E) : Outcome :=
  match p with
  | Pending => StillPending
  | Resolved _ => DidResolve
  | Rejected _ => DidReject
  end.

(** One [arduino-cli] process: its argument vector and how its promise ended. *)
Record Invocation : Type := { inv_args : list string; inv_outcome : Outcome }.

Definition is_cmd (name : string) (inv : Invocation) : bool :=
  match inv_args inv with
  | a :: _ => String.eqb a name
  | [] => false
  end.

(** The processes a request added to the log [before]. *)
Definition spawned_since (before after : list Invocation) : list Invocation :=
  drop (length before) after.

Section Handler.

(** Working directory and [__dirname] of the server process. *)
Variables (cwd dirname : string).
Variable statSync : string -> Stat.
(** Events of the [n]-th [arduino-cli] process spawned, given its arguments. *)
Variable child : nat -> list string -> list ChildEvent.
Variable jwt_verify : string -> Auth.JwtError + Auth.Identity.

Definition PROJECT_ROOT : string := NodePath.resolve cwd [dirname; ".."].

Definition bad_request (msg : string) : Response :=
  {| status := 400; body := ErrorBody msg |}.

(** The checks of the handler up to [fs.statSync] (lines 460-493): the
    response of the check that fails, or the resolved sketch path. *)
Definition validate (req : FlashBody) : Response + string :=
  if negb (truthy (sketchPath req)) || negb (truthy (port req)) then
    inl (bad_request "Missing sketchPath or port")
  else if negb (Validators.isValidSerialPort (port req)) then
    inl (bad_request "Invalid serial port identifier")
  else if negb (Validators.isValidFqbn (fqbn req)) then
    inl (bad_request "Invalid FQBN value")
  else
    match Validators.sanitizePath (sketchPath req) with
    | None => inl (bad_request "Invalid sketch path")
    | Some sanitizedPath =>
        let resolvedSketch := NodePath.resolve cwd [PROJECT_ROOT; sanitizedPath] in
        if negb (startsWith resolvedSketch PROJECT_ROOT) then
          inl (bad_request "Sketch path must stay within project workspace")
        else
          let extension := toLowerCase (NodePath.extname resolvedSketch) in
          if negb (existsb (String.eqb extension)
                     Validators.ALLOWED_SKETCH_EXTENSIONS) then
            inl (bad_request "Unsupported sketch file extension")
          else
            match statSync resolvedSketch with
            | StatIsFile true => inr resolvedSketch
            | StatIsFile false => inl (bad_request "Sketch path must point to a file")
            | StatThrows => inl (bad_request "Sketch file not found")
            end
    end.

(** The processes spawned so far, oldest first, are the state threaded
    through the asynchronous part of the handler. *)
Definition spawn_probe (log : list Invocation)
    : Settled unit unit * list Invocation :=
  let args := ["version"] in
  let p := probe (child (length log) args) in
  (p, log ++ [{| inv_args := args; inv_outcome := outcome_of p |}]).

Definition spawn_cli (args : list string) (log : list Invocation)
    : Settled string CliError * list Invocation :=
  let p := spawnCliAndStream no_options (child (length log) args) in
  (p, log ++ [{| inv_args := args; inv_outcome := outcome_of p |}]).

(** The [catch] block around compile and upload. *)
Definition cli_failure (err : CliError) : Response :=
  {| status := 500;
     body := ErrorBody
       (match timedOut err with
        | Some true => "Flash operation timed out. Please verify the board connection."
        | _ => "Failed to compile or upload sketch"
        end) |}.

(** The handler after validation (lines 495-522); [None] when an awaited
    promise never settles, so that no response is sent. *)
Definition execute (resolvedSketch : string) (req : FlashBody)
    (log : list Invocation) : option Response * list Invocation :=
  let '(probed, log) := spawn_probe log in
  match probed with
  | Pending => (None, log)
  | Rejected _ =>
      (Some {| status := 500;
               body := ErrorBody "arduino-cli not available on PATH" |}, log)
  | Resolved _ =>
      let fqbnArgs :=
        if truthy (fqbn req) then ["--fqbn"; str_of (fqbn req)] else [] in
      let compileArgs := ["compile"; resolvedSketch] ++ fqbnArgs in
      let '(compiled, log) := spawn_cli compileArgs log in
      match compiled with
      | Pending => (None, log)
      | Rejected err => (Some (cli_failure err), log)
      | Resolved _ =>
          let uploadArgs :=
            ["upload"; resolvedSketch; "--port"; str_of (port req)] ++ fqbnArgs in
          let '(uploaded, log) := spawn_cli uploadArgs log in
          match uploaded with
          | Pending => (None, log)
          | Rejected err => (Some (cli_failure err), log)
          | Resolved _ =>
              (Some {| status := 200; body := OkBody "Upload complete" |}, log)
          end
      end
  end.

Definition flash_handler (req : FlashBody) (log : list Invocation)
    : option Response * list Invocation :=
  match validate req with
  | inl res => (Some res, log)
  | inr resolvedSketch => execute resolvedSketch req log
  end.

(** [app.post('/api/flash', authMiddleware, handler)] *)
Definition post_api_flash (authorization : option string) (req : FlashBody)
    (log : list Invocation) : option Response * list Invocation :=
  match Auth.authMiddleware jwt_verify authorization with
  | Auth.Refused res =>
      (Some {| status := Auth.status res; body := ErrorBody (Auth.error res) |}, log)
  | Auth.Next _ => flash_handler req log
  end.

End Handler.

End Flash.

(** ** Histories of the credential throttle *)

Module ThrottleOps.
Import Throttle.

(** The periodic sweep registered with [setInterval] (lines 131-138). *)
Definition sweep (now : Z) (credentialThrottleStore : gmap string FailureRecord)
    : gmap string FailureRecord :=
  filter (fun kv => negb (now - firstFailure kv.2 >? CREDENTIAL_WINDOW_MS) = true)
         credentialThrottleStore.

(** A call of one of the three functions or a run of the sweep, with the
    clock reading it sees. *)
Inductive Op : Type :=
  | Status (key : string) (now : Z)
  | Failure (key : string) (now : Z)
  | Reset (key : string)
  | Sweep (now : Z).

Definition apply (store : gmap string FailureRecord) (op : Op)
    : gmap string FailureRecord :=
  match op with
  | Status key now => (getCredentialThrottle key now store).2
  | Failure key now => recordCredentialFailure key now store
  | Reset key => resetCredentialFailures key store
  | Sweep now => sweep now store
  end.

(** The store after a history of calls, starting from the empty [Map]. *)
Definition after (history : list Op) : gmap string FailureRecord :=
  fold_left apply history ∅.

End ThrottleOps.

(** ** Events that settle the runner's promise *)

Module Events.
Import Runner.

(** ['error'] and ['close'] are the events whose callbacks call [resolve] or
    [reject]. *)
Definition settles (ev : ChildEvent) : bool :=
  match ev with
  | SpawnError | Close _ => true
  | Data _ | KillTimer => false
  end.

Definition quiet (events : list ChildEvent) : bool :=
  forallb (fun ev => negb (settles ev)) events.

End Events.

(** ** Signing secret ([auth.js], lines 6-21) *)

Module Secret.



End Secret.

(** ** Accounts: register, login, logout and the current user
       ([index.js], lines 32-54 and 575-723)

    The handlers are [async]: between two [await]s a handler runs without
    interruption, and other requests may be served while it waits.  Each
    handler is therefore given as its uninterrupted phases, every phase a
    function of the server state it finds, and as the composition of the
    phases for a request served without another one in between.  What an
    awaited promise settles to is an argument of the phase that follows it;
    [bcrypt.compare], [jwt.sign] and [jwt.verify] are section variables.
    The body is the one the handler sees, after the body parsers and
    sanitizers. *)

Module Accounts.
Import JS.

(** *** Validation helpers *)

(** The class [[^\s@]]. *)
Definition email_char (c : ascii) : bool :=
  negb (is_space c) && negb (Ascii.eqb c "@").

(** [/^[^\s@]+@/]: what follows the first [@], when one or more characters
    of the class stand before it; [seen] tells whether one was read. *)
Fixpoint local_part (seen : bool) (s : string) : option string :=
  match s with
  | EmptyString => None
  | String c s' =>
      if Ascii.eqb c "@" then (if seen then Some s' else None)
      else if email_char c then local_part true s'
      else None
  end.

(** [/\.[^\s@]+$/] somewhere in a string of the class. *)
Fixpoint dot_then_more (s : string) : bool :=
  match s with
  | EmptyString => false
  | String c s' => (Ascii.eqb c "." && negb (is_empty s')) || dot_then_more s'
  end.

(** [/^[^\s@]+\.[^\s@]+$/] *)
Definition domain_part (s : string) : bool :=
  str_forallb email_char s &&
  match s with
  | EmptyString => false
  | String _ s' => dot_then_more s'
  end.

(** [/^[^\s@]+@[^\s@]+\.[^\s@]+$/.test(s)] *)
Definition emailRegex (s : string) : bool :=
  match local_part false s with
  | Some rest => domain_part rest
  | None => false
  end.

Definition isValidEmail (email : jsval) : bool :=
  match email with
  | JStr s => emailRegex s && (String.length s <=? 254)%nat
  | _ => false
  end.

Fixpoint str_existsb (p : ascii -> bool) (s : string) : bool :=
  match s with
  | EmptyString => false
  | String c s' => p c || str_existsb p s'
  end.

Definition isValidPassword (password : jsval) : bool :=
  match password with
  | JStr s =>
      if (String.length s <? 8)%nat then false
      else if negb (str_existsb is_digit s) then false
      else if negb (str_existsb (fun c => is_lower c || is_upper c) s) then false
      else true
  | _ => false
  end.

(** [toLowerCase] on the code units 0..255: the letters A-Z and the
    accented capitals U+00C0..U+00DE, the sign U+00D7 apart. *)
Definition lower_char (c : ascii) : ascii :=
  let n := nat_of_ascii c in
  if is_upper c || ((192 <=? n)%nat && (n <=? 222)%nat && negb (n =? 215)%nat)
  then ascii_of_nat (n + 32)
  else c.

(** [email.trim().toLowerCase()] *)
Definition normalizeEmail (email : string) : string :=
  str_map lower_char (trim email).

(** *** State *)

(** A stored user: an object of [inMemoryUsers] or a Mongo document, whose
    [_id] is [id] here. *)
Record Account : Type :=
  { id : string; email : string; password_hash : string }.

(** [inMemoryUsers]: a [Map] keeps its keys in insertion order, which the
    loop of [/api/me] follows. *)
Definition Users : Type := list (string * Account).

Fixpoint users_get (key : string) (users : Users) : option Account :=
  match users with
  | [] => None
  | (k, u) :: rest => if String.eqb k key then Some u else users_get key rest
  end.

Definition users_has (key : string) (users : Users) : bool :=
  match users_get key users with Some _ => true | None => false end.

Fixpoint users_set (key : string) (u : Account) (users : Users) : Users :=
  match users with
  | [] => [(key, u)]
  | (k, v) :: rest =>
      if String.eqb k key then (k, u) :: rest
      else (k, v) :: users_set key u rest
  end.

Definition users_values (users : Users) : list Account := map snd users.

Record Server : Type :=
  { rateLimitStore : gmap string RateLimit.RateWindow;
    credentialThrottleStore : gmap string Throttle.FailureRecord;
    inMemoryUsers : Users;
    mongoConnected : bool }.

Definition with_rateLimitStore (store : gmap string RateLimit.RateWindow)
    (srv : Server) : Server :=
  {| rateLimitStore := store;
     credentialThrottleStore := credentialThrottleStore srv;
     inMemoryUsers := inMemoryUsers srv;
     mongoConnected := mongoConnected srv |}.

Definition with_credentialThrottleStore
    (store : gmap string Throttle.FailureRecord) (srv : Server) : Server :=
  {| rateLimitStore := rateLimitStore srv;
     credentialThrottleStore := store;
     inMemoryUsers := inMemoryUsers srv;
     mongoConnected := mongoConnected srv |}.

Definition with_inMemoryUsers (users : Users) (srv : Server) : Server :=
  {| rateLimitStore := rateLimitStore srv;
     credentialThrottleStore := credentialThrottleStore srv;
     inMemoryUsers := users;
     mongoConnected := mongoConnected srv |}.

(** *** Requests and responses *)

(** [req.body]: an absent field, or an absent body, is [JUndefined]. *)
Record Credentials : Type := { body_email : jsval; body_password : jsval }.

(** [req.ip] and [req.connection.remoteAddress], [None] when undefined. *)
Record Peer : Type := { ip : option string; remoteAddress : option string }.

(** [a || b] for a string or undefined [a]. *)
Definition or_else (a : option string) (b : string) : string :=
  match a with
  | Some s => if is_empty s then b else s
  | None => b
  end.

(** [req.ip || req.connection.remoteAddress || 'unknown'] *)
Definition client_ip (peer : Peer) : string :=
  or_else (ip peer) (or_else (remoteAddress peer) "unknown").

Inductive Body : Type :=
  | Error (error : string)
  | ErrorRetry (error : string) (retryAfter : Z)
  | Registered (id : string) (token : string)
  | Token (token : string)
  | Ok
  | Me (id : string) (email : string).

Record Response : Type := { status : Z; body : Body }.

Definition bad_request (message : string) : Response :=
  {| status := 400; body := Error message |}.

(** What an awaited promise settles to; [code] is the [code] property of
    the error when it is a number. *)
Inductive Awaited (A : Type) : Type :=
  | Fulfilled (value : A)
  | Threw (code : option Z).
Arguments Fulfilled {A} value.
Arguments Threw {A} code.

(** Where an uninterrupted phase of a handler ends: with the response, or
    at an [await], with what the rest of the handler needs. *)
Inductive Step (A : Type) : Type :=
  | Done (res : Response)
  | Await (pending : A).
Arguments Done {A} res.
Arguments Await {A} pending.

(** The readings of [Date.now()] in one request: in [rateLimit], in
    [getCredentialThrottle], in [recordCredentialFailure] or for the new
    id, and when the token is signed. *)
Record Clock : Type :=
  { at_limit : Z; at_throttle : Z; at_write : Z; at_sign : Z }.

Section Handlers.

(** [bcrypt.compare(password, hash)] *)
Variable bcrypt_compare : string -> string -> Awaited bool.
(** [signToken(payload)] of [auth.js], signed at the given clock reading. *)
Variable signToken : Z -> Auth.Identity -> string.
(** [jwt.verify] of the auth gate. *)
Variable jwt_verify : string -> Auth.JwtError + Auth.Identity.

(** **** [POST /api/register] *)

(** Up to [await bcrypt.hash(password, 12)]. *)
Definition register_start (peer : Peer) (req : Credentials) (now : Z)
    (srv : Server) : Step (string * string) * Server :=
  if negb (truthy (body_email req)) || negb (truthy (body_password req)) then
    (Done (bad_request "Missing email or password"), srv)
  else if negb (is_string (body_email req)) || negb (is_string (body_password req)) then
    (Done (bad_request "Bad input types"), srv)
  else
    let normalizedEmail := normalizeEmail (str_of (body_email req)) in
    let password := str_of (body_password req) in
    if negb (isValidEmail (JStr normalizedEmail)) then
      (Done (bad_request "Invalid email format"), srv)
    else if negb (isValidPassword (JStr password)) then
      (Done (bad_request
         "Password must be at least 8 characters and contain at least one letter and one number"),
       srv)
    else
      let '(rateLimitResult, store) :=
        RateLimit.rateLimit ("register:" +:+ client_ip peer) now (rateLimitStore srv) in
      match rateLimitResult with
      | RateLimit.Denied retryAfter =>
          (Done
             {| status := 429;
                body := ErrorRetry
                  "Too many registration attempts. Please try again later."
                  retryAfter |},
           with_rateLimitStore store srv)
      | RateLimit.Allowed _ =>
          (Await (normalizedEmail, password), with_rateLimitStore store srv)
      end.

(** The [catch] of the register handler. *)
Definition register_failure (code : option Z) : Response :=
  if match code with Some c => c =? 11000 | None => false end
  then {| status := 409; body := Error "User already exists" |}
  else {| status := 500; body := Error "DB error" |}.

(** From the settling of [bcrypt.hash] on.  [saved] is what
    [user.save()] settles to, the stored document when it is fulfilled;
    the server state is not written after it. *)
Definition register_finish (normalizedEmail : string) (hashed : Awaited string)
    (saved : Awaited Account) (now signed_at : Z) (srv : Server)
    : Response * Server :=
  match hashed with
  | Threw code => (register_failure code, srv)
  | Fulfilled password_hash =>
      if mongoConnected srv then
        match saved with
        | Threw code => (register_failure code, srv)
        | Fulfilled user =>
            ({| status := 200;
                body := Registered (id user)
                          (signToken signed_at
                             {| Auth.id := id user; Auth.email := email user |}) |},
             srv)
        end
      else if users_has normalizedEmail (inMemoryUsers srv) then
        ({| status := 409; body := Error "User already exists" |}, srv)
      else
        let id := "user_" +:+ show_Z now in
        ({| status := 200;
            body := Registered id
                      (signToken signed_at
                         {| Auth.id := id; Auth.email := normalizedEmail |}) |},
         with_inMemoryUsers
           (users_set normalizedEmail
              {| id := id; email := normalizedEmail; password_hash := password_hash |}
              (inMemoryUsers srv))
           srv)
  end.

(** A registration served without another request in between. *)
Definition post_api_register (peer : Peer) (req : Credentials) (clock : Clock)
    (hashed : Awaited string) (saved : Awaited Account) (srv : Server)
    : Response * Server :=
  match register_start peer req (at_limit clock) srv with
  | (Done res, srv1) => (res, srv1)
  | (Await (normalizedEmail, _), srv1) =>
      register_finish normalizedEmail hashed saved (at_write clock) (at_sign clock) srv1
  end.

(** **** [POST /api/login] *)

Definition invalid_credentials : Response :=
  {| status := 401; body := Error "Invalid credentials" |}.

Definition login_failure : Response :=
  {| status := 500; body := Error "DB error" |}.

(** Up to the lookup of the user. *)
Definition login_start (peer : Peer) (req : Credentials) (now_limit now_throttle : Z)
    (srv : Server) : Step (string * string) * Server :=
  if negb (truthy (body_email req)) || negb (truthy (body_password req)) then
    (Done (bad_request "Missing email or password"), srv)
  else if negb (is_string (body_email req)) || negb (is_string (body_password req)) then
    (Done (bad_request "Bad input types"), srv)
  else
    let normalizedEmail := normalizeEmail (str_of (body_email req)) in
    let password := str_of (body_password req) in
    if negb (isValidEmail (JStr normalizedEmail)) then
      (Done (bad_request "Invalid email format"), srv)
    else
      let '(rateLimitResult, store) :=
        RateLimit.rateLimit ("login:" +:+ client_ip peer) now_limit (rateLimitStore srv) in
      let srv1 := with_rateLimitStore store srv in
      match rateLimitResult with
      | RateLimit.Denied retryAfter =>
          (Done
             {| status := 429;
                body := ErrorRetry "Too many login attempts. Please try again later."
                          retryAfter |},
           srv1)
      | RateLimit.Allowed _ =>
          let '(credentialThrottle, failures) :=
            Throttle.getCredentialThrottle normalizedEmail now_throttle
              (credentialThrottleStore srv1) in
          let srv2 := with_credentialThrottleStore failures srv1 in
          match credentialThrottle with
          | Throttle.Blocked retryAfter =>
              (Done
                 {| status := 429;
                    body := ErrorRetry
                      "Too many failed login attempts for this account. Please try again later."
                      retryAfter |},
               srv2)
          | Throttle.NotBlocked => (Await (normalizedEmail, password), srv2)
          end
      end.

(** The lookup: [found] is what [User.findOne] settles to; the in-memory
    map is read without waiting, in the same phase as [login_start]. *)
Definition login_lookup (normalizedEmail : string)
    (found : Awaited (option Account)) (now : Z) (srv : Server)
    : Step Account * Server :=
  let user :=
    if mongoConnected srv then found
    else Fulfilled (users_get normalizedEmail (inMemoryUsers srv)) in
  match user with
  | Threw _ => (Done login_failure, srv)
  | Fulfilled None =>
      (Done invalid_credentials,
       with_credentialThrottleStore
         (Throttle.recordCredentialFailure normalizedEmail now
            (credentialThrottleStore srv))
         srv)
  | Fulfilled (Some user) => (Await user, srv)
  end.

(** From the settling of [bcrypt.compare] on. *)
Definition login_finish (normalizedEmail : string) (user : Account)
    (ok : Awaited bool) (now signed_at : Z) (srv : Server) : Response * Server :=
  match ok with
  | Threw _ => (login_failure, srv)
  | Fulfilled false =>
      (invalid_credentials,
       with_credentialThrottleStore
         (Throttle.recordCredentialFailure normalizedEmail now
            (credentialThrottleStore srv))
         srv)
  | Fulfilled true =>
      ({| status := 200;
          body := Token (signToken signed_at
                           {| Auth.id := id user; Auth.email := email user |}) |},
       with_credentialThrottleStore
         (Throttle.resetCredentialFailures normalizedEmail
            (credentialThrottleStore srv))
         srv)
  end.

(** A login served without another request in between. *)
Definition post_api_login (peer : Peer) (req : Credentials) (clock : Clock)
    (found : Awaited (option Account)) (srv : Server) : Response * Server :=
  match login_start peer req (at_limit clock) (at_throttle clock) srv with
  | (Done res, srv1) => (res, srv1)
  | (Await (normalizedEmail, password), srv1) =>
      match login_lookup normalizedEmail found (at_write clock) srv1 with
      | (Done res, srv2) => (res, srv2)
      | (Await user, srv2) =>
          login_finish normalizedEmail user
            (bcrypt_compare password (password_hash user))
            (at_write clock) (at_sign clock) srv2
      end
  end.

(** **** [POST /api/logout] and [GET /api/me] *)

Definition refusal (res : Auth.Response) : Response :=
  {| status := Auth.status res; body := Error (Auth.error res) |}.

Definition post_api_logout (authorization : option string) : Response :=
  match Auth.authMiddleware jwt_verify authorization with
  | Auth.Refused res => refusal res
  | Auth.Next _ => {| status := 200; body := Ok |}
  end.

(** The loop over [inMemoryUsers.values()]: the first user with the id. *)
Definition find_by_id (wanted : string) (users : Users) : option Account :=
  List.find (fun u => String.eqb (id u) wanted) (users_values users).

(** [found] is what [User.findById] settles to. *)
Definition get_api_me (authorization : option string)
    (found : Awaited (option Account)) (srv : Server) : Response :=
  match Auth.authMiddleware jwt_verify authorization with
  | Auth.Refused res => refusal res
  | Auth.Next user =>
      match (if mongoConnected srv then found
             else Fulfilled (find_by_id (Auth.id user) (inMemoryUsers srv))) with
      | Threw _ => {| status := 500; body := Error "Failed to fetch user" |}
      | Fulfilled None => {| status := 404; body := Error "User not found" |}
      | Fulfilled (Some u) => {| status := 200; body := Me (id u) (email u) |}
      end
  end.

End Handlers.

End Accounts.

(** ** Allowed origins and the global error handler
       ([index.js], lines 283-316 and 737-748)

    The [cors] middleware calls [corsOptions.origin] with the [Origin]
    header of the request and hands an error it gets back to [next]; the
    error then reaches the global error handler. *)

Module Cors.
Import JS.

Definition DEFAULT_ALLOWED_ORIGINS : list string :=
  ["http://localhost:5173"; "http://localhost:4173"; "http://localhost:3000"].

(** [env] is [process.env.CORS_ALLOWED_ORIGINS], [None] when it is not
    set. *)
Definition allowedOrigins (env : option string) : list string :=
  List.filter (fun origin => negb (is_empty origin))
    (map trim
       (split_on "," (Accounts.or_else env (join "," DEFAULT_ALLOWED_ORIGINS)))).

(** The properties of an error that the handler reads; a number that is
    absent is [None]. *)
Record HttpError : Type :=
  { statusCode : option Z; status : option Z; type : option string }.

Inductive OriginCheck : Type :=
  | OriginAllowed
  | OriginError (err : HttpError).

(** [corsOptions.origin]; [allowed] is the content of [allowedOriginSet]
    and [header] the [Origin] header, [None] when the request has none. *)
Definition origin (allowed : list string) (header : option string) : OriginCheck :=
  match header with
  | None => OriginAllowed
  | Some o =>
      if is_empty o then OriginAllowed
      else if existsb (String.eqb o) allowed then OriginAllowed
      else OriginError {| statusCode := Some 403; status := None; type := None |}
  end.

Record Answer : Type := { answer_status : Z; error : string }.

(** [a || b] for a number or undefined [a]. *)
Definition number_or (a : option Z) (b : Z) : Z :=
  match a with
  | Some n => if n =? 0 then b else n
  | None => b
  end.

(** The global error handler. *)
Definition error_handler (err : HttpError) : Answer :=
  let status :=
    number_or (statusCode err)
      (number_or (status err)
         (if match type err with
             | Some t => String.eqb t "entity.parse.failed"
             | None => false
             end
          then 400 else 500)) in
  let message := "Internal server error" in
  let message := if status =? 400 then "Malformed request payload" else message in
  let message := if status =? 401 then "Unauthorized" else message in
  let message := if status =? 403 then "CORS origin denied" else message in
  {| answer_status := status; error := message |}.

(** A request passing the [cors] middleware: [None] when it goes on to the
    routes. *)
Definition cors (env : option string) (header : option string) : option Answer :=
  match origin (allowedOrigins env) header with
  | OriginAllowed => None
  | OriginError err => Some (error_handler err)
  end.

End Cors.

(** ** A server without MongoDB, used in the examples of the accounts *)

Module AccountScenario.
Import JS Accounts.

Definition bcrypt_compare (password hash : string) : Awaited bool :=
  Fulfilled (String.eqb hash ("bcrypt of " +:+ password)).

Definition signToken (now : Z) (user : Auth.Identity) : string :=
  "token-of-" +:+ Auth.id user.

Definition jwt_verify (token : string) : Auth.JwtError + Auth.Identity :=
  if String.eqb token "token-of-user_1700000000250" then
    inr {| Auth.id := "user_1700000000250"; Auth.email := "ada@example.org" |}
  else if String.eqb token "token-of-grace" then
    inr {| Auth.id := "user_1700000000250"; Auth.email := "grace@example.org" |}
  else inl (Auth.JsonWebTokenError "invalid signature").

Definition peer : Peer := {| ip := Some "10.0.0.7"; remoteAddress := None |}.

Definition ada : Credentials :=
  {| body_email := JStr " Ada@Example.org "; body_password := JStr "correct horse 1" |}.

Definition grace_hash : string := "bcrypt of 4 mulberry trees".

Definition fresh : Server :=
  {| rateLimitStore := ∅; credentialThrottleStore := ∅;
     inMemoryUsers := []; mongoConnected := false |}.

Definition clock (now : Z) : Clock :=
  {| at_limit := now; at_throttle := now; at_write := now + 250; at_sign := now + 251 |}.

(** Five failures on record for the address of [ada]. *)
Definition locked : Server :=
  {| rateLimitStore := ∅;
     credentialThrottleStore :=
       {["ada@example.org" := {| Throttle.failures := 5;
                                 Throttle.firstFailure := 1700000000000 |}]};
     inMemoryUsers := []; mongoConnected := false |}.

Definition malformed : Credentials :=
  {| body_email := JStr "ada.example.org"; body_password := JStr "correct horse 1" |}.

(** What [user.save()] would settle to; not used without MongoDB. *)
Definition unsaved : Awaited Account := Threw None.

Definition unfound : Awaited (option Account) := Threw None.

End AccountScenario.

(** ** A deployment used in the examples *)

Module Scenario.
Import JS Flash.

(** The server runs from [/srv/app/backend]; the project root is [/srv/app],
    next to a directory [/srv/app-evil]. *)
Definition cwd : string := "/srv/app/backend".
Definition dirname : string := "/srv/app/backend".

Definition disk (p : string) : Stat :=
  if String.eqb p "/srv/app/sketches/blink.ino" then StatIsFile true
  else if String.eqb p "/srv/app/sketches/my..sketch.ino" then StatIsFile true
  else if String.eqb p "/srv/app-evil/x.ino" then StatIsFile true
  else if String.eqb p "/srv/app/sketches" then StatIsFile false
  else StatThrows.

(** Every process prints a line and exits with code 0. *)
Definition all_succeed (n : nat) (args : list string) : list ChildEvent :=
  [Data "ok"; Close (Some 0)].

(** The compiler reports an error and exits with code 1. *)
Definition compile_fails (n : nat) (args : list string) : list ChildEvent :=
  match args with
  | "compile" :: _ => [Data "error: expected ';'"; Close (Some 1)]
  | _ => [Close (Some 0)]
  end.

Definition jwt (token : string) : Auth.JwtError + Auth.Identity :=
  if String.eqb token "signed-by-us" then
    inr {| Auth.id := "user_1"; Auth.email := "ada@example.org" |}
  else inl (Auth.JsonWebTokenError "invalid signature").

Definition blink : FlashBody :=
  {| sketchPath := JStr "sketches/blink.ino"; port := JStr "COM3";
     fqbn := JStr "esp32:esp32:esp32" |}.

Definition dotted : FlashBody :=
  {| sketchPath := JStr "sketches/my..sketch.ino"; port := JStr "COM3";
     fqbn := JUndefined |}.

Definition sibling : FlashBody :=
  {| sketchPath := JStr "/srv/app-evil/x.ino"; port := JStr "COM3";
     fqbn := JUndefined |}.

End Scenario.

(** * Properties *)

(** ** Sliding-window counter *)

Section RateLimitFacts.
Import RateLimit.

Lemma ceil_div_pos (x d : Z) : 0 < d -> 0 < x -> 0 < JS.ceil_div x d.
Proof.
  intros Hd Hx. unfold JS.ceil_div.
  assert ((- x) / d < 0) by (apply Z.div_lt_upper_bound; lia).
  lia.
Qed.

Lemma rateLimit_absent key now (store : gmap string RateWindow) :
  store !! key = None ->
  rateLimit key now store =
    (Allowed (RATE_LIMIT_MAX_REQUESTS - 1),
     <[key := {| windowStart := now; count := 1 |}]> store).
Proof. intros H. unfold rateLimit. by rewrite H. Qed.

Lemma rateLimit_expired key now (store : gmap string RateWindow) r :
  store !! key = Some r ->
  now - windowStart r > RATE_LIMIT_WINDOW_MS ->
  rateLimit key now store =
    (Allowed (RATE_LIMIT_MAX_REQUESTS - 1),
     <[key := {| windowStart := now; count := 1 |}]> store).
Proof.
  intros H Hexp. unfold rateLimit. rewrite H.
  destruct (Z.gtb_spec (now - windowStart r) RATE_LIMIT_WINDOW_MS); [done | lia].
Qed.

Lemma rateLimit_counts key now (store : gmap string RateWindow) r :
  store !! key = Some r ->
  now - windowStart r <= RATE_LIMIT_WINDOW_MS ->
  count r < RATE_LIMIT_MAX_REQUESTS ->
  rateLimit key now store =
    (Allowed (RATE_LIMIT_MAX_REQUESTS - (count r + 1)),
     <[key := {| windowStart := windowStart r; count := count r + 1 |}]> store).
Proof.
  intros H Hin Hc. unfold rateLimit. rewrite H.
  destruct (Z.gtb_spec (now - windowStart r) RATE_LIMIT_WINDOW_MS); [lia |].
  destruct (Z.geb_spec (count r) RATE_LIMIT_MAX_REQUESTS); [lia | done].
Qed.

Lemma rateLimit_denies key now (store : gmap string RateWindow) r :
  store !! key = Some r ->
  now - windowStart r <= RATE_LIMIT_WINDOW_MS ->
  RATE_LIMIT_MAX_REQUESTS <= count r ->
  rateLimit key now store =
    (Denied (JS.ceil_div (RATE_LIMIT_WINDOW_MS - (now - windowStart r)) 1000),
     store).
Proof.
  intros H Hin Hc. unfold rateLimit. rewrite H.
  destruct (Z.gtb_spec (now - windowStart r) RATE_LIMIT_WINDOW_MS); [lia |].
  destruct (Z.geb_spec (count r) RATE_LIMIT_MAX_REQUESTS); [done | lia].
Qed.

(** The periodic sweep leaves a record alone while its window lasts. *)
Lemma sweep_keeps_live key now (store : gmap string RateWindow) r :
  store !! key = Some r ->
  now - windowStart r <= RATE_LIMIT_WINDOW_MS ->
  sweep now store !! key = Some r.
Proof.
  intros Hr Hlive. unfold sweep. apply map_lookup_filter_Some. split; [done |].
  simpl. destruct (Z.gtb_spec (now - windowStart r) RATE_LIMIT_WINDOW_MS); [lia | done].
Qed.

Lemma calls_app key ts1 ts2 (store : gmap string RateWindow) :
  calls key (ts1 ++ ts2) store =
    let '(rs1, store1) := calls key ts1 store in
    let '(rs2, store2) := calls key ts2 store1 in
    (rs1 ++ rs2, store2).
Proof.
  revert store. induction ts1 as [|t ts1 IH]; intros store; simpl.
  - by destruct (calls key ts2 store).
  - destruct (rateLimit key t store) as [r store'].
    rewrite IH. destruct (calls key ts1 store') as [rs1 store1].
    by destruct (calls key ts2 store1).
Qed.

(** Calls that stay inside the window of an existing record and below the
    maximum each add one to its count and report what is left. *)
Lemma calls_inside_window key ts : forall (store : gmap string RateWindow) r,
  store !! key = Some r ->
  Forall (fun t => t - windowStart r <= RATE_LIMIT_WINDOW_MS) ts ->
  count r + Z.of_nat (length ts) <= RATE_LIMIT_MAX_REQUESTS ->
  calls key ts store =
    (map (fun i => Allowed (RATE_LIMIT_MAX_REQUESTS - (count r + Z.of_nat i)))
         (seq 1 (length ts)),
     <[key := {| windowStart := windowStart r;
                 count := count r + Z.of_nat (length ts) |}]> store).
Proof.
  induction ts as [|t ts IH]; intros store r Hr Hts Hmax.
  - simpl. f_equal. rewrite Z.add_0_r. destruct r; simpl. by rewrite insert_id.
  - inversion Hts as [|? ? Ht Hrest]; subst.
    cbn [calls length] in *.
    rewrite (rateLimit_counts key t store r Hr Ht) by lia.
    set (r1 := {| windowStart := windowStart r; count := count r + 1 |}).
    rewrite (IH (<[key := r1]> store) r1); [| by rewrite lookup_insert_eq | done
      | subst r1; simpl; lia ].
    subst r1; simpl. rewrite insert_insert_eq. f_equal.
    + f_equal.
      rewrite <- (seq_shift (length ts) 1), map_map. apply map_ext. intros i. f_equal. lia.
    + do 2 f_equal. lia.
Qed.

(** A call that opens a window, followed by calls inside that window. *)
Lemma calls_fresh_window key now ts (store : gmap string RateWindow) :
  rateLimit key now store =
    (Allowed (RATE_LIMIT_MAX_REQUESTS - 1),
     <[key := {| windowStart := now; count := 1 |}]> store) ->
  Forall (fun x => x - now <= RATE_LIMIT_WINDOW_MS) ts ->
  1 + Z.of_nat (length ts) <= RATE_LIMIT_MAX_REQUESTS ->
  calls key (now :: ts) store =
    (map (fun c => Allowed (RATE_LIMIT_MAX_REQUESTS - Z.of_nat c))
         (seq 1 (S (length ts))),
     <[key := {| windowStart := now; count := 1 + Z.of_nat (length ts) |}]> store).
Proof.
  intros Hfirst Hts Hmax. cbn [calls]. rewrite Hfirst.
  set (r1 := {| windowStart := now; count := 1 |}).
  rewrite (calls_inside_window key ts (<[key := r1]> store) r1);
    [| by rewrite lookup_insert_eq | done | done ].
  subst r1; simpl. rewrite insert_insert_eq. f_equal. f_equal.
  rewrite <- (seq_shift (length ts) 1), !map_map. apply map_ext.
  intros i. f_equal. lia.
Qed.

(** C5. Starting from no record for the key, [RATE_LIMIT_MAX_REQUESTS] calls
    inside one window are all allowed, the call that brings the record's
    count to [c] reporting [remaining = MAX - c]; the next call inside the
    window is denied with [retryAfter = ceil((WINDOW_MS - elapsed) / 1000)],
    and that number is positive. *)
Theorem rateLimit_max_calls_then_deny key (store : gmap string RateWindow)
    (t0 : Z) (ts : list Z) (t : Z) :
  store !! key = None ->
  length ts = Z.to_nat (RATE_LIMIT_MAX_REQUESTS - 1) ->
  Forall (fun x => x - t0 <= RATE_LIMIT_WINDOW_MS) ts ->
  t - t0 < RATE_LIMIT_WINDOW_MS ->
  let retry := JS.ceil_div (RATE_LIMIT_WINDOW_MS - (t - t0)) 1000 in
  (calls key (t0 :: ts ++ [t]) store).1 =
    map (fun c => Allowed (RATE_LIMIT_MAX_REQUESTS - Z.of_nat c))
        (seq 1 (Z.to_nat RATE_LIMIT_MAX_REQUESTS))
    ++ [Denied retry]
  /\ 0 < retry.
Proof.
  intros Hnone Hlen Hts Ht retry. split.
  - change (t0 :: ts ++ [t]) with ((t0 :: ts) ++ [t]). rewrite calls_app.
    rewrite (calls_fresh_window key t0 ts store);
      [| by apply rateLimit_absent | done
       | rewrite Hlen; unfold RATE_LIMIT_MAX_REQUESTS; lia ].
    cbn [calls].
    erewrite rateLimit_denies; [| by rewrite lookup_insert_eq | simpl; lia
      | simpl; rewrite Hlen; unfold RATE_LIMIT_MAX_REQUESTS; lia ].
    simpl. by rewrite Hlen.
  - apply ceil_div_pos; lia.
Qed.

Lemma rateLimit_max_calls_then_deny_witness :
  (calls "login:10.0.0.7"
     (1000 :: [1001; 1002; 1003; 1004; 1005; 1006; 1007; 1008; 1009] ++ [899999])
     ∅).1 =
    map (fun c => Allowed (RATE_LIMIT_MAX_REQUESTS - Z.of_nat c))
        (seq 1 (Z.to_nat RATE_LIMIT_MAX_REQUESTS))
    ++ [Denied (JS.ceil_div (RATE_LIMIT_WINDOW_MS - (899999 - 1000)) 1000)]
  /\ 0 < JS.ceil_div (RATE_LIMIT_WINDOW_MS - (899999 - 1000)) 1000.
Proof.
  apply (rateLimit_max_calls_then_deny "login:10.0.0.7" ∅ 1000
           [1001; 1002; 1003; 1004; 1005; 1006; 1007; 1008; 1009] 899999).
  - apply lookup_empty.
  - reflexivity.
  - repeat (constructor; [unfold RATE_LIMIT_WINDOW_MS; lia |]). constructor.
  - unfold RATE_LIMIT_WINDOW_MS. lia.
Defined.

(** The claim of C6 as it is worded fails at the boundary: a full record
    whose window started exactly [RATE_LIMIT_WINDOW_MS] ago is not replaced,
    the call is denied. *)
Lemma rateLimit_window_boundary_not_expired :
  ~ (forall key (store : gmap string RateWindow) r now,
       store !! key = Some r ->
       now - windowStart r >= RATE_LIMIT_WINDOW_MS ->
       rateLimit key now store =
         (Allowed (RATE_LIMIT_MAX_REQUESTS - 1),
          <[key := {| windowStart := now; count := 1 |}]> store)).
Proof.
  intros H.
  specialize (H "login:10.0.0.7"
                {[ "login:10.0.0.7" := {| windowStart := 0; count := 10 |} ]}
                {| windowStart := 0; count := 10 |} 900000).
  rewrite (rateLimit_denies _ _ _ {| windowStart := 0; count := 10 |}) in H.
  - specialize (H (lookup_singleton_eq _ _)).
    assert (Hge : 900000 - 0 >= RATE_LIMIT_WINDOW_MS)
      by (unfold RATE_LIMIT_WINDOW_MS; simpl; lia).
    specialize (H Hge). discriminate H.
  - apply lookup_singleton_eq.
  - unfold RATE_LIMIT_WINDOW_MS. simpl. lia.
  - unfold RATE_LIMIT_MAX_REQUESTS. simpl. lia.
Qed.

(** C6, amended. A lookup made when more than [RATE_LIMIT_WINDOW_MS] has
    elapsed since the record's [windowStart] replaces the record with a
    fresh one of count 1 and allows the call; together with the calls that
    follow inside the new window, [RATE_LIMIT_MAX_REQUESTS] calls are
    allowed again. *)
Theorem rateLimit_expired_window_resets key (store : gmap string RateWindow)
    r now (ts : list Z) :
  store !! key = Some r ->
  now - windowStart r > RATE_LIMIT_WINDOW_MS ->
  length ts = Z.to_nat (RATE_LIMIT_MAX_REQUESTS - 1) ->
  Forall (fun x => x - now <= RATE_LIMIT_WINDOW_MS) ts ->
  rateLimit key now store =
    (Allowed (RATE_LIMIT_MAX_REQUESTS - 1),
     <[key := {| windowStart := now; count := 1 |}]> store)
  /\ (calls key (now :: ts) store).1 =
       map (fun c => Allowed (RATE_LIMIT_MAX_REQUESTS - Z.of_nat c))
           (seq 1 (Z.to_nat RATE_LIMIT_MAX_REQUESTS)).
Proof.
  intros Hr Hexp Hlen Hts.
  pose proof (rateLimit_expired key now store r Hr Hexp) as Hfirst.
  split; [done |].
  rewrite (calls_fresh_window key now ts store Hfirst Hts)
    by (rewrite Hlen; unfold RATE_LIMIT_MAX_REQUESTS; lia).
  simpl. by rewrite Hlen.
Qed.

Lemma rateLimit_expired_window_resets_witness :
  rateLimit "login:10.0.0.7" 900001
      {[ "login:10.0.0.7" := {| windowStart := 0; count := 10 |} ]} =
    (Allowed (RATE_LIMIT_MAX_REQUESTS - 1),
     <["login:10.0.0.7" := {| windowStart := 900001; count := 1 |}]>
       {[ "login:10.0.0.7" := {| windowStart := 0; count := 10 |} ]})
  /\ (calls "login:10.0.0.7"
        (900001 :: [900002; 900003; 900004; 900005; 900006; 900007; 900008;
                    900009; 1800001])
        {[ "login:10.0.0.7" := {| windowStart := 0; count := 10 |} ]}).1 =
       map (fun c => Allowed (RATE_LIMIT_MAX_REQUESTS - Z.of_nat c))
           (seq 1 (Z.to_nat RATE_LIMIT_MAX_REQUESTS)).
Proof.
  apply (rateLimit_expired_window_resets "login:10.0.0.7"
           {[ "login:10.0.0.7" := {| windowStart := 0; count := 10 |} ]}
           {| windowStart := 0; count := 10 |} 900001
           [900002; 900003; 900004; 900005; 900006; 900007; 900008;
            900009; 1800001]).
  - apply lookup_singleton_eq.
  - unfold RATE_LIMIT_WINDOW_MS. simpl. lia.
  - reflexivity.
  - repeat (constructor; [unfold RATE_LIMIT_WINDOW_MS; lia |]). constructor.
Defined.

End RateLimitFacts.


(** ** Credential failure throttle *)

Section ThrottleFacts.
Import Throttle.

Lemma no_key_false key : key <> "" -> no_key key = false.
Proof. by destruct key. Qed.

Lemma recordCredentialFailure_first key now (store : gmap string FailureRecord) :
  key <> "" ->
  store !! key = None ->
  recordCredentialFailure key now store =
    <[key := {| failures := 1; firstFailure := now |}]> store.
Proof.
  intros Hk H. unfold recordCredentialFailure.
  by rewrite (no_key_false key Hk), H.
Qed.

Lemma recordCredentialFailure_again key now (store : gmap string FailureRecord) r :
  key <> "" ->
  store !! key = Some r ->
  now - firstFailure r <= CREDENTIAL_WINDOW_MS ->
  recordCredentialFailure key now store =
    <[key := {| failures := failures r + 1; firstFailure := firstFailure r |}]> store.
Proof.
  intros Hk H Hin. unfold recordCredentialFailure.
  rewrite (no_key_false key Hk), H.
  destruct (Z.gtb_spec (now - firstFailure r) CREDENTIAL_WINDOW_MS); [lia | done].
Qed.

(** Failures recorded inside the window of an existing record add up. *)
Lemma recordFailures_inside_window key ts :
  forall (store : gmap string FailureRecord) r,
  key <> "" ->
  store !! key = Some r ->
  Forall (fun t => t - firstFailure r <= CREDENTIAL_WINDOW_MS) ts ->
  recordFailures key ts store =
    <[key := {| failures := failures r + Z.of_nat (length ts);
                firstFailure := firstFailure r |}]> store.
Proof.
  induction ts as [|t ts IH]; intros store r Hk Hr Hts.
  - simpl. rewrite Z.add_0_r. destruct r; simpl. by rewrite insert_id.
  - inversion Hts as [|? ? Ht Hrest]; subst.
    unfold recordFailures in *. cbn [fold_left].
    rewrite (recordCredentialFailure_again key t store r Hk Hr Ht).
    set (r1 := {| failures := failures r + 1; firstFailure := firstFailure r |}).
    rewrite (IH (<[key := r1]> store) r1 Hk); [| by rewrite lookup_insert_eq | done].
    subst r1; simpl. rewrite insert_insert_eq. do 2 f_equal.
    rewrite Nat2Z.inj_succ. lia.
Qed.

Lemma getCredentialThrottle_after_reset key now (store : gmap string FailureRecord) :
  getCredentialThrottle key now (resetCredentialFailures key store) =
    (NotBlocked, resetCredentialFailures key store).
Proof.
  unfold getCredentialThrottle, resetCredentialFailures.
  destruct (no_key key); [done |]. by rewrite lookup_delete_eq.
Qed.

(** The first failure of a run lands in a record that starts at
    [window_of_failure] and counts at least one failure. *)
Lemma recordCredentialFailure_lands key now (store : gmap string FailureRecord) :
  key <> "" ->
  (forall r, store !! key = Some r -> 0 <= failures r) ->
  exists n, 1 <= n /\
    recordCredentialFailure key now store =
      <[key := {| failures := n;
                  firstFailure := window_of_failure key now store |}]> store.
Proof.
  intros Hk Hinv. unfold window_of_failure.
  destruct (store !! key) as [r|] eqn:Hr.
  - destruct (Z.gtb_spec (now - firstFailure r) CREDENTIAL_WINDOW_MS) as [Hexp|Hlive].
    + exists 1. split; [lia |]. unfold recordCredentialFailure.
      rewrite (no_key_false key Hk), Hr.
      destruct (Z.gtb_spec (now - firstFailure r) CREDENTIAL_WINDOW_MS); [done | lia].
    + exists (failures r + 1). split; [specialize (Hinv r eq_refl); lia |].
      by apply recordCredentialFailure_again.
  - exists 1. split; [lia |]. by apply recordCredentialFailure_first.
Qed.

(** C7. For a non-empty identity, five failures recorded inside one
    ten-minute window make the next status query inside that window report
    [blocked] with [retryAfter = ceil((WINDOW_MS - elapsed) / 1000)]; one
    [resetCredentialFailures] then deletes the record, and a status query at
    any clock reading reports not blocked. *)
Theorem credential_throttle_blocks_until_reset key
    (store : gmap string FailureRecord) (t0 : Z) (ts : list Z) (tq : Z) :
  key <> "" ->
  (forall r, store !! key = Some r -> 0 <= failures r) ->
  length ts = Z.to_nat (CREDENTIAL_MAX_FAILURES - 1) ->
  let start := window_of_failure key t0 store in
  Forall (fun t => t - start <= CREDENTIAL_WINDOW_MS) ts ->
  tq - start <= CREDENTIAL_WINDOW_MS ->
  let failed := recordFailures key (t0 :: ts) store in
  let reset := resetCredentialFailures key failed in
  getCredentialThrottle key tq failed =
    (Blocked (JS.ceil_div (CREDENTIAL_WINDOW_MS - (tq - start)) 1000), failed)
  /\ reset !! key = None
  /\ forall now, (getCredentialThrottle key now reset).1 = NotBlocked.
Proof.
  intros Hk Hinv Hlen start Hts Htq failed reset.
  assert (Hfailed : exists n, CREDENTIAL_MAX_FAILURES <= n /\
            failed !! key = Some {| failures := n; firstFailure := start |}).
  { subst failed. unfold recordFailures. cbn [fold_left].
    destruct (recordCredentialFailure_lands key t0 store Hk Hinv) as (n & Hn & ->).
    fold start.
    fold (recordFailures key ts
            (<[key := {| failures := n; firstFailure := start |}]> store)).
    rewrite (recordFailures_inside_window key ts _
               {| failures := n; firstFailure := start |} Hk);
      [| by rewrite lookup_insert_eq | done ].
    rewrite lookup_insert_eq, Hlen. simpl. eexists. split; [| reflexivity].
    unfold CREDENTIAL_MAX_FAILURES. lia. }
  destruct Hfailed as (n & Hn & Hfailed).
  split; [| split].
  - unfold getCredentialThrottle.
    rewrite (no_key_false key Hk), Hfailed. simpl.
    destruct (Z.gtb_spec (tq - start) CREDENTIAL_WINDOW_MS); [lia |].
    destruct (Z.geb_spec n CREDENTIAL_MAX_FAILURES); [done | lia].
  - subst reset. unfold resetCredentialFailures. apply lookup_delete_eq.
  - intros now. subst reset. by rewrite getCredentialThrottle_after_reset.
Qed.

Lemma credential_throttle_blocks_until_reset_witness :
  let failed := recordFailures "ada@example.org" (5000 :: [5001; 5002; 5003; 5004]) ∅ in
  let reset := resetCredentialFailures "ada@example.org" failed in
  getCredentialThrottle "ada@example.org" 6000 failed =
    (Blocked (JS.ceil_div (CREDENTIAL_WINDOW_MS - (6000 - 5000)) 1000), failed)
  /\ reset !! "ada@example.org" = None
  /\ forall now, (getCredentialThrottle "ada@example.org" now reset).1 = NotBlocked.
Proof.
  pose proof (credential_throttle_blocks_until_reset "ada@example.org" ∅ 5000
                [5001; 5002; 5003; 5004] 6000) as H.
  assert (Hstart : window_of_failure "ada@example.org" 5000 ∅ = 5000)
    by (unfold window_of_failure; by rewrite lookup_empty).
  rewrite Hstart in H. apply H.
  - discriminate.
  - intros r Hr. rewrite lookup_empty in Hr. discriminate Hr.
  - reflexivity.
  - repeat (constructor; [unfold CREDENTIAL_WINDOW_MS; simpl; lia |]). constructor.
  - unfold CREDENTIAL_WINDOW_MS. simpl. lia.
Defined.

(** Every stored record counts at least one failure: the invariant of the
    data model holds in the empty store and is kept by the three
    operations. *)
Lemma failures_positive_kept key now (store : gmap string FailureRecord) :
  (forall k r, store !! k = Some r -> 1 <= failures r) ->
  (forall k r, recordCredentialFailure key now store !! k = Some r ->
               1 <= failures r)
  /\ (forall k r, (getCredentialThrottle key now store).2 !! k = Some r ->
                  1 <= failures r)
  /\ (forall k r, resetCredentialFailures key store !! k = Some r ->
                  1 <= failures r).
Proof.
  intros Hinv. split; [| split]; intros k r.
  - unfold recordCredentialFailure.
    destruct (no_key key); [apply Hinv |].
    destruct (store !! key) as [r0|] eqn:Hr0.
    + destruct (now - firstFailure r0 >? CREDENTIAL_WINDOW_MS).
      * destruct (decide (key = k)) as [->|Hne];
          [rewrite lookup_insert_eq; intros [= <-]; simpl; lia
          | rewrite lookup_insert_ne by done; apply Hinv].
      * destruct (decide (key = k)) as [->|Hne];
          [rewrite lookup_insert_eq; intros [= <-]; simpl;
           specialize (Hinv _ _ Hr0); lia
          | rewrite lookup_insert_ne by done; apply Hinv].
    + destruct (decide (key = k)) as [->|Hne];
        [rewrite lookup_insert_eq; intros [= <-]; simpl; lia
        | rewrite lookup_insert_ne by done; apply Hinv].
  - unfold getCredentialThrottle.
    destruct (no_key key); [apply Hinv |].
    destruct (store !! key) as [r0|]; [| apply Hinv].
    destruct (now - firstFailure r0 >? CREDENTIAL_WINDOW_MS).
    + simpl. intros Hk. apply lookup_delete_Some in Hk as [_ Hk]. by eapply Hinv.
    + destruct (failures r0 >=? CREDENTIAL_MAX_FAILURES); apply Hinv.
  - unfold resetCredentialFailures.
    intros Hk. apply lookup_delete_Some in Hk as [_ Hk]. by eapply Hinv.
Qed.

(** The guard [if (!key) return] keeps an empty key out of the store. *)
Lemma empty_key_never_blocked now ts (store : gmap string FailureRecord) :
  getCredentialThrottle "" now (recordFailures "" ts store) = (NotBlocked, store).
Proof.
  assert (recordFailures "" ts store = store) as ->.
  { induction ts as [|t ts IH]; [done |]. exact IH. }
  reflexivity.
Qed.

End ThrottleFacts.

(** ** Process runner *)

Section RunnerFacts.
Import JS Runner.

Lemma str_app_cons x (a b : string) : String x a +:+ b = String x (a +:+ b).
Proof. reflexivity. Qed.

Lemma str_app_nil (b : string) : "" +:+ b = b.
Proof. reflexivity. Qed.

Lemma str_app_assoc (a b c : string) : (a +:+ b) +:+ c = a +:+ (b +:+ c).
Proof.
  induction a as [|x a IH]; [done |]. rewrite !str_app_cons. by f_equal.
Qed.

Lemma str_app_empty_r (a : string) : a +:+ "" = a.
Proof.
  induction a as [|x a IH]; [done |]. rewrite str_app_cons. by f_equal.
Qed.

Lemma str_length_app (a b : string) :
  String.length (a +:+ b) = (String.length a + String.length b)%nat.
Proof.
  induction a as [|x a IH]; [done |]. rewrite str_app_cons. simpl. by f_equal.
Qed.

Lemma slice_from_length n : forall s,
  String.length (slice_from n s) = (String.length s - n)%nat.
Proof.
  induction n as [|n IH]; intros [|x s]; simpl; done.
Qed.

Lemma slice_from_app n : forall a b,
  (n <= String.length a)%nat ->
  slice_from n (a +:+ b) = slice_from n a +:+ b.
Proof.
  induction n as [|n IH]; intros [|x a] b Hn; simpl in Hn; try done; try lia.
  rewrite str_app_cons. simpl. apply IH. lia.
Qed.

Lemma slice_from_add n : forall m s,
  slice_from m (slice_from n s) = slice_from (n + m) s.
Proof.
  induction n as [|n IH]; intros m [|x s]; simpl; try done.
  by destruct m.
Qed.

Lemma slice_from_split n : forall s,
  exists dropped, s = dropped +:+ slice_from n s.
Proof.
  induction n as [|n IH]; intros s.
  - by exists "".
  - destruct s as [|x s]; [by exists "" |].
    destruct (IH s) as [d Hd]. exists (String x d).
    rewrite str_app_cons. simpl. by rewrite <- Hd.
Qed.

(** [appendChunk] keeps the last [maxBuffer] characters. *)
Lemma appendChunk_tail maxBuffer out chunk :
  0 < maxBuffer ->
  appendChunk maxBuffer out chunk =
    slice_from (String.length (out +:+ chunk) - Z.to_nat maxBuffer) (out +:+ chunk).
Proof.
  intros Hpos. unfold appendChunk.
  destruct (Z.gtb_spec (Z.of_nat (String.length (out +:+ chunk))) maxBuffer) as [Hgt|Hle].
  - f_equal. lia.
  - replace (String.length (out +:+ chunk) - Z.to_nat maxBuffer)%nat with 0%nat by lia.
    reflexivity.
Qed.

Lemma tail_of_tail_app n a c :
  let tail s := slice_from (String.length s - n) s in
  tail (tail a +:+ c) = tail (a +:+ c).
Proof.
  intros tail. subst tail. cbv beta.
  rewrite !str_length_app, slice_from_length.
  destruct (Nat.le_gt_cases (String.length a) n) as [Hle|Hgt].
  - replace (String.length a - n)%nat with 0%nat by lia. simpl.
    do 2 f_equal. lia.
  - replace (String.length a + String.length c - n)%nat
      with ((String.length a - n) + String.length c)%nat by lia.
    rewrite <- slice_from_add.
    rewrite (slice_from_app (String.length a - n) a c) by lia.
    f_equal. lia.
Qed.

(** The buffer always holds the tail of what was written, whatever other
    events are delivered in between. *)
Lemma run_output_tail maxBuffer events : forall st before,
  0 < maxBuffer ->
  output st =
    slice_from (String.length before - Z.to_nat maxBuffer) before ->
  let everything := before +:+ written events in
  output (run maxBuffer events st) =
    slice_from (String.length everything - Z.to_nat maxBuffer) everything.
Proof.
  induction events as [|ev events IH]; intros st before Hpos Hst; cbn zeta.
  - simpl. by rewrite str_app_empty_r.
  - unfold run in *. cbn [fold_left].
    destruct ev as [chunk| | |code]; cbn [written];
      try (apply (IH _ before Hpos); simpl; try done;
           by destruct (killTimerArmed st)).
    rewrite <- str_app_assoc.
    apply (IH _ (before +:+ chunk) Hpos). simpl.
    rewrite (appendChunk_tail _ _ _ Hpos), Hst.
    apply (tail_of_tail_app (Z.to_nat maxBuffer) before chunk).
Qed.

Lemma effective_maxBuffer_pos options : 0 < effective_maxBuffer options.
Proof.
  unfold effective_maxBuffer, CLI_MAX_OUTPUT_BYTES.
  destruct (maxBuffer options) as [m|]; [| lia].
  destruct (Z.gtb_spec m 0); lia.
Qed.

(** C4. Whatever chunks (and other events) have been delivered so far, the
    retained output is no longer than the cap, its length is the smaller of
    the cap and the total length written, and it is the tail of that length
    of the concatenation of everything written: only an oldest prefix is
    ever dropped. *)
Theorem captured_output_is_tail (options : Options) (events : list ChildEvent) :
  let maxBuffer := effective_maxBuffer options in
  let everything := written events in
  let out := output (run maxBuffer events spawned) in
  Z.of_nat (String.length out) <= maxBuffer
  /\ Z.of_nat (String.length out) =
       Z.min (Z.of_nat (String.length everything)) maxBuffer
  /\ out = slice_from (String.length everything - String.length out) everything
  /\ exists dropped, everything = dropped +:+ out.
Proof.
  intros maxBuffer everything out.
  pose proof (effective_maxBuffer_pos options) as Hpos. fold maxBuffer in Hpos.
  assert (Hout : out =
            slice_from (String.length everything - Z.to_nat maxBuffer) everything).
  { subst out everything.
    exact (run_output_tail maxBuffer events spawned "" Hpos eq_refl). }
  assert (Hlen : Z.of_nat (String.length out) =
            Z.min (Z.of_nat (String.length everything)) maxBuffer).
  { rewrite Hout, slice_from_length. lia. }
  split; [lia |]. split; [done |]. split.
  - rewrite Hout at 1. f_equal. lia.
  - rewrite Hout. apply slice_from_split.
Qed.

End RunnerFacts.

Section CloseFacts.
Import JS Runner.

(** The claim of C3 as it is worded fails: no reading of the rejection value
    gives back the exit code, since after a timeout every exit code leads to
    the same value. *)
Lemma close_error_loses_exit_code :
  ~ (exists exitCode : CliError -> option Z,
       forall timedOut code out e,
         on_close timedOut code out = Rejected e -> exitCode e = code).
Proof.
  intros [exitCode H].
  pose proof (H true (Some 1) "" _ eq_refl) as H1.
  pose proof (H true (Some 137) "" _ eq_refl) as H2.
  unfold close_error in H1, H2. simpl in H1, H2. congruence.
Qed.

(** C3, amended. When ['close'] is delivered to a pending promise: if the
    kill timer has not fired and the exit code is 0 the promise resolves
    with the captured output; otherwise it rejects with a value whose
    [timedOut] is the timer flag and whose [cliOutput] is the captured
    output.  The exit code is no field of that value: it is spelled in the
    message only, and only when the timer has not fired. *)
Theorem close_settles_promise maxBuffer (st : Child) (code : option Z) :
  promise st = Pending ->
  let st' := on_event maxBuffer st (Close code) in
  (timedOutFlag st = false -> code = Some 0 ->
     promise st' = Resolved (output st))
  /\ (timedOutFlag st = true \/ code <> Some 0 ->
        exists e, promise st' = Rejected e
          /\ timedOut e = Some (timedOutFlag st)
          /\ cliOutput e = output st
          /\ message e =
               if timedOutFlag st then "arduino-cli timed out"
               else "arduino-cli exited with code " +:+
                    match code with Some c => show_Z c | None => "null" end).
Proof.
  intros Hpending st'. subst st'. simpl. rewrite Hpending. simpl.
  unfold on_close. split.
  - intros -> ->. reflexivity.
  - intros Hfail.
    assert (negb (timedOutFlag st) &&
            match code with Some c => c =? 0 | None => false end = false) as ->.
    { destruct Hfail as [-> | Hcode]; [done |].
      apply andb_false_iff. right. destruct code as [c|]; [| done].
      apply Z.eqb_neq. congruence. }
    eexists. split; [reflexivity |]. simpl. by destruct (timedOutFlag st).
Qed.

Lemma close_settles_promise_witness :
  exists e,
    promise (on_event 4000 (run 4000 [Data "Sketch uses 2% "; KillTimer] spawned)
               (Close None)) = Rejected e
    /\ timedOut e = Some true
    /\ cliOutput e = "Sketch uses 2% "
    /\ message e = "arduino-cli timed out".
Proof.
  destruct (close_settles_promise 4000
              (run 4000 [Data "Sketch uses 2% "; KillTimer] spawned) None eq_refl)
    as [_ H].
  exact (H (or_introl eq_refl)).
Defined.

Example close_exit_code_in_message :
  spawnCliAndStream no_options [Data "boom"; Close (Some 2)]
  = Rejected {| message := "arduino-cli exited with code 2"; cause := false;
                timedOut := Some false; cliOutput := "boom" |}.
Proof. reflexivity. Qed.

Example close_success :
  spawnCliAndStream no_options [Data "a"; Data "b"; Close (Some 0)] = Resolved "ab".
Proof. reflexivity. Qed.

End CloseFacts.

(** ** Auth gate *)

Section AuthFacts.
Import JS Auth.

(** The claim of C8 as it is worded fails: a missing header and a rejected
    token are answered with different messages. *)
Lemma auth_failure_messages_differ :
  ~ (forall (jwt_verify : string -> JwtError + Identity) a1 a2 r1 r2,
       authMiddleware jwt_verify a1 = Refused r1 ->
       authMiddleware jwt_verify a2 = Refused r2 ->
       r1 = r2).
Proof.
  intros H.
  specialize (H (fun _ => inl TokenExpiredError) None (Some "Bearer abc")
                _ _ eq_refl eq_refl).
  discriminate H.
Qed.

(** C8, amended. Every refusal of the gate has status 401.  Its message
    names the step that failed: the header is missing or empty, or it is not
    two space-separated parts with first part [Bearer], or the token did not
    verify; in the last case the message is the same for every reason of
    [jwt.verify] to fail. *)
Theorem auth_failure_is_401 (jwt_verify : string -> JwtError + Identity)
    (authorization : option string) (res : Response) :
  authMiddleware jwt_verify authorization = Refused res ->
  status res = 401
  /\ ((authorization = None \/ authorization = Some "")
        /\ error res = "Missing Authorization header"
      \/ (exists auth, authorization = Some auth /\ auth <> ""
            /\ (forall token, split_on " " auth <> ["Bearer"; token]))
        /\ error res = "Bad Authorization format"
      \/ (exists auth token reason, authorization = Some auth
            /\ split_on " " auth = ["Bearer"; token]
            /\ jwt_verify token = inl reason)
        /\ error res = "Invalid or expired token").
Proof.
  unfold authMiddleware, verifyToken.
  destruct authorization as [auth|]; [| intros [= <-]; split; [done |]; left; auto].
  destruct auth as [|c auth'] eqn:Hauth; simpl is_empty; cbv iota.
  { intros [= <-]. split; [done |]. left. auto. }
  rewrite <- Hauth. 
  assert (Hne : auth <> "") by (rewrite Hauth; discriminate).
  clear Hauth.
  destruct (split_on " " auth) as [|scheme [|token [|x rest]]] eqn:Hsplit;
    try (intros [= <-]; split; [done |]; right; left; split; [| done];
         exists auth; repeat split; try done; intros t; rewrite Hsplit; discriminate).
  - destruct (String.eqb_spec scheme "Bearer") as [-> | Hscheme]; simpl.
    + destruct (jwt_verify token) as [reason|payload] eqn:Hjwt; [| discriminate].
      intros [= <-]. split; [done |]. right; right. split; [| done].
      exists auth, token, reason. by rewrite Hsplit.
    + intros [= <-]. split; [done |]. right; left. split; [| done].
      exists auth. repeat split; try done. intros t. rewrite Hsplit. congruence.
Qed.

Lemma auth_failure_is_401_witness :
  status {| status := 401; error := "Bad Authorization format" |} = 401.
Proof.
  exact (proj1 (auth_failure_is_401 (fun _ => inl NotBeforeError)
                  (Some "Basic dXNlcjpwdw==")
                  {| status := 401; error := "Bad Authorization format" |}
                  eq_refl)).
Defined.

End AuthFacts.

(** ** Paths *)

Section PathFacts.
Import JS NodePath.

Lemma startsWith_app (a b : string) : startsWith (a +:+ b) a = true.
Proof.
  induction a as [|x a IH]; [by destruct b |].
  rewrite str_app_cons. simpl. by rewrite Ascii.eqb_refl.
Qed.

Lemma split_on_cons_sep sep s : split_on sep (String sep s) = "" :: split_on sep s.
Proof. simpl. by rewrite Ascii.eqb_refl. Qed.

Lemma split_on_not_nil sep s : split_on sep s <> [].
Proof.
  induction s as [|c s IH]; simpl; [done |].
  destruct (Ascii.eqb c sep); [done |]. by destruct (split_on sep s).
Qed.

(** Splitting a string that starts with a separator-free word. *)
Lemma split_on_word w : forall rest,
  str_forallb (fun c => negb (Ascii.eqb c "/")) w = true ->
  split_on "/" (w +:+ String "/" rest) = w :: split_on "/" rest.
Proof.
  induction w as [|c w IH]; intros rest Hw.
  - rewrite str_app_nil. apply split_on_cons_sep.
  - simpl in Hw. apply andb_true_iff in Hw as [Hc Hw].
    rewrite str_app_cons. simpl.
    apply negb_true_iff in Hc. rewrite Hc. by rewrite (IH rest Hw).
Qed.

Lemma split_on_single w :
  str_forallb (fun c => negb (Ascii.eqb c "/")) w = true ->
  split_on "/" w = [w].
Proof.
  induction w as [|c w IH]; intros Hw; [done |].
  simpl in Hw. apply andb_true_iff in Hw as [Hc Hw].
  simpl. apply negb_true_iff in Hc. rewrite Hc. by rewrite (IH Hw).
Qed.

Lemma split_on_no_sep s :
  Forall (fun w => str_forallb (fun c => negb (Ascii.eqb c "/")) w = true)
         (split_on "/" s).
Proof.
  induction s as [|c s IH]; simpl; [by repeat constructor |].
  destruct (Ascii.eqb c "/") eqn:Hc; [by constructor |].
  destruct (split_on "/" s) as [|w ws]; [by repeat constructor; simpl; rewrite Hc |].
  inversion IH; subst. constructor; [| done]. simpl. by rewrite Hc.
Qed.

(** The segments of a joined list of clean segments are that list. *)
Lemma segments_join xs :
  Forall (fun w => clean_segment w = true) xs ->
  segments ("/" +:+ join "/" xs) = xs.
Proof.
  intros Hxs. unfold segments.
  change ("/" +:+ join "/" xs) with (String "/" (join "/" xs)).
  rewrite split_on_cons_sep. simpl.
  induction Hxs as [|w ws Hw Hws IH]; [done |].
  unfold clean_segment in Hw. apply andb_true_iff in Hw as [Hne Hns].
  destruct ws as [|w' ws'].
  - simpl. rewrite (split_on_single w Hns). simpl. by rewrite Hne.
  - change (join "/" (w :: w' :: ws')) with (w +:+ String "/" (join "/" (w' :: ws'))).
    rewrite (split_on_word w _ Hns). simpl. rewrite Hne. by f_equal.
Qed.

Lemma includes_later c s w : includes s w = true -> includes (String c s) w = true.
Proof. intros H. cbn [includes]. rewrite H. apply orb_true_r. Qed.

Lemma includes_prefix s w : startsWith s w = true -> includes s w = true.
Proof. intros H. destruct s; cbn [includes]; by rewrite H. Qed.

(** The first piece of a split is a prefix of the string. *)
Lemma split_on_head_prefix sep s :
  match split_on sep s with
  | w :: _ => startsWith s w = true
  | [] => True
  end.
Proof.
  induction s as [|c s IH]; simpl; [done |].
  destruct (Ascii.eqb c sep); [done |].
  destruct (split_on sep s) as [|w ws]; simpl.
  - by rewrite Ascii.eqb_refl.
  - by rewrite Ascii.eqb_refl, IH.
Qed.

(** Every piece of a split occurs in the string. *)
Lemma split_on_piece_included sep s : forall w,
  In w (split_on sep s) -> includes s w = true.
Proof.
  induction s as [|c s IH]; intros w Hw.
  - destruct Hw as [<- | []]. reflexivity.
  - simpl in Hw. destruct (Ascii.eqb c sep).
    + destruct Hw as [<- | Hw]; [done |]. apply includes_later. by apply IH.
    + pose proof (split_on_head_prefix sep s) as Hhead.
      destruct (split_on sep s) as [|w0 ws].
      * destruct Hw as [<- | []]. apply includes_prefix. simpl.
        by rewrite Ascii.eqb_refl.
      * destruct Hw as [<- | Hw].
        -- apply includes_prefix. simpl. by rewrite Ascii.eqb_refl, Hhead.
        -- apply includes_later. apply IH. by right.
Qed.

Lemma segments_prefix_app xs : forall ys,
  segments_prefix xs ys = true -> exists rest, ys = xs ++ rest.
Proof.
  induction xs as [|x xs IH]; intros ys H; [by exists ys |].
  destruct ys as [|y ys]; [done |]. simpl in H.
  apply andb_true_iff in H as [Hxy H].
  apply String.eqb_eq in Hxy as ->.
  destruct (IH ys H) as [rest ->]. by exists rest.
Qed.

Lemma join_app xs rest : exists tail, join "/" (xs ++ rest) = join "/" xs +:+ tail.
Proof.
  induction xs as [|w ws IH]; [by exists (join "/" rest) |].
  destruct ws as [|w' ws'].
  - destruct rest as [|r rest].
    + exists "". simpl. by rewrite str_app_empty_r.
    + by exists ("/" +:+ join "/" (r :: rest)).
  - destruct IH as [tail IH]. exists tail.
    change (join "/" ((w :: w' :: ws') ++ rest))
      with (w +:+ "/" +:+ join "/" ((w' :: ws') ++ rest)).
    change (join "/" (w :: w' :: ws')) with (w +:+ "/" +:+ join "/" (w' :: ws')).
    by rewrite IH, !str_app_assoc.
Qed.

Lemma normalize_segments_clean allowAboveRoot segs : forall stack,
  Forall (fun w => str_forallb (fun c => negb (Ascii.eqb c "/")) w = true) segs ->
  Forall (fun w => clean_segment w = true) stack ->
  Forall (fun w => clean_segment w = true)
         (normalize_segments allowAboveRoot segs stack).
Proof.
  induction segs as [|seg segs IH]; intros stack Hsegs Hstack; simpl.
  - by apply Forall_rev.
  - inversion Hsegs as [|? ? Hseg Hrest]; subst.
    destruct (is_empty seg) eqn:Hempty; simpl; [by apply IH |].
    destruct (String.eqb seg "."); [by apply IH |].
    destruct (String.eqb seg "..").
    + destruct stack as [|top below].
      * apply IH; [done |]. destruct allowAboveRoot; by repeat constructor.
      * inversion Hstack; subst.
        destruct (String.eqb top ".."); [| by apply IH].
        apply IH; [done |]. destruct allowAboveRoot; by repeat constructor.
    + apply IH; [done |]. constructor; [| done].
      unfold clean_segment. by rewrite Hempty, Hseg.
Qed.

Lemma plain_is_clean xs :
  Forall (fun w => plain_segment w = true) xs ->
  Forall (fun w => clean_segment w = true) xs.
Proof.
  intros H. eapply Forall_impl; [exact H |].
  intros w Hw. unfold plain_segment in Hw.
  apply andb_true_iff in Hw as [Hw _]. by apply andb_true_iff in Hw as [Hw _].
Qed.

(** Below the root nothing but plain segments is kept. *)
Lemma normalize_segments_plain segs : forall stack,
  Forall (fun w => str_forallb (fun c => negb (Ascii.eqb c "/")) w = true) segs ->
  Forall (fun w => plain_segment w = true) stack ->
  Forall (fun w => plain_segment w = true) (normalize_segments false segs stack).
Proof.
  induction segs as [|seg segs IH]; intros stack Hsegs Hstack; simpl.
  - by apply Forall_rev.
  - inversion Hsegs as [|? ? Hseg Hrest]; subst.
    destruct (is_empty seg) eqn:Hempty; simpl; [by apply IH |].
    destruct (String.eqb seg ".") eqn:Hdot; [by apply IH |].
    destruct (String.eqb seg "..") eqn:Hdots.
    + destruct stack as [|top below]; [by apply IH |].
      inversion Hstack; subst.
      destruct (String.eqb top ".."); by apply IH.
    + apply IH; [done |]. constructor; [| done].
      unfold plain_segment, clean_segment. by rewrite Hempty, Hseg, Hdot, Hdots.
Qed.

(** Plain segments are pushed as they come. *)
Lemma normalize_segments_push allowAboveRoot rs : forall more stack,
  Forall (fun w => plain_segment w = true) rs ->
  normalize_segments allowAboveRoot (rs ++ more) stack =
    normalize_segments allowAboveRoot more (rev rs ++ stack).
Proof.
  induction rs as [|w rs IH]; intros more stack Hrs; [done |].
  inversion Hrs as [|? ? Hw Hrest]; subst.
  unfold plain_segment, clean_segment in Hw.
  apply andb_true_iff in Hw as [Hw Hdots].
  apply andb_true_iff in Hw as [Hw Hdot].
  apply andb_true_iff in Hw as [Hempty _].
  apply negb_true_iff in Hempty, Hdot, Hdots.
  cbn [app normalize_segments]. rewrite Hempty, Hdot, Hdots. simpl.
  rewrite (IH more (w :: stack) Hrest). by rewrite <- app_assoc.
Qed.

(** Without a [..] segment nothing is ever removed from the stack. *)
Lemma normalize_segments_grows allowAboveRoot more : forall stack,
  ~ In ".." more ->
  exists extra,
    normalize_segments allowAboveRoot more stack = rev stack ++ extra.
Proof.
  induction more as [|seg more IH]; intros stack Hno; simpl.
  - exists []. by rewrite app_nil_r.
  - assert (Hseg : String.eqb seg ".." = false).
    { apply String.eqb_neq. intros ->. apply Hno. by left. }
    assert (Hmore : ~ In ".." more) by (intros H; apply Hno; by right).
    rewrite Hseg.
    destruct (is_empty seg || String.eqb seg "."); [by apply IH |].
    destruct (IH (seg :: stack) Hmore) as [extra ->].
    exists (seg :: extra). simpl. by rewrite <- app_assoc.
Qed.

Lemma split_on_snoc_sep p : split_on "/" (p +:+ "/") = split_on "/" p ++ [""].
Proof.
  induction p as [|c p IH]; [done |].
  rewrite str_app_cons. simpl. destruct (Ascii.eqb c "/"); [by rewrite IH |].
  rewrite IH. pose proof (split_on_not_nil "/" p).
  by destruct (split_on "/" p).
Qed.

(** Splitting a joined list of clean segments followed by a separator. *)
Lemma split_on_join rs : forall rest,
  Forall (fun w => clean_segment w = true) rs ->
  split_on "/" (join "/" rs +:+ String "/" rest) =
    match rs with [] => [""] | _ => rs end ++ split_on "/" rest.
Proof.
  induction rs as [|w rs IH]; intros rest Hrs.
  - simpl join. rewrite str_app_nil. apply split_on_cons_sep.
  - inversion Hrs as [|? ? Hw Hrest]; subst.
    unfold clean_segment in Hw. apply andb_true_iff in Hw as [_ Hns].
    destruct rs as [|w' rs'].
    + simpl join. by rewrite (split_on_word w rest Hns).
    + change (join "/" (w :: w' :: rs'))
        with (w +:+ String "/" (join "/" (w' :: rs'))).
      rewrite str_app_assoc, str_app_cons.
      rewrite (split_on_word w _ Hns). by rewrite (IH rest Hrest).
Qed.

Lemma segments_prefix_app_r xs rest : segments_prefix xs (xs ++ rest) = true.
Proof.
  induction xs as [|x xs IH]; [done |]. simpl. by rewrite String.eqb_refl.
Qed.

Lemma resolve_loop_absolute paths : forall acc,
  Exists (fun p => is_absolute p = true) paths ->
  (resolve_loop paths acc).2 = true.
Proof.
  induction paths as [|p paths IH]; intros acc Hex; [by inversion Hex |].
  simpl. destruct (is_empty p) eqn:Hempty.
  - apply IH. inversion Hex as [? ? Habs|]; subst; [| done].
    by destruct p.
  - destruct (is_absolute p) eqn:Habs; [done |].
    apply IH. inversion Hex as [? ? Habs'|]; subst; [congruence | done].
Qed.

(** With an absolute working directory, [path.resolve] returns a slash
    followed by clean segments joined by slashes. *)
Lemma resolve_shape_plain cwd args :
  is_absolute cwd = true ->
  exists segs, Forall (fun w => plain_segment w = true) segs
               /\ resolve cwd args = "/" +:+ join "/" segs.
Proof.
  intros Hcwd. unfold resolve.
  pose proof (resolve_loop_absolute (rev args ++ [cwd]) "") as Habs.
  destruct (resolve_loop (rev args ++ [cwd]) "") as [resolvedPath resolvedAbsolute].
  simpl in Habs. rewrite Habs.
  2:{ apply Exists_app. right. by constructor. }
  eexists. split; [| reflexivity].
  apply normalize_segments_plain; [apply split_on_no_sep | constructor].
Qed.

Lemma resolve_shape cwd args :
  is_absolute cwd = true ->
  exists segs, Forall (fun w => clean_segment w = true) segs
               /\ resolve cwd args = "/" +:+ join "/" segs.
Proof.
  intros Hcwd. destruct (resolve_shape_plain cwd args Hcwd) as (segs & Hsegs & ->).
  exists segs. split; [by apply plain_is_clean | done].
Qed.

(** For paths produced by [path.resolve], being inside a root implies having
    the root as a string prefix. *)
Lemma within_implies_prefix cwd args1 args2 :
  is_absolute cwd = true ->
  is_within (resolve cwd args1) (resolve cwd args2) = true ->
  startsWith (resolve cwd args2) (resolve cwd args1) = true.
Proof.
  intros Hcwd.
  destruct (resolve_shape cwd args1 Hcwd) as (rs & Hrs & ->).
  destruct (resolve_shape cwd args2 Hcwd) as (ps & Hps & ->).
  unfold is_within. rewrite !segments_join by done.
  intros Hprefix. destruct (segments_prefix_app rs ps Hprefix) as [rest ->].
  destruct (join_app rs rest) as [tail ->].
  rewrite <- str_app_assoc. apply startsWith_app.
Qed.

Lemma no_parent_segment p :
  includes p ".." = false -> ~ In ".." (split_on "/" (p +:+ "/")).
Proof.
  intros Hp Hin. rewrite split_on_snoc_sep in Hin.
  apply in_app_or in Hin as [Hin | [Hin | []]]; [| discriminate Hin].
  apply split_on_piece_included in Hin. congruence.
Qed.

(** A relative path without [..] resolves below the directory it is resolved
    against. *)
Lemma resolve_relative_inside cwd rootArgs p :
  is_absolute cwd = true ->
  is_empty p = false ->
  is_absolute p = false ->
  includes p ".." = false ->
  is_within (resolve cwd rootArgs) (resolve cwd [resolve cwd rootArgs; p]) = true.
Proof.
  intros Hcwd Hne Hrel Hdots.
  destruct (resolve_shape_plain cwd rootArgs Hcwd) as (rs & Hrs & ->).
  pose proof (plain_is_clean rs Hrs) as Hclean.
  unfold is_within. rewrite (segments_join rs Hclean).
  destruct rs as [|r rs']; [done |].
  set (root := "/" +:+ join "/" (r :: rs')).
  assert (Hresolved : resolve cwd [root; p] =
            "/" +:+ join "/" (normalize_segments false
                               (split_on "/" (root +:+ "/" +:+ p +:+ "/")) [])).
  { unfold resolve. cbn [rev app resolve_loop]. rewrite Hne, Hrel.
    subst root. reflexivity. }
  rewrite Hresolved. clear Hresolved.
  assert (Hclean' : Forall (fun w => clean_segment w = true)
            (normalize_segments false
               (split_on "/" (root +:+ "/" +:+ p +:+ "/")) [])).
  { apply normalize_segments_clean; [apply split_on_no_sep | constructor]. }
  rewrite (segments_join _ Hclean').
  subst root.
  change (("/" +:+ join "/" (r :: rs')) +:+ "/" +:+ p +:+ "/")
    with (String "/" (join "/" (r :: rs') +:+ String "/" (p +:+ "/"))).
  rewrite split_on_cons_sep, (split_on_join (r :: rs') _ Hclean).
  cbn [normalize_segments is_empty orb].
  rewrite (normalize_segments_push false (r :: rs') _ [] Hrs).
  destruct (normalize_segments_grows false (split_on "/" (p +:+ "/"))
              (rev (r :: rs') ++ []) (no_parent_segment p Hdots)) as [extra ->].
  rewrite app_nil_r, rev_involutive. apply segments_prefix_app_r.
Qed.

Lemma join_clean_relative segs :
  Forall (fun w => clean_segment w = true) segs ->
  is_absolute (join "/" segs) = false.
Proof.
  intros Hsegs. destruct Hsegs as [|w ws Hw _]; [done |].
  unfold clean_segment in Hw. destruct w as [|c w]; [done |].
  simpl in Hw. apply andb_true_iff in Hw as [Hc _]. apply negb_true_iff in Hc.
  destruct ws; exact Hc.
Qed.

(** [normalize] never returns the empty string and keeps a relative path
    relative. *)
Lemma normalize_relative p :
  is_absolute p = false ->
  is_empty (normalize p) = false /\ is_absolute (normalize p) = false.
Proof.
  intros Hrel. unfold normalize. destruct (is_empty p); [done |].
  rewrite Hrel. simpl negb. cbv iota.
  assert (Hclean : Forall (fun w => clean_segment w = true)
            (normalize_segments true (split_on "/" p) [])).
  { apply normalize_segments_clean; [apply split_on_no_sep | constructor]. }
  apply join_clean_relative in Hclean. fold (normalizeString p true) in Hclean.
  destruct (normalizeString p true) as [|c body] eqn:Hbody; simpl.
  - by destruct (has_trailing_slash p).
  - destruct (has_trailing_slash p); [rewrite str_app_cons |]; done.
Qed.

End PathFacts.

(** ** Input validators *)

Section ValidatorFacts.
Import JS Validators Flash.

Variables (cwd dirname : string).
Variable statSync : string -> Stat.
Variable child : nat -> list string -> list ChildEvent.

Lemma FQBN_PATTERN_needs_three s :
  (String.length s < 3)%nat -> FQBN_PATTERN s = false.
Proof.
  intros Hlen. unfold FQBN_PATTERN, test_class_repeat.
  destruct (Nat.leb_spec 3 (String.length s)); [lia |].
  by rewrite andb_false_r.
Qed.

Lemma truthy_nonempty s : (1 <= String.length s)%nat -> truthy (JStr s) = true.
Proof. destruct s; simpl; [lia | done]. Qed.

(** C9. An absent or empty board identifier is valid.  A board identifier of
    one or two characters is not, whatever its characters, although the
    rule of the specification accepts it when its characters are in the
    class; the flash handler then answers 400 [Invalid FQBN value] without
    spawning a process. *)
Theorem isValidFqbn_rejects_short (s : string) (req : FlashBody)
    (log : list Invocation) :
  (1 <= String.length s <= 2)%nat ->
  isValidFqbn JUndefined = true
  /\ isValidFqbn JNull = true
  /\ isValidFqbn (JStr "") = true
  /\ isValidFqbn (JStr s) = false
  /\ spec_board_identifier_ok s = str_forallb fqbn_char s
  /\ (fqbn req = JStr s ->
      truthy (sketchPath req) = true ->
      truthy (port req) = true ->
      isValidSerialPort (port req) = true ->
      flash_handler cwd dirname statSync child req log =
        (Some {| status := 400; body := ErrorBody "Invalid FQBN value" |}, log)).
Proof.
  intros Hlen.
  assert (Hshort : isValidFqbn (JStr s) = false).
  { unfold isValidFqbn. rewrite truthy_nonempty by lia. simpl.
    rewrite FQBN_PATTERN_needs_three by lia. apply andb_false_r. }
  repeat split; try done.
  - unfold spec_board_identifier_ok.
    destruct (Nat.leb_spec (String.length s) 120); [done | lia].
  - intros Hfqbn Hsketch Hport Hvalid.
    unfold flash_handler, validate.
    by rewrite Hsketch, Hport, Hvalid, Hfqbn, Hshort.
Qed.

(** C10, amended. [sanitizePath] returns [null] for every value that is not
    a string, for every string that is empty once trimmed, and for every
    string whose normalized form has [..] as a substring, inside a file name
    as well: [my..sketch.ino] has no [..] segment and is refused.  The
    handler calls it for a truthy [sketchPath] only, after [port] and [fqbn]
    have passed their checks, and then answers a [null] with 400 [Invalid
    sketch path]; a falsy [sketchPath] is answered with 400 [Missing
    sketchPath or port] before. *)
Theorem sanitizePath_null_cases :
  (forall v, is_string v = false -> sanitizePath v = None)
  /\ (forall s, is_empty (trim (backslashes_to_slashes s)) = true ->
        sanitizePath (JStr s) = None)
  /\ (forall s,
        includes (NodePath.normalize (trim (backslashes_to_slashes s))) ".." = true ->
        sanitizePath (JStr s) = None)
  /\ (sanitizePath (JStr "my..sketch.ino") = None
      /\ NodePath.normalize "my..sketch.ino" = "my..sketch.ino"
      /\ ~ In ".." (split_on "/" "my..sketch.ino"))
  /\ (forall (req : FlashBody) (log : list Invocation),
        truthy (sketchPath req) = true ->
        truthy (port req) = true ->
        isValidSerialPort (port req) = true ->
        isValidFqbn (fqbn req) = true ->
        sanitizePath (sketchPath req) = None ->
        flash_handler cwd dirname statSync child req log =
          (Some {| status := 400; body := ErrorBody "Invalid sketch path" |}, log))
  /\ (forall (req : FlashBody) (log : list Invocation),
        truthy (sketchPath req) = false ->
        flash_handler cwd dirname statSync child req log =
          (Some {| status := 400; body := ErrorBody "Missing sketchPath or port" |},
           log)).
Proof.
  split; [| split; [| split; [| split; [| split]]]].
  - intros [] Hv; simpl in *; done.
  - intros s Hs. unfold sanitizePath. by rewrite Hs.
  - intros s Hs. unfold sanitizePath.
    destruct (is_empty (trim (backslashes_to_slashes s))); [done |].
    by rewrite Hs.
  - split; [reflexivity |]. split; [reflexivity |].
    simpl. intros [H | []]. discriminate H.
  - intros req log Hsketch Hport Hvalid Hfqbn Hnull.
    unfold flash_handler, validate.
    by rewrite Hsketch, Hport, Hvalid, Hfqbn, Hnull.
  - intros req log Hsketch. unfold flash_handler, validate.
    by rewrite Hsketch.
Qed.

End ValidatorFacts.

Lemma isValidFqbn_rejects_short_witness :
  Flash.flash_handler "/srv/app/backend" "/srv/app/backend"
      (fun _ => Flash.StatThrows) (fun _ _ => [])
      {| Flash.sketchPath := JS.JStr "sketches/blink.ino";
         Flash.port := JS.JStr "COM3";
         Flash.fqbn := JS.JStr "ab" |} [] =
    (Some {| Flash.status := 400; Flash.body := Flash.ErrorBody "Invalid FQBN value" |}, []).
Proof.
  refine (proj2 (proj2 (proj2 (proj2 (proj2
    (isValidFqbn_rejects_short "/srv/app/backend" "/srv/app/backend"
       (fun _ => Flash.StatThrows) (fun _ _ => []) "ab"
       {| Flash.sketchPath := JS.JStr "sketches/blink.ino";
          Flash.port := JS.JStr "COM3";
          Flash.fqbn := JS.JStr "ab" |} [] _))))) eq_refl eq_refl eq_refl eq_refl).
  simpl. lia.
Defined.

(** The claim of C10 as it is worded fails: for the empty string
    [sanitizePath] returns [null], yet the endpoint answers [Missing
    sketchPath or port], since it tests [!sketchPath] first. *)
Lemma empty_sketch_path_other_message :
  ~ (forall (cwd dirname : string) (statSync : string -> Flash.Stat)
            (child : nat -> list string -> list Runner.ChildEvent)
            (req : Flash.FlashBody) (log : list Flash.Invocation),
       JS.truthy (Flash.port req) = true ->
       Validators.isValidSerialPort (Flash.port req) = true ->
       Validators.isValidFqbn (Flash.fqbn req) = true ->
       Validators.sanitizePath (Flash.sketchPath req) = None ->
       Flash.flash_handler cwd dirname statSync child req log =
         (Some {| Flash.status := 400;
                  Flash.body := Flash.ErrorBody "Invalid sketch path" |}, log)).
Proof.
  intros H.
  specialize (H Scenario.cwd Scenario.dirname Scenario.disk Scenario.all_succeed
                {| Flash.sketchPath := JS.JStr ""; Flash.port := JS.JStr "COM3";
                   Flash.fqbn := JS.JUndefined |} []
                eq_refl eq_refl eq_refl eq_refl).
  vm_compute in H. discriminate H.
Qed.

Lemma sanitizePath_null_cases_witness :
  Flash.flash_handler "/srv/app/backend" "/srv/app/backend"
      (fun _ => Flash.StatThrows) (fun _ _ => [])
      {| Flash.sketchPath := JS.JStr "my..sketch.ino";
         Flash.port := JS.JStr "COM3";
         Flash.fqbn := JS.JUndefined |} [] =
    (Some {| Flash.status := 400; Flash.body := Flash.ErrorBody "Invalid sketch path" |}, []).
Proof.
  exact (proj1 (proj2 (proj2 (proj2 (proj2
    (sanitizePath_null_cases "/srv/app/backend" "/srv/app/backend"
       (fun _ => Flash.StatThrows) (fun _ _ => []))))))
    {| Flash.sketchPath := JS.JStr "my..sketch.ino";
       Flash.port := JS.JStr "COM3";
       Flash.fqbn := JS.JUndefined |} [] eq_refl eq_refl eq_refl eq_refl eq_refl).
Defined.

(** ** Flash workflow *)

Section FlashFacts.
Import JS Validators Flash.

Variables (cwd dirname : string).
Variable statSync : string -> Stat.
Variable child : nat -> list string -> list ChildEvent.
Variable jwt_verify : string -> Auth.JwtError + Auth.Identity.

Local Abbreviation validate := (Flash.validate cwd dirname statSync).
Local Abbreviation PROJECT_ROOT := (Flash.PROJECT_ROOT cwd dirname).

(** Every response of the validation phase is a 400. *)
Lemma validate_failure_is_400 req res : validate req = inl res -> status res = 400.
Proof.
  unfold Flash.validate.
  repeat match goal with
         | |- context [if ?b then _ else _] => destruct b
         | |- context [match ?x with _ => _ end] => destruct x
         end; intros [= <-]; reflexivity.
Qed.

Section Checked.
(** A request that passes the checks made before the path is looked at. *)
Variable req : FlashBody.
Hypothesis Hsketch : truthy (sketchPath req) = true.
Hypothesis Hport : truthy (port req) = true.
Hypothesis Hvalid : isValidSerialPort (port req) = true.
Hypothesis Hfqbn : isValidFqbn (fqbn req) = true.

Lemma validate_traversal_rejected :
  sketchPath req = JStr "../../etc/passwd" ->
  validate req = inl (bad_request "Invalid sketch path").
Proof.
  intros Hpath. unfold Flash.validate.
  rewrite Hsketch, Hport, Hvalid, Hfqbn. by rewrite Hpath.
Qed.

Lemma validate_prefix_check sanitizedPath :
  sanitizePath (sketchPath req) = Some sanitizedPath ->
  startsWith (NodePath.resolve cwd [PROJECT_ROOT; sanitizedPath]) PROJECT_ROOT = false ->
  validate req = inl (bad_request "Sketch path must stay within project workspace").
Proof.
  intros Hsan Hprefix. unfold Flash.validate.
  by rewrite Hsketch, Hport, Hvalid, Hfqbn, Hsan, Hprefix.
Qed.

Lemma validate_missing_file sanitizedPath :
  sanitizePath (sketchPath req) = Some sanitizedPath ->
  statSync (NodePath.resolve cwd [PROJECT_ROOT; sanitizedPath]) = StatThrows ->
  exists res, validate req = inl res /\ status res = 400.
Proof.
  intros Hsan Hstat.
  destruct (validate req) as [res|resolved] eqn:Hv.
  - exists res. split; [done |]. by apply validate_failure_is_400 in Hv.
  - exfalso. revert Hv. unfold Flash.validate.
    rewrite Hsketch, Hport, Hvalid, Hfqbn, Hsan, Hstat. simpl.
    repeat match goal with
           | |- context [if ?b then _ else _] => destruct b
           end; discriminate.
Qed.

Lemma validate_accepts sanitizedPath :
  sanitizePath (sketchPath req) = Some sanitizedPath ->
  let resolvedSketch := NodePath.resolve cwd [PROJECT_ROOT; sanitizedPath] in
  startsWith resolvedSketch PROJECT_ROOT = true ->
  In (toLowerCase (NodePath.extname resolvedSketch)) ALLOWED_SKETCH_EXTENSIONS ->
  statSync resolvedSketch = StatIsFile true ->
  validate req = inr resolvedSketch.
Proof.
  intros Hsan resolvedSketch Hprefix Hext Hstat.
  assert (Hallowed :
            existsb (String.eqb (toLowerCase (NodePath.extname resolvedSketch)))
              ALLOWED_SKETCH_EXTENSIONS = true).
  { apply existsb_exists. eexists. split; [exact Hext |]. apply String.eqb_refl. }
  unfold Flash.validate.
  rewrite Hsketch, Hport, Hvalid, Hfqbn, Hsan.
  fold resolvedSketch. by rewrite Hprefix, Hallowed, Hstat.
Qed.

End Checked.

(** What acceptance by the validation phase guarantees. *)
Lemma validate_accepted req resolvedSketch :
  validate req = inr resolvedSketch ->
  exists sanitizedPath,
    sanitizePath (sketchPath req) = Some sanitizedPath
    /\ resolvedSketch = NodePath.resolve cwd [PROJECT_ROOT; sanitizedPath]
    /\ startsWith resolvedSketch PROJECT_ROOT = true
    /\ In (toLowerCase (NodePath.extname resolvedSketch)) ALLOWED_SKETCH_EXTENSIONS
    /\ statSync resolvedSketch = StatIsFile true.
Proof.
  unfold Flash.validate.
  destruct (negb (truthy (sketchPath req)) || negb (truthy (port req)));
    [discriminate |].
  destruct (negb (isValidSerialPort (port req))); [discriminate |].
  destruct (negb (isValidFqbn (fqbn req))); [discriminate |].
  destruct (sanitizePath (sketchPath req)) as [sanitizedPath|]; [| discriminate].
  set (resolved := NodePath.resolve cwd [PROJECT_ROOT; sanitizedPath]).
  destruct (startsWith resolved PROJECT_ROOT) eqn:Hprefix; [| discriminate].
  cbn [negb].
  destruct (existsb (String.eqb (toLowerCase (NodePath.extname resolved)))
              ALLOWED_SKETCH_EXTENSIONS) eqn:Hext; [| discriminate].
  cbn [negb].
  destruct (statSync resolved) as [|[]] eqn:Hstat; try discriminate.
  intros [= <-]. exists sanitizedPath. repeat split; try done.
  apply existsb_exists in Hext as (ext & Hin & Heq).
  apply String.eqb_eq in Heq. by subst ext.
Qed.

(** An accepted sketch given by a relative path lies inside the project
    root.  For an absolute input, acceptance only guarantees the string
    prefix of [validate_accepted]. *)
Theorem accepted_relative_sketch_is_inside req s resolvedSketch :
  NodePath.is_absolute cwd = true ->
  sketchPath req = JStr s ->
  NodePath.is_absolute (trim (backslashes_to_slashes s)) = false ->
  validate req = inr resolvedSketch ->
  NodePath.is_within PROJECT_ROOT resolvedSketch = true.
Proof.
  intros Hcwd Hs Hrel Hok.
  destruct (validate_accepted req resolvedSketch Hok)
    as (sanitizedPath & Hsan & -> & _).
  rewrite Hs in Hsan. unfold sanitizePath in Hsan.
  destruct (is_empty (trim (backslashes_to_slashes s))); [discriminate |].
  destruct (includes (NodePath.normalize (trim (backslashes_to_slashes s))) "..")
    eqn:Hdots; [discriminate |].
  injection Hsan as <-.
  destruct (normalize_relative _ Hrel) as [Hne Hrel'].
  by apply resolve_relative_inside.
Qed.

(** C2, amended. For a request that reaches the path checks: an input for
    which [sanitizePath] returns [null], as it does for [../../etc/passwd]
    and for every input whose normalized form keeps a [..] segment, is
    answered with 400; so is one whose resolved path does not have
    [PROJECT_ROOT] as a string prefix, and one whose file does not exist.  A
    sanitized path that resolves inside the root, with an extension of the
    allow-list and naming an existing regular file, passes validation. *)
Theorem sketch_path_validation (req : FlashBody) :
  NodePath.is_absolute cwd = true ->
  truthy (sketchPath req) = true ->
  truthy (port req) = true ->
  isValidSerialPort (port req) = true ->
  isValidFqbn (fqbn req) = true ->
  (sketchPath req = JStr "../../etc/passwd" ->
     validate req = inl (bad_request "Invalid sketch path"))
  /\ (forall s, sketchPath req = JStr s ->
        In ".." (split_on "/"
                   (NodePath.normalize (trim (backslashes_to_slashes s)))) ->
        validate req = inl (bad_request "Invalid sketch path"))
  /\ (sanitizePath (sketchPath req) = None ->
        validate req = inl (bad_request "Invalid sketch path"))
  /\ (forall sanitizedPath,
        sanitizePath (sketchPath req) = Some sanitizedPath ->
        let resolvedSketch := NodePath.resolve cwd [PROJECT_ROOT; sanitizedPath] in
        (startsWith resolvedSketch PROJECT_ROOT = false ->
           validate req =
             inl (bad_request "Sketch path must stay within project workspace"))
        /\ (NodePath.is_within PROJECT_ROOT resolvedSketch = true ->
            In (toLowerCase (NodePath.extname resolvedSketch))
               ALLOWED_SKETCH_EXTENSIONS ->
            statSync resolvedSketch = StatIsFile true ->
            validate req = inr resolvedSketch)
        /\ (statSync resolvedSketch = StatThrows ->
            exists res, validate req = inl res /\ status res = 400)).
Proof.
  intros Hcwd Hsketch Hport Hvalid Hfqbn.
  assert (Hnull : sanitizePath (sketchPath req) = None ->
            validate req = inl (bad_request "Invalid sketch path")).
  { intros Hnull. unfold Flash.validate.
    by rewrite Hsketch, Hport, Hvalid, Hfqbn, Hnull. }
  split; [by apply validate_traversal_rejected |].
  split.
  { intros s Hs Hsegment. apply Hnull. rewrite Hs. unfold sanitizePath.
    destruct (is_empty (trim (backslashes_to_slashes s))); [done |].
    by rewrite (split_on_piece_included "/" _ ".." Hsegment). }
  split; [done |].
  intros sanitizedPath Hsan resolvedSketch.
  split; [by apply validate_prefix_check |].
  split; [| by apply validate_missing_file].
  intros Hwithin Hext Hstat.
  apply (validate_accepts req Hsketch Hport Hvalid Hfqbn sanitizedPath Hsan);
    [| done | done].
  by apply within_implies_prefix.
Qed.

Lemma spawned_since_app (log trace : list Invocation) :
  spawned_since log (log ++ trace) = trace.
Proof. unfold spawned_since. apply drop_app_length. Qed.

Lemma spawned_since_app2 (log : list Invocation) a b :
  spawned_since log ((log ++ [a]) ++ [b]) = [a; b].
Proof. rewrite <- app_assoc. apply spawned_since_app. Qed.

Lemma spawned_since_app3 (log : list Invocation) a b c :
  spawned_since log (((log ++ [a]) ++ [b]) ++ [c]) = [a; b; c].
Proof. rewrite <- !app_assoc. apply spawned_since_app. Qed.

Lemma spawned_since_nil (log : list Invocation) : spawned_since log log = [].
Proof. unfold spawned_since. apply drop_all. Qed.

(** Case analysis on the position of an entry in an explicit trace. *)
Ltac entry_of H :=
  cbn in H; try discriminate H;
  match type of H with
  | _ !! ?i = Some _ =>
      repeat (destruct i as [|i];
              [ cbn in H; injection H as <- | cbn in H; try discriminate H ])
  end.

(** C1. In the processes one request to [POST /api/flash] spawns, an
    [upload] invocation only comes after a [compile] invocation of the same
    request whose promise resolved; and when the promise of the [compile]
    invocation rejects, the request spawns no [upload] and is answered with
    status 500. *)
Theorem upload_only_after_compile_success (authorization : option string)
    (req : FlashBody) (log : list Invocation) :
  let result :=
    post_api_flash cwd dirname statSync child jwt_verify authorization req log in
  let trace := spawned_since log result.2 in
  result.2 = log ++ trace
  /\ (forall i up, trace !! i = Some up -> is_cmd "upload" up = true ->
        exists j c, (j < i)%nat /\ trace !! j = Some c
          /\ is_cmd "compile" c = true /\ inv_outcome c = DidResolve)
  /\ (forall j c, trace !! j = Some c -> is_cmd "compile" c = true ->
        inv_outcome c = DidReject ->
        (forall i up, trace !! i = Some up -> is_cmd "upload" up = false)
        /\ exists res, result.1 = Some res /\ status res = 500).
Proof.
  intros result trace. subst trace result.
  unfold post_api_flash.
  destruct (Auth.authMiddleware jwt_verify authorization) as [refused|user].
  { simpl. rewrite spawned_since_nil, app_nil_r.
    split; [done |]. split; intros i x Hi; entry_of Hi. }
  unfold flash_handler.
  destruct (Flash.validate cwd dirname statSync req) as [res|resolvedSketch].
  { simpl. rewrite spawned_since_nil, app_nil_r.
    split; [done |]. split; intros i x Hi; entry_of Hi. }
  unfold execute, spawn_probe, spawn_cli.
  destruct (probe _) as [|[]|[]]; cbn [fst snd outcome_of];
    rewrite ?spawned_since_app;
    try (split; [done |];
         split; intros i x Hi Hcmd; entry_of Hi; discriminate Hcmd).
  destruct (spawnCliAndStream _ _) as [|compiled|err]; cbn [fst snd outcome_of];
    rewrite ?spawned_since_app2.
  - split; [by rewrite <- app_assoc |].
    split; intros i x Hi Hcmd; entry_of Hi; try discriminate Hcmd.
    intros Hrej. discriminate Hrej.
  - destruct (spawnCliAndStream _ _) as [|uploaded|err]; cbn [fst snd outcome_of];
      rewrite ?spawned_since_app3;
      (split; [by rewrite <- !app_assoc |];
       split; intros i x Hi Hcmd; entry_of Hi; try discriminate Hcmd;
       [ exists 1%nat; eexists; repeat split; [lia | reflexivity ..]
       | intros Hrej; discriminate Hrej ]).
  - split; [by rewrite <- app_assoc |].
    split; intros i x Hi Hcmd; entry_of Hi; try discriminate Hcmd.
    intros _. split; [| by eexists].
    intros k up Hk. entry_of Hk; reflexivity.
Qed.

End FlashFacts.

Lemma upload_only_after_compile_success_witness :
  let result :=
    Flash.post_api_flash Scenario.cwd Scenario.dirname Scenario.disk
      Scenario.compile_fails Scenario.jwt (Some "Bearer signed-by-us")
      Scenario.blink [] in
  (forall i up, Flash.spawned_since [] result.2 !! i = Some up ->
                Flash.is_cmd "upload" up = false)
  /\ exists res, result.1 = Some res /\ Flash.status res = 500.
Proof.
  destruct (upload_only_after_compile_success Scenario.cwd Scenario.dirname
              Scenario.disk Scenario.compile_fails Scenario.jwt
              (Some "Bearer signed-by-us") Scenario.blink []) as (_ & _ & H).
  apply (H 1%nat
           {| Flash.inv_args := ["compile"; "/srv/app/sketches/blink.ino";
                                 "--fqbn"; "esp32:esp32:esp32"];
              Flash.inv_outcome := Flash.DidReject |});
    reflexivity.
Defined.

(** ** Sketch-path containment *)

(** The claim of C2 as it is worded fails: a sketch inside the project root,
    with an extension of the allow-list and naming an existing regular
    file, does not pass validation when its name contains two dots in a
    row. *)
Lemma sketch_inside_root_refused :
  ~ (forall (cwd dirname : string) (statSync : string -> Flash.Stat)
            (req : Flash.FlashBody) (s : string),
       NodePath.is_absolute cwd = true ->
       JS.truthy (Flash.port req) = true ->
       Validators.isValidSerialPort (Flash.port req) = true ->
       Validators.isValidFqbn (Flash.fqbn req) = true ->
       Flash.sketchPath req = JS.JStr s ->
       let root := Flash.PROJECT_ROOT cwd dirname in
       let resolvedSketch := NodePath.resolve cwd [root; s] in
       NodePath.is_within root resolvedSketch = true ->
       In (JS.toLowerCase (NodePath.extname resolvedSketch))
          Validators.ALLOWED_SKETCH_EXTENSIONS ->
       statSync resolvedSketch = Flash.StatIsFile true ->
       exists accepted, Flash.validate cwd dirname statSync req = inr accepted).
Proof.
  intros H.
  destruct (H Scenario.cwd Scenario.dirname Scenario.disk Scenario.dotted
              "sketches/my..sketch.ino" eq_refl eq_refl eq_refl eq_refl eq_refl
              eq_refl (or_introl eq_refl) eq_refl) as [accepted Haccepted].
  vm_compute in Haccepted. discriminate Haccepted.
Qed.

Lemma sketch_path_validation_witness :
  Flash.validate Scenario.cwd Scenario.dirname Scenario.disk Scenario.blink
  = inr "/srv/app/sketches/blink.ino".
Proof.
  destruct (sketch_path_validation Scenario.cwd Scenario.dirname Scenario.disk
              Scenario.blink eq_refl eq_refl eq_refl eq_refl eq_refl)
    as (_ & _ & _ & H).
  destruct (H "sketches/blink.ino" eq_refl) as (_ & Haccept & _).
  exact (Haccept eq_refl (or_introl eq_refl) eq_refl).
Defined.

(** The prefix test compares strings, not segments. With the project root
    [/srv/app], the path [/srv/app-evil/x.ino] lies outside the root, yet it
    passes every check of the handler and the file is compiled and
    uploaded. *)
Theorem flash_accepts_sibling_of_root :
  Flash.PROJECT_ROOT Scenario.cwd Scenario.dirname = "/srv/app"
  /\ NodePath.is_within "/srv/app" "/srv/app-evil/x.ino" = false
  /\ Validators.sanitizePath (JS.JStr "/srv/app-evil/x.ino")
       = Some "/srv/app-evil/x.ino"
  /\ Flash.validate Scenario.cwd Scenario.dirname Scenario.disk Scenario.sibling
       = inr "/srv/app-evil/x.ino"
  /\ Flash.flash_handler Scenario.cwd Scenario.dirname Scenario.disk
       Scenario.all_succeed Scenario.sibling []
     = (Some {| Flash.status := 200; Flash.body := Flash.OkBody "Upload complete" |},
        [ {| Flash.inv_args := ["version"];
             Flash.inv_outcome := Flash.DidResolve |};
          {| Flash.inv_args := ["compile"; "/srv/app-evil/x.ino"];
             Flash.inv_outcome := Flash.DidResolve |};
          {| Flash.inv_args := ["upload"; "/srv/app-evil/x.ino"; "--port"; "COM3"];
             Flash.inv_outcome := Flash.DidResolve |} ]).
Proof. vm_compute. repeat split. Qed.

(** Single requests in the same deployment. *)
Example traversal_is_rejected :
  Flash.validate Scenario.cwd Scenario.dirname Scenario.disk
    {| Flash.sketchPath := JS.JStr "../../etc/passwd";
       Flash.port := JS.JStr "COM3"; Flash.fqbn := JS.JUndefined |}
  = inl (Flash.bad_request "Invalid sketch path").
Proof. reflexivity. Qed.

Example absolute_path_outside_is_rejected :
  Flash.validate Scenario.cwd Scenario.dirname Scenario.disk
    {| Flash.sketchPath := JS.JStr "/etc/passwd.ino";
       Flash.port := JS.JStr "COM3"; Flash.fqbn := JS.JUndefined |}
  = inl (Flash.bad_request "Sketch path must stay within project workspace").
Proof. reflexivity. Qed.

Example sketch_inside_root_is_accepted :
  Flash.validate Scenario.cwd Scenario.dirname Scenario.disk Scenario.blink
  = inr "/srv/app/sketches/blink.ino"
  /\ NodePath.is_within "/srv/app" "/srv/app/sketches/blink.ino" = true.
Proof. split; reflexivity. Qed.

Example missing_sketch_is_rejected :
  Flash.validate Scenario.cwd Scenario.dirname Scenario.disk
    {| Flash.sketchPath := JS.JStr "sketches/absent.ino";
       Flash.port := JS.JStr "COM3"; Flash.fqbn := JS.JUndefined |}
  = inl (Flash.bad_request "Sketch file not found").
Proof. reflexivity. Qed.

Example flash_succeeds :
  (Flash.post_api_flash Scenario.cwd Scenario.dirname Scenario.disk
     Scenario.all_succeed Scenario.jwt (Some "Bearer signed-by-us")
     Scenario.blink []).1
  = Some {| Flash.status := 200; Flash.body := Flash.OkBody "Upload complete" |}.
Proof. reflexivity. Qed.

(** ** Checks of the platform model *)

Example normalize_examples :
  map NodePath.normalize
    ["../../etc/passwd"; "a/./b//../c/"; "/a/../../b"; "a/.."; "./"; "/..";
     "my..sketch.ino"; "a/b/../../../c"]
  = ["../../etc/passwd"; "a/c/"; "/b"; "."; "./"; "/";
     "my..sketch.ino"; "../c"].
Proof. reflexivity. Qed.

Example resolve_examples :
  map (NodePath.resolve "/cwd")
    [["/srv/app/backend"; ".."]; ["/srv/app"; "sketches/blink.ino"];
     ["/srv/app"; "/etc/passwd"]; ["rel"; "x"]; ["/srv/app"; "./"]]
  = ["/srv/app"; "/srv/app/sketches/blink.ino"; "/etc/passwd"; "/cwd/rel/x";
     "/srv/app"].
Proof. reflexivity. Qed.

Example extname_examples :
  map NodePath.extname
    ["/a/b.INO"; "/a/.bashrc"; "a/b."; "x/.."; "index.coffee.md"; "/a.b/c";
     "/a/b.ino/"; ".x.bin"]
  = [".INO"; ""; "."; ""; ".md"; ""; ".ino"; ".bin"].
Proof. reflexivity. Qed.

Example string_examples :
  JS.trim "  a b  " = "a b"
  /\ JS.split_on " " "Bearer  tok" = ["Bearer"; ""; "tok"]
  /\ JS.show_Z 137 = "137"
  /\ JS.toLowerCase ".InO" = ".ino"
  /\ JS.includes "my..sketch.ino" ".." = true
  /\ JS.ceil_div 1 1000 = 1 /\ JS.ceil_div 0 1000 = 0 /\ JS.ceil_div 1001 1000 = 2.
Proof. repeat split; reflexivity. Qed.

(** At the very end of the window the record still counts and the hint is
    zero seconds. *)
Example retry_hint_at_window_end :
  (RateLimit.rateLimit "login:10.0.0.7" 900000
     {[ "login:10.0.0.7" := {| RateLimit.windowStart := 0; RateLimit.count := 10 |} ]}).1
  = RateLimit.Denied 0.
Proof.
  rewrite (rateLimit_denies _ _ _ {| RateLimit.windowStart := 0; RateLimit.count := 10 |});
    [reflexivity | apply lookup_singleton_eq | done | done].
Qed.

Example sliding_tail :
  Runner.output
    (Runner.run (Runner.effective_maxBuffer
                   {| Runner.timeoutMs := None; Runner.maxBuffer := Some 3 |})
       [Runner.Data "hello"; Runner.KillTimer; Runner.Data "wo"] Runner.spawned)
  = "owo".
Proof. reflexivity. Qed.

(** * Further properties of the code *)

(** ** Sliding-window counter: sweep, isolation, bounds *)

Section RateLimitMore.
Import RateLimit.

Lemma sweep_lookup now (store : gmap string RateWindow) key :
  sweep now store !! key =
    match store !! key with
    | Some r => if now - windowStart r >? RATE_LIMIT_WINDOW_MS then None else Some r
    | None => None
    end.
Proof.
  unfold sweep. destruct (store !! key) as [r|] eqn:Hr.
  - destruct (Z.gtb_spec (now - windowStart r) RATE_LIMIT_WINDOW_MS) as [Hexp|Hlive].
    + apply map_lookup_filter_None. right. intros r' Hr'. simpl.
      rewrite Hr in Hr'. injection Hr' as <-.
      destruct (Z.gtb_spec (now - windowStart r) RATE_LIMIT_WINDOW_MS); [| lia].
      simpl. discriminate.
    + apply map_lookup_filter_Some. split; [done |]. simpl.
      by destruct (Z.gtb_spec (now - windowStart r) RATE_LIMIT_WINDOW_MS); [lia |].
  - apply map_lookup_filter_None. by left.
Qed.

(** X1. The periodic sweep deletes exactly the records whose window has
    run out, and a caller cannot tell whether it ran: a later [rateLimit]
    call returns the same result and leaves the same record for its key. *)
Theorem sweep_is_unobservable key (swept_at now : Z)
    (store : gmap string RateWindow) :
  swept_at <= now ->
  (forall k r, sweep swept_at store !! k = Some r <->
               store !! k = Some r /\ swept_at - windowStart r <= RATE_LIMIT_WINDOW_MS)
  /\ (rateLimit key now (sweep swept_at store)).1 = (rateLimit key now store).1
  /\ (rateLimit key now (sweep swept_at store)).2 !! key
       = (rateLimit key now store).2 !! key.
Proof.
  intros Hclock. split.
  { intros k r. rewrite sweep_lookup. destruct (store !! k) as [r0|]; [| split; [done | by intros [? _]]].
    destruct (Z.gtb_spec (swept_at - windowStart r0) RATE_LIMIT_WINDOW_MS).
    - split; [done |]. intros [[= ->] ?]. lia.
    - split; [intros [= ->]; done | by intros [? _]]. }
  unfold rateLimit. rewrite sweep_lookup.
  destruct (store !! key) as [r|] eqn:Hr.
  2:{ cbn [fst snd]. by rewrite !lookup_insert_eq. }
  destruct (Z.gtb_spec (swept_at - windowStart r) RATE_LIMIT_WINDOW_MS) as [Hexp|Hlive].
  - destruct (Z.gtb_spec (now - windowStart r) RATE_LIMIT_WINDOW_MS); [| lia].
    cbn [fst snd]. by rewrite !lookup_insert_eq.
  - destruct (now - windowStart r >? RATE_LIMIT_WINDOW_MS).
    { cbn [fst snd]. by rewrite !lookup_insert_eq. }
    destruct (count r >=? RATE_LIMIT_MAX_REQUESTS); cbn [fst snd].
    + split; [done |]. rewrite sweep_lookup, Hr.
      by destruct (Z.gtb_spec (swept_at - windowStart r) RATE_LIMIT_WINDOW_MS); [lia |].
    + by rewrite !lookup_insert_eq.
Qed.

Lemma rateLimit_other_key key k now (store : gmap string RateWindow) :
  key <> k -> (rateLimit key now store).2 !! k = store !! k.
Proof.
  intros Hne. unfold rateLimit.
  destruct (store !! key) as [r|]; [| by cbn; rewrite lookup_insert_ne].
  destruct (now - windowStart r >? RATE_LIMIT_WINDOW_MS);
    [by cbn; rewrite lookup_insert_ne |].
  destruct (count r >=? RATE_LIMIT_MAX_REQUESTS); [done |].
  by cbn; rewrite lookup_insert_ne.
Qed.

(** What a call returns and the record it leaves depend on the record of its
    own key only. *)
Lemma rateLimit_local key now (s1 s2 : gmap string RateWindow) :
  s1 !! key = s2 !! key ->
  (rateLimit key now s1).1 = (rateLimit key now s2).1
  /\ (rateLimit key now s1).2 !! key = (rateLimit key now s2).2 !! key.
Proof.
  intros Heq. unfold rateLimit. rewrite <- Heq.
  destruct (s1 !! key) as [r|] eqn:Hr; [| by cbn; rewrite !lookup_insert_eq].
  destruct (now - windowStart r >? RATE_LIMIT_WINDOW_MS);
    [by cbn; rewrite !lookup_insert_eq |].
  destruct (count r >=? RATE_LIMIT_MAX_REQUESTS); cbn.
  - split; [done |]. by rewrite <- Heq, Hr.
  - by rewrite !lookup_insert_eq.
Qed.

(** X2. Counters of different keys do not interfere: a call changes no
    record but that of its own key, and two calls for different keys give
    the same results and the same store in either order. *)
Theorem rateLimit_keys_independent k1 k2 (t1 t2 : Z)
    (store : gmap string RateWindow) :
  k1 <> k2 ->
  (forall k, k <> k1 -> (rateLimit k1 t1 store).2 !! k = store !! k)
  /\ (rateLimit k2 t2 (rateLimit k1 t1 store).2).1 = (rateLimit k2 t2 store).1
  /\ (rateLimit k1 t1 (rateLimit k2 t2 store).2).1 = (rateLimit k1 t1 store).1
  /\ (rateLimit k2 t2 (rateLimit k1 t1 store).2).2
       = (rateLimit k1 t1 (rateLimit k2 t2 store).2).2.
Proof.
  intros Hne.
  assert (H12 : (rateLimit k1 t1 store).2 !! k2 = store !! k2)
    by (by apply rateLimit_other_key).
  assert (H21 : (rateLimit k2 t2 store).2 !! k1 = store !! k1)
    by (by apply rateLimit_other_key).
  split; [intros k Hk; by apply rateLimit_other_key |].
  split; [apply (rateLimit_local k2 t2 _ _ H12) |].
  split; [apply (rateLimit_local k1 t1 _ _ H21) |].
  apply map_eq. intros k.
  destruct (decide (k = k2)) as [->|Hk2].
  - rewrite (proj2 (rateLimit_local k2 t2 _ _ H12)).
    by rewrite (rateLimit_other_key k1 k2).
  - rewrite (rateLimit_other_key k2 k) by done.
    destruct (decide (k = k1)) as [->|Hk1].
    + by rewrite (proj2 (rateLimit_local k1 t1 _ _ H21)).
    + rewrite !(rateLimit_other_key k1 k) by done.
      by rewrite (rateLimit_other_key k2 k).
Qed.

Lemma rateLimit_keys_independent_witness :
  (rateLimit "register:10.0.0.7" 7
     (rateLimit "login:10.0.0.7" 5 ∅).2).1 = (rateLimit "register:10.0.0.7" 7 ∅).1.
Proof.
  refine (proj1 (proj2 (rateLimit_keys_independent "login:10.0.0.7"
                          "register:10.0.0.7" 5 7 ∅ _))).
  discriminate.
Defined.

(** X3. Every record the counter stores has a count between 1 and
    [RATE_LIMIT_MAX_REQUESTS]: this holds in the empty store and is kept by
    [rateLimit] and by the sweep; in such a store an allowed call reports
    between 0 and [RATE_LIMIT_MAX_REQUESTS - 1] remaining calls. *)
Theorem rateLimit_count_bounds key now (store : gmap string RateWindow) :
  (forall k r, store !! k = Some r -> 1 <= count r <= RATE_LIMIT_MAX_REQUESTS) ->
  (forall k r, (rateLimit key now store).2 !! k = Some r ->
               1 <= count r <= RATE_LIMIT_MAX_REQUESTS)
  /\ (forall k r, sweep now store !! k = Some r ->
                  1 <= count r <= RATE_LIMIT_MAX_REQUESTS)
  /\ (forall remaining, (rateLimit key now store).1 = Allowed remaining ->
                        0 <= remaining <= RATE_LIMIT_MAX_REQUESTS - 1).
Proof.
  intros Hinv. split; [| split].
  - intros k r. destruct (decide (key = k)) as [<-|Hne];
      [| rewrite rateLimit_other_key by done; apply Hinv].
    unfold rateLimit. destruct (store !! key) as [r0|] eqn:Hr0.
    + destruct (now - windowStart r0 >? RATE_LIMIT_WINDOW_MS).
      * cbn. rewrite lookup_insert_eq. intros [= <-]. cbn.
        unfold RATE_LIMIT_MAX_REQUESTS. lia.
      * destruct (Z.geb_spec (count r0) RATE_LIMIT_MAX_REQUESTS); cbn.
        -- rewrite Hr0. intros [= <-]. by eapply Hinv.
        -- rewrite lookup_insert_eq. intros [= <-]. cbn.
           specialize (Hinv _ _ Hr0). lia.
    + cbn. rewrite lookup_insert_eq. intros [= <-]. cbn.
      unfold RATE_LIMIT_MAX_REQUESTS. lia.
  - intros k r. rewrite sweep_lookup. destruct (store !! k) as [r0|] eqn:Hr0; [| done].
    destruct (now - windowStart r0 >? RATE_LIMIT_WINDOW_MS); [done |].
    intros [= <-]. by eapply Hinv.
  - intros remaining. unfold rateLimit.
    destruct (store !! key) as [r0|] eqn:Hr0.
    + destruct (now - windowStart r0 >? RATE_LIMIT_WINDOW_MS).
      * cbn. intros [= <-]. unfold RATE_LIMIT_MAX_REQUESTS. lia.
      * destruct (Z.geb_spec (count r0) RATE_LIMIT_MAX_REQUESTS); cbn; [done |].
        intros [= <-]. specialize (Hinv _ _ Hr0). lia.
    + cbn. intros [= <-]. unfold RATE_LIMIT_MAX_REQUESTS. lia.
Qed.

Lemma rateLimit_count_bounds_witness :
  0 <= 9 <= RATE_LIMIT_MAX_REQUESTS - 1.
Proof.
  refine (proj2 (proj2 (rateLimit_count_bounds "login:10.0.0.7" 5 ∅ _)) 9 _).
  - intros k r Hr. rewrite lookup_empty in Hr. discriminate Hr.
  - vm_compute. reflexivity.
Defined.

(** X4. A denied call changes nothing in the store, so it does not prolong
    the window; it is only ever given against a record that has reached the
    maximum, and with a clock that has not gone back behind the window
    start its hint lies between 0 and 900 seconds. *)
Theorem rateLimit_denial key now (store store' : gmap string RateWindow)
    (retryAfter : Z) :
  rateLimit key now store = (Denied retryAfter, store') ->
  store' = store
  /\ exists r, store !! key = Some r
       /\ RATE_LIMIT_MAX_REQUESTS <= count r
       /\ retryAfter =
            JS.ceil_div (RATE_LIMIT_WINDOW_MS - (now - windowStart r)) 1000
       /\ (windowStart r <= now -> 0 <= retryAfter <= 900).
Proof.
  unfold rateLimit. destruct (store !! key) as [r|] eqn:Hr; [| discriminate].
  destruct (Z.gtb_spec (now - windowStart r) RATE_LIMIT_WINDOW_MS) as [|Hlive];
    [discriminate |].
  destruct (Z.geb_spec (count r) RATE_LIMIT_MAX_REQUESTS) as [Hfull|];
    [| discriminate].
  intros [= <- <-]. split; [done |]. exists r.
  split; [done |]. split; [lia |]. split; [done |].
  intros Hclock. unfold JS.ceil_div, RATE_LIMIT_WINDOW_MS in *.
  assert ((- (15 * 60 * 1000 - (now - windowStart r))) / 1000 <= 0)
    by (apply Z.div_le_upper_bound; lia).
  assert (-900 <= (- (15 * 60 * 1000 - (now - windowStart r))) / 1000)
    by (apply Z.div_le_lower_bound; lia).
  lia.
Qed.

Lemma rateLimit_denial_witness :
  exists r, ({[ "login:10.0.0.7" := {| windowStart := 0; count := 10 |} ]}
               : gmap string RateWindow) !! "login:10.0.0.7" = Some r
       /\ RATE_LIMIT_MAX_REQUESTS <= count r
       /\ JS.ceil_div (RATE_LIMIT_WINDOW_MS - (1500 - 0)) 1000 =
            JS.ceil_div (RATE_LIMIT_WINDOW_MS - (1500 - windowStart r)) 1000
       /\ (windowStart r <= 1500 ->
           0 <= JS.ceil_div (RATE_LIMIT_WINDOW_MS - (1500 - 0)) 1000 <= 900).
Proof.
  refine (proj2 (rateLimit_denial "login:10.0.0.7" 1500
            {[ "login:10.0.0.7" := {| windowStart := 0; count := 10 |} ]}
            {[ "login:10.0.0.7" := {| windowStart := 0; count := 10 |} ]}
            (JS.ceil_div (RATE_LIMIT_WINDOW_MS - (1500 - 0)) 1000) _)).
  apply (rateLimit_denies _ _ _ {| windowStart := 0; count := 10 |});
    [apply lookup_singleton_eq | done | done].
Defined.

End RateLimitMore.

(** ** Credential failure throttle: threshold, expiry, stored records *)

Section ThrottleMore.
Import Throttle.

Lemma recordCredentialFailure_bound key now (store : gmap string FailureRecord) n :
  0 <= n ->
  (forall r, store !! key = Some r -> failures r <= n) ->
  forall r, recordCredentialFailure key now store !! key = Some r ->
            failures r <= n + 1.
Proof.
  intros Hn Hb r. unfold recordCredentialFailure.
  destruct (no_key key); [intros Hr; specialize (Hb r Hr); lia |].
  destruct (store !! key) as [r0|] eqn:Hr0.
  - destruct (now - firstFailure r0 >? CREDENTIAL_WINDOW_MS);
      rewrite lookup_insert_eq; intros [= <-]; cbn; [lia |].
    specialize (Hb r0 eq_refl). lia.
  - rewrite lookup_insert_eq. intros [= <-]. cbn. lia.
Qed.

Lemma recordFailures_bound key ts : forall (store : gmap string FailureRecord) n,
  0 <= n ->
  (forall r, store !! key = Some r -> failures r <= n) ->
  forall r, recordFailures key ts store !! key = Some r ->
            failures r <= n + Z.of_nat (length ts).
Proof.
  induction ts as [|t ts IH]; intros store n Hn Hb r.
  - simpl. intros Hr. specialize (Hb r Hr). lia.
  - unfold recordFailures. cbn [fold_left length].
    fold (recordFailures key ts (recordCredentialFailure key t store)).
    intros Hr.
    pose proof (IH (recordCredentialFailure key t store) (n + 1) ltac:(lia)
                  (recordCredentialFailure_bound key t store n Hn Hb) r Hr).
    lia.
Qed.

(** X5. Fewer than [CREDENTIAL_MAX_FAILURES] recorded failures never block
    an identity that had no record: whatever the clock readings of the
    failures and of the query, the status is not blocked. *)
Theorem credential_throttle_below_threshold key
    (store : gmap string FailureRecord) (ts : list Z) (tq : Z) :
  store !! key = None ->
  Z.of_nat (length ts) < CREDENTIAL_MAX_FAILURES ->
  (getCredentialThrottle key tq (recordFailures key ts store)).1 = NotBlocked.
Proof.
  intros Hnone Hfew.
  pose proof (recordFailures_bound key ts store 0 ltac:(lia)) as Hb.
  unfold getCredentialThrottle. destruct (no_key key); [done |].
  destruct (recordFailures key ts store !! key) as [r|] eqn:Hr; [| done].
  destruct (tq - firstFailure r >? CREDENTIAL_WINDOW_MS); [done |].
  assert (failures r <= 0 + Z.of_nat (length ts)).
  { apply Hb; [| done]. intros r0 Hr0. congruence. }
  destruct (Z.geb_spec (failures r) CREDENTIAL_MAX_FAILURES); [lia | done].
Qed.

Lemma credential_throttle_below_threshold_witness :
  (getCredentialThrottle "ada@example.org" 9
     (recordFailures "ada@example.org" [1; 2; 3; 4] ∅)).1 = NotBlocked.
Proof.
  apply (credential_throttle_below_threshold "ada@example.org" ∅ [1; 2; 3; 4] 9).
  - apply lookup_empty.
  - reflexivity.
Defined.

(** X6. A lockout is measured from the first failure of the window, not
    from the last one: however many failures were recorded inside the
    window that a first failure at [t0] opened, a status query made more
    than [CREDENTIAL_WINDOW_MS] after [t0] reports not blocked and deletes
    the record, and the next failure starts a new record with one failure. *)
Theorem credential_lockout_ends_with_window key
    (store : gmap string FailureRecord) (t0 : Z) (ts : list Z) (tq tn : Z) :
  key <> "" ->
  store !! key = None ->
  Forall (fun t => t - t0 <= CREDENTIAL_WINDOW_MS) ts ->
  tq - t0 > CREDENTIAL_WINDOW_MS ->
  let failed := recordFailures key (t0 :: ts) store in
  let '(status, queried) := getCredentialThrottle key tq failed in
  status = NotBlocked
  /\ queried !! key = None
  /\ recordCredentialFailure key tn queried !! key
       = Some {| failures := 1; firstFailure := tn |}.
Proof.
  intros Hk Hnone Hts Htq failed.
  assert (Hfailed : failed !! key =
            Some {| failures := 1 + Z.of_nat (length ts); firstFailure := t0 |}).
  { subst failed. unfold recordFailures. cbn [fold_left].
    rewrite (recordCredentialFailure_first key t0 store Hk Hnone).
    fold (recordFailures key ts
            (<[key := {| failures := 1; firstFailure := t0 |}]> store)).
    rewrite (recordFailures_inside_window key ts _
               {| failures := 1; firstFailure := t0 |} Hk);
      [| by rewrite lookup_insert_eq | done ].
    by rewrite lookup_insert_eq. }
  unfold getCredentialThrottle. rewrite (no_key_false key Hk), Hfailed. cbn.
  destruct (Z.gtb_spec (tq - t0) CREDENTIAL_WINDOW_MS); [| lia].
  split; [done |]. split; [apply lookup_delete_eq |].
  rewrite recordCredentialFailure_first; [apply lookup_insert_eq | done |].
  apply lookup_delete_eq.
Qed.

Lemma credential_lockout_ends_with_window_witness :
  let '(status, queried) :=
    getCredentialThrottle "ada@example.org" 600001
      (recordFailures "ada@example.org" (0 :: [1; 2; 3; 4; 600000]) ∅) in
  status = NotBlocked
  /\ queried !! "ada@example.org" = None
  /\ recordCredentialFailure "ada@example.org" 600002 queried !! "ada@example.org"
       = Some {| failures := 1; firstFailure := 600002 |}.
Proof.
  apply (credential_lockout_ends_with_window "ada@example.org" ∅ 0
           [1; 2; 3; 4; 600000] 600001 600002).
  - discriminate.
  - apply lookup_empty.
  - repeat (constructor; [unfold CREDENTIAL_WINDOW_MS; simpl; lia |]). constructor.
  - unfold CREDENTIAL_WINDOW_MS. simpl. lia.
Defined.

(** X7. Whatever calls of the three functions and runs of the sweep were
    made since the server started, every record in the store counts at
    least one failure and no record is stored under the empty key. *)
Theorem credential_store_invariant (history : list ThrottleOps.Op) :
  forall k r, ThrottleOps.after history !! k = Some r ->
              1 <= failures r /\ k <> "".
Proof.
  unfold ThrottleOps.after.
  assert (Hgen : forall (store : gmap string FailureRecord),
            (forall k r, store !! k = Some r -> 1 <= failures r /\ k <> "") ->
            forall k r, fold_left ThrottleOps.apply history store !! k = Some r ->
                        1 <= failures r /\ k <> "").
  { induction history as [|op history IH]; intros store Hinv; [exact Hinv |].
    cbn [fold_left]. apply IH. intros k r.
    destruct op as [key now|key now|key|now]; cbn [ThrottleOps.apply];
      [| | | intros Hk; apply map_lookup_filter_Some in Hk as [Hk _];
             by eapply Hinv].
    - unfold getCredentialThrottle. destruct (no_key key); [apply Hinv |].
      destruct (store !! key) as [r0|]; [| apply Hinv].
      destruct (now - firstFailure r0 >? CREDENTIAL_WINDOW_MS); cbn.
      + intros Hk. apply lookup_delete_Some in Hk as [_ Hk]. by eapply Hinv.
      + destruct (failures r0 >=? CREDENTIAL_MAX_FAILURES); apply Hinv.
    - unfold recordCredentialFailure.
      destruct (no_key key) eqn:Hkey; [apply Hinv |].
      assert (Hne : key <> "") by (intros ->; discriminate Hkey).
      destruct (store !! key) as [r0|] eqn:Hr0;
        [destruct (now - firstFailure r0 >? CREDENTIAL_WINDOW_MS) |];
        (destruct (decide (key = k)) as [<-|Hnk];
         [ rewrite lookup_insert_eq; intros [= <-]; cbn; split; [| done];
           try lia; destruct (Hinv _ _ Hr0); lia
         | rewrite lookup_insert_ne by done; apply Hinv ]).
    - unfold resetCredentialFailures.
      intros Hk. apply lookup_delete_Some in Hk as [_ Hk]. by eapply Hinv. }
  apply Hgen. intros k r Hr. rewrite lookup_empty in Hr. discriminate Hr.
Qed.

Lemma credential_sweep_lookup now (store : gmap string FailureRecord) key :
  ThrottleOps.sweep now store !! key =
    match store !! key with
    | Some r => if now - firstFailure r >? CREDENTIAL_WINDOW_MS then None else Some r
    | None => None
    end.
Proof.
  unfold ThrottleOps.sweep. destruct (store !! key) as [r|] eqn:Hr.
  - destruct (Z.gtb_spec (now - firstFailure r) CREDENTIAL_WINDOW_MS) as [Hexp|Hlive].
    + apply map_lookup_filter_None. right. intros r' Hr'. simpl.
      rewrite Hr in Hr'. injection Hr' as <-.
      destruct (Z.gtb_spec (now - firstFailure r) CREDENTIAL_WINDOW_MS); [| lia].
      simpl. discriminate.
    + apply map_lookup_filter_Some. split; [done |]. simpl.
      by destruct (Z.gtb_spec (now - firstFailure r) CREDENTIAL_WINDOW_MS); [lia |].
  - apply map_lookup_filter_None. by left.
Qed.

(** X25. The sweep of the failure records cannot be told from outside: a
    record it deletes has run out for every later call, so for an identity
    (a non-empty key) a later status query gives the same answer and a
    later failure is counted the same way, whether the sweep ran or not. *)
Theorem credential_sweep_is_unobservable key (swept_at now : Z)
    (store : gmap string FailureRecord) :
  key <> "" ->
  swept_at <= now ->
  (getCredentialThrottle key now (ThrottleOps.sweep swept_at store)).1
  = (getCredentialThrottle key now store).1
  /\ (getCredentialThrottle key now (ThrottleOps.sweep swept_at store)).2 !! key
     = (getCredentialThrottle key now store).2 !! key
  /\ recordCredentialFailure key now (ThrottleOps.sweep swept_at store) !! key
     = recordCredentialFailure key now store !! key.
Proof.
  intros Hkey Hclock.
  unfold getCredentialThrottle, recordCredentialFailure.
  assert (no_key key = false) as -> by by destruct key.
  rewrite !credential_sweep_lookup.
  destruct (store !! key) as [r|] eqn:Hr.
  - destruct (Z.gtb_spec (swept_at - firstFailure r) CREDENTIAL_WINDOW_MS);
      destruct (Z.gtb_spec (now - firstFailure r) CREDENTIAL_WINDOW_MS);
      try lia;
      try destruct (failures r >=? CREDENTIAL_MAX_FAILURES);
      cbn [fst snd];
      rewrite ?credential_sweep_lookup, ?Hr, ?lookup_delete_eq, ?lookup_insert_eq;
      repeat match goal with
             | |- context [Z.gtb ?a ?b] => destruct (Z.gtb_spec a b); try lia
             end;
      done.
  - cbn [fst snd].
    by rewrite credential_sweep_lookup, Hr, !lookup_insert_eq.
Qed.

End ThrottleMore.

Lemma credential_sweep_is_unobservable_witness :
  (Throttle.getCredentialThrottle "ada@example.org" 700000
     (ThrottleOps.sweep 650000
        {["ada@example.org" := {| Throttle.failures := 5;
                                  Throttle.firstFailure := 0 |}]})).1
  = (Throttle.getCredentialThrottle "ada@example.org" 700000
       {["ada@example.org" := {| Throttle.failures := 5;
                                 Throttle.firstFailure := 0 |}]}).1.
Proof.
  exact (proj1 (credential_sweep_is_unobservable "ada@example.org" 650000 700000
    {["ada@example.org" := {| Throttle.failures := 5; Throttle.firstFailure := 0 |}]}
    ltac:(discriminate) ltac:(lia))).
Defined.

(** ** Process runner: which event settles the promise *)

Section RunnerMore.
Import JS Runner Events.

Lemma run_app maxBuffer evs1 evs2 st :
  run maxBuffer (evs1 ++ evs2) st = run maxBuffer evs2 (run maxBuffer evs1 st).
Proof. unfold run. apply fold_left_app. Qed.

(** Events that do not settle keep a pending promise pending, never clear
    the time-out flag and leave the kill timer armed until it fires. *)
Lemma run_quiet maxBuffer events : forall st,
  quiet events = true ->
  promise (run maxBuffer events st) = promise st
  /\ (timedOutFlag st = true -> timedOutFlag (run maxBuffer events st) = true)
  /\ (timedOutFlag (run maxBuffer events st) = false ->
      killTimerArmed (run maxBuffer events st) = killTimerArmed st
      /\ timedOutFlag st = false).
Proof.
  induction events as [|ev events IH]; intros st Hq; [done |].
  cbn [quiet forallb] in Hq. apply andb_true_iff in Hq as [Hev Hq].
  unfold run in *. cbn [fold_left].
  destruct (IH (on_event maxBuffer st ev) Hq) as (Hp & Ht & Ha).
  destruct ev as [chunk| | |code]; try discriminate Hev; cbn in *.
  - done.
  - destruct (killTimerArmed st) eqn:Harmed; cbn in *.
    + split; [done |]. split; [intros _; by apply Ht |].
      intros Hf. destruct (Ha Hf) as [_ Habs]. discriminate Habs.
    + split; [done |]. split; [done |]. intros Hf.
      destruct (Ha Hf) as [Harm Hflag]. by rewrite Harm.
Qed.

(** Once the promise is settled no event changes it. *)
Lemma run_settled maxBuffer events : forall st,
  promise st <> Pending -> promise (run maxBuffer events st) = promise st.
Proof.
  induction events as [|ev events IH]; intros st Hst; [done |].
  unfold run in *. cbn [fold_left]. rewrite IH.
  - destruct ev as [chunk| | |code]; cbn; try done.
    + by destruct (killTimerArmed st).
    + by destruct (promise st).
    + by destruct (promise st).
  - destruct ev as [chunk| | |code]; cbn; try done.
    + by destruct (killTimerArmed st).
    + by destruct (promise st).
    + by destruct (promise st).
Qed.

(** After events that do not settle, a settling event settles the promise,
    and what follows it is ignored. *)
Lemma run_first_settling maxBuffer (before : list ChildEvent) (ev : ChildEvent)
    (rest : list ChildEvent) :
  quiet before = true ->
  settles ev = true ->
  promise (run maxBuffer (before ++ ev :: rest) spawned)
  = promise (run maxBuffer (before ++ [ev]) spawned)
  /\ promise (run maxBuffer (before ++ [ev]) spawned) <> Pending.
Proof.
  intros Hq Hev.
  destruct (run_quiet maxBuffer before spawned Hq) as (Hp & _).
  assert (Hsettled : promise (run maxBuffer (before ++ [ev]) spawned) <> Pending).
  { rewrite run_app. unfold run at 1. cbn [fold_left].
    destruct ev as [chunk| | |code]; try discriminate Hev; cbn; rewrite Hp; cbn.
    - discriminate.
    - unfold on_close. by destruct (_ && _). }
  split; [| done].
  change (before ++ ev :: rest) with (before ++ [ev] ++ rest).
  rewrite app_assoc, run_app. by apply run_settled.
Qed.

(** X8. Of the events of a child, the first ['error'] or ['close'] decides:
    what is delivered after it has no effect on the promise, and without
    any such event the promise stays pending, whatever data arrives and
    whether or not the kill timer fires. *)
Theorem first_settling_event_decides (options : Options)
    (before : list ChildEvent) (ev : ChildEvent) (rest : list ChildEvent) :
  quiet before = true ->
  spawnCliAndStream options before = Pending
  /\ (settles ev = true ->
      spawnCliAndStream options (before ++ ev :: rest)
        = spawnCliAndStream options (before ++ [ev])
      /\ spawnCliAndStream options (before ++ [ev]) <> Pending).
Proof.
  intros Hq. unfold spawnCliAndStream. split.
  - by destruct (run_quiet (effective_maxBuffer options) before spawned Hq)
      as (Hp & _).
  - intros Hev. by apply run_first_settling.
Qed.

Lemma first_settling_event_decides_witness :
  spawnCliAndStream no_options
    ([Data "Compiling"; KillTimer] ++ SpawnError :: [Close (Some 0)])
  = spawnCliAndStream no_options ([Data "Compiling"; KillTimer] ++ [SpawnError])
  /\ spawnCliAndStream no_options ([Data "Compiling"; KillTimer] ++ [SpawnError])
     <> Pending.
Proof.
  exact (proj2 (first_settling_event_decides no_options
                  [Data "Compiling"; KillTimer] SpawnError [Close (Some 0)]
                  eq_refl) eq_refl).
Defined.

(** X9. Once the kill timer has fired, the exit code no longer matters: the
    ['close'] that follows rejects the promise with [timedOut] set and the
    message [arduino-cli timed out], also for exit code 0, carrying the
    output captured until then. *)
Theorem timeout_overrides_exit_code (options : Options)
    (before after : list ChildEvent) (code : option Z) (rest : list ChildEvent) :
  quiet before = true ->
  quiet after = true ->
  spawnCliAndStream options (before ++ KillTimer :: after ++ Close code :: rest)
  = Rejected {| message := "arduino-cli timed out";
                cause := false;
                timedOut := Some true;
                cliOutput :=
                  output (run (effective_maxBuffer options) (before ++ after)
                            spawned) |}.
Proof.
  intros Hb Ha.
  assert (Hq : quiet (before ++ KillTimer :: after) = true).
  { unfold quiet in *. rewrite forallb_app. cbn. by rewrite Hb, Ha. }
  change (before ++ KillTimer :: after ++ Close code :: rest)
    with (before ++ (KillTimer :: after) ++ Close code :: rest).
  rewrite app_assoc.
  unfold spawnCliAndStream. set (mb := effective_maxBuffer options).
  destruct (run_first_settling mb (before ++ KillTimer :: after) (Close code) rest
              Hq eq_refl) as [-> _].
  rewrite run_app. unfold run at 1. cbn [fold_left on_event].
  destruct (run_quiet mb (before ++ KillTimer :: after) spawned Hq) as (Hp & _ & _).
  rewrite Hp. cbn [promise spawned settle].
  (* the flag is set and the output is that of the data events *)
  assert (Hflag : timedOutFlag (run mb (before ++ KillTimer :: after) spawned) = true).
  { rewrite run_app. destruct (run_quiet mb before spawned Hb) as (_ & _ & Hbefore).
    destruct (run_quiet mb after
                (run mb [KillTimer] (run mb before spawned)) Ha) as (_ & Hkeep & _).
    change (KillTimer :: after) with ([KillTimer] ++ after). rewrite run_app.
    apply Hkeep. unfold run at 1. cbn.
    destruct (timedOutFlag (run mb before spawned)) eqn:Hf.
    - by destruct (killTimerArmed (run mb before spawned)).
    - destruct (Hbefore eq_refl) as [-> _]. done. }
  assert (Hout : forall st, output (run mb (KillTimer :: after) st)
                            = output (run mb after st)).
  { clear. intros st. unfold run. cbn [fold_left on_event].
    destruct (killTimerArmed st); [| done].
    set (st' := {| output := output st; timedOutFlag := true;
                   killTimerArmed := false; promise := promise st |}).
    assert (Hgen : forall evs a b, output a = output b ->
              output (fold_left (on_event mb) evs a)
              = output (fold_left (on_event mb) evs b)).
    { induction evs as [|e evs IH]; intros a b Hab; [done |].
      cbn [fold_left]. apply IH.
      destruct e; cbn; try done; try (by rewrite Hab);
        by destruct (killTimerArmed a), (killTimerArmed b). }
    by apply Hgen. }
  unfold on_close. rewrite Hflag. cbn. unfold close_error. cbn.
  do 2 f_equal. rewrite !run_app. apply Hout.
Qed.

Lemma timeout_overrides_exit_code_witness :
  spawnCliAndStream no_options
    ([Data "Uploading"] ++ KillTimer :: [Data "..."] ++ Close (Some 0) :: [])
  = Rejected {| message := "arduino-cli timed out";
                cause := false;
                timedOut := Some true;
                cliOutput :=
                  output (run (effective_maxBuffer no_options)
                            ([Data "Uploading"] ++ [Data "..."]) spawned) |}.
Proof.
  exact (timeout_overrides_exit_code no_options [Data "Uploading"] [Data "..."]
           (Some 0) [] eq_refl eq_refl).
Defined.

End RunnerMore.

(** ** Flash workflow: what reaches the process runner *)

Section FlashMore.
Import JS Validators Flash.

Variables (cwd dirname : string).
Variable statSync : string -> Stat.
Variable child : nat -> list string -> list ChildEvent.
Variable jwt_verify : string -> Auth.JwtError + Auth.Identity.

Lemma gate_refusal_status authorization res :
  Auth.authMiddleware jwt_verify authorization = Auth.Refused res ->
  Auth.status res = 401.
Proof.
  unfold Auth.authMiddleware.
  destruct authorization as [auth|]; [| by intros [= <-]].
  destruct (is_empty auth); [by intros [= <-] |].
  destruct (split_on " " auth) as [|scheme [|token [|x rest]]];
    try (by intros [= <-]).
  destruct (negb (String.eqb scheme "Bearer")); [by intros [= <-] |].
  destruct (Auth.verifyToken jwt_verify token); [discriminate | by intros [= <-]].
Qed.

(** The fields of a request that passed validation. *)
Lemma validate_accepted_fields req resolvedSketch :
  Flash.validate cwd dirname statSync req = inr resolvedSketch ->
  (exists p, port req = JStr p /\ isValidSerialPort (JStr p) = true)
  /\ (truthy (fqbn req) = false
      \/ exists f, fqbn req = JStr f /\ FQBN_PATTERN f = true).
Proof.
  unfold Flash.validate.
  destruct (negb (truthy (sketchPath req)) || negb (truthy (port req)));
    [discriminate |].
  destruct (isValidSerialPort (port req)) eqn:Hport; [| discriminate].
  destruct (isValidFqbn (fqbn req)) eqn:Hfqbn; [| discriminate].
  intros _. split.
  - destruct (port req) as [| | | |p|]; try discriminate Hport. by exists p.
  - unfold isValidFqbn in Hfqbn.
    destruct (truthy (fqbn req)) eqn:Htruthy; [right | by left].
    destruct (fqbn req) as [| | | |f|]; try discriminate Hfqbn.
    exists f. split; [done |]. cbn in Hfqbn.
    by apply andb_true_iff in Hfqbn as [_ Hfqbn].
Qed.

(** X10. Nothing but validated input reaches [arduino-cli]: every process a
    flash request spawns is [version], or [compile] or [upload] of the
    resolved sketch path that passed validation, with the port that passed
    [isValidSerialPort] and, only when an FQBN was given, the FQBN that
    matched [FQBN_PATTERN]. *)
Theorem spawn_arguments_are_validated (authorization : option string)
    (req : FlashBody) (log : list Invocation) :
  let result :=
    post_api_flash cwd dirname statSync child jwt_verify authorization req log in
  forall inv, In inv (spawned_since log result.2) ->
    inv_args inv = ["version"]
    \/ exists resolvedSketch p fqbnArgs,
         Flash.validate cwd dirname statSync req = inr resolvedSketch
         /\ port req = JStr p /\ isValidSerialPort (JStr p) = true
         /\ (fqbnArgs = [] /\ truthy (fqbn req) = false
             \/ exists f, fqbn req = JStr f /\ FQBN_PATTERN f = true
                          /\ fqbnArgs = ["--fqbn"; f])
         /\ (inv_args inv = ["compile"; resolvedSketch] ++ fqbnArgs
             \/ inv_args inv = ["upload"; resolvedSketch; "--port"; p] ++ fqbnArgs).
Proof.
  intros result. subst result. unfold post_api_flash.
  destruct (Auth.authMiddleware jwt_verify authorization) as [refused|user].
  { cbn [snd]. rewrite spawned_since_nil. intros inv []. }
  unfold flash_handler.
  destruct (Flash.validate cwd dirname statSync req) as [res|resolvedSketch] eqn:Hv.
  { cbn [snd]. rewrite spawned_since_nil. intros inv []. }
  destruct (validate_accepted_fields req resolvedSketch Hv)
    as [(p & Hp & Hpvalid) Hfq].
  assert (Hargs : exists fqbnArgs,
            (if truthy (fqbn req) then ["--fqbn"; str_of (fqbn req)] else [])
              = fqbnArgs
            /\ (fqbnArgs = [] /\ truthy (fqbn req) = false
                \/ exists f, fqbn req = JStr f /\ FQBN_PATTERN f = true
                             /\ fqbnArgs = ["--fqbn"; f])).
  { destruct Hfq as [Hfalsy | (f & Hf & Hpat)].
    - exists []. rewrite Hfalsy. split; [done |]. by left.
    - exists ["--fqbn"; f]. rewrite Hf.
      assert (truthy (JStr f) = true) as ->.
      { destruct f; [discriminate Hpat | done]. }
      split; [done |]. right. by exists f. }
  destruct Hargs as (fqbnArgs & Heq & Hshape).
  assert (Hcases : forall inv,
            inv_args inv = ["version"]
            \/ inv_args inv = ["compile"; resolvedSketch] ++ fqbnArgs
            \/ inv_args inv = ["upload"; resolvedSketch; "--port"; p] ++ fqbnArgs ->
            inv_args inv = ["version"]
            \/ exists resolvedSketch0 p0 fqbnArgs0,
                 (inr resolvedSketch : Response + string) = inr resolvedSketch0
                 /\ port req = JStr p0 /\ isValidSerialPort (JStr p0) = true
                 /\ (fqbnArgs0 = [] /\ truthy (fqbn req) = false
                     \/ exists f, fqbn req = JStr f /\ FQBN_PATTERN f = true
                                  /\ fqbnArgs0 = ["--fqbn"; f])
                 /\ (inv_args inv = ["compile"; resolvedSketch0] ++ fqbnArgs0
                     \/ inv_args inv
                        = ["upload"; resolvedSketch0; "--port"; p0] ++ fqbnArgs0)).
  { intros inv [Hversion | Hrun]; [by left | right].
    exists resolvedSketch, p, fqbnArgs. by repeat split. }
  assert (Hsp : str_of (port req) = p) by (by rewrite Hp).
  unfold execute, spawn_probe, spawn_cli. rewrite Heq, Hsp.
  destruct (probe _) as [|[]|[]]; cbn [fst snd outcome_of];
    rewrite ?spawned_since_app;
    try (intros inv [<- | []]; apply Hcases; by left).
  destruct (spawnCliAndStream _ _) as [|compiled|err]; cbn [fst snd outcome_of];
    rewrite ?spawned_since_app2;
    try (intros inv [<- | [<- | []]]; apply Hcases; cbn; auto).
  destruct (spawnCliAndStream _ _) as [|uploaded|err]; cbn [fst snd outcome_of];
    rewrite ?spawned_since_app3;
    intros inv [<- | [<- | [<- | []]]]; apply Hcases; cbn; auto.
Qed.

(** X11. Validation and authentication fail fast: a request answered with
    401 or 400 has spawned no process, and a request that spawned a process
    carried a header the gate let through and passed validation. *)
Theorem flash_fails_fast (authorization : option string)
    (req : FlashBody) (log : list Invocation) :
  let result :=
    post_api_flash cwd dirname statSync child jwt_verify authorization req log in
  (forall res, result.1 = Some res -> status res = 400 \/ status res = 401 ->
               result.2 = log)
  /\ (result.2 <> log ->
      (exists user, Auth.authMiddleware jwt_verify authorization = Auth.Next user)
      /\ exists resolvedSketch,
           Flash.validate cwd dirname statSync req = inr resolvedSketch).
Proof.
  intros result. subst result. unfold post_api_flash.
  destruct (Auth.authMiddleware jwt_verify authorization) as [refused|user].
  { cbn. split; [done |]. by intros []. }
  unfold flash_handler.
  destruct (Flash.validate cwd dirname statSync req) as [res|resolvedSketch] eqn:Hv.
  { cbn. split; [done |]. by intros []. }
  split; [| intros _; split; by eexists].
  unfold execute, spawn_probe, spawn_cli.
  destruct (probe _) as [|[]|[]]; cbn [fst snd outcome_of];
    try (intros res [= <-]; cbn; intros [|]; discriminate).
  destruct (spawnCliAndStream _ _) as [|compiled|err]; cbn [fst snd outcome_of];
    try (intros res [= <-]; cbn; intros [|]; discriminate).
  destruct (spawnCliAndStream _ _) as [|uploaded|err]; cbn [fst snd outcome_of];
    intros res [= <-]; cbn; intros [|]; discriminate.
Qed.

(** X12. The answer tells what ran.  A 200 is sent only after exactly three
    processes, [version], [compile] and [upload] in this order, each of whose
    promises resolved; a request gets no answer at all exactly when the
    last process it spawned never settles; any answer has status 200, 400,
    401 or 500. *)
Theorem flash_answer_tells_what_ran (authorization : option string)
    (req : FlashBody) (log : list Invocation) :
  let result :=
    post_api_flash cwd dirname statSync child jwt_verify authorization req log in
  let trace := spawned_since log result.2 in
  (forall res, result.1 = Some res ->
     status res = 200 \/ status res = 400 \/ status res = 401 \/ status res = 500)
  /\ (forall res, result.1 = Some res -> status res = 200 ->
        map (fun inv => hd "" (inv_args inv)) trace = ["version"; "compile"; "upload"]
        /\ map inv_outcome trace = [DidResolve; DidResolve; DidResolve])
  /\ (result.1 = None <->
        exists inv, List.last (map Some trace) None = Some inv
                    /\ inv_outcome inv = StillPending).
Proof.
  intros result trace. subst trace result. unfold post_api_flash.
  destruct (Auth.authMiddleware jwt_verify authorization) as [refused|user] eqn:Hgate.
  { cbn [fst snd]. rewrite spawned_since_nil.
    pose proof (gate_refusal_status authorization refused Hgate) as H401.
    split; [| split].
    - intros res [= <-]. cbn. auto.
    - intros res [= <-]. cbn. rewrite H401. discriminate.
    - split; [discriminate |]. intros (inv & Hlast & _). discriminate Hlast. }
  unfold flash_handler.
  destruct (Flash.validate cwd dirname statSync req) as [res0|resolvedSketch] eqn:Hv.
  { cbn [fst snd]. rewrite spawned_since_nil.
    pose proof (validate_failure_is_400 cwd dirname statSync req res0 Hv) as H400.
    split; [| split].
    - intros res [= <-]. auto.
    - intros res [= <-] H200. rewrite H400 in H200. discriminate H200.
    - split; [discriminate |]. intros (inv & Hlast & _). discriminate Hlast. }
  unfold execute, spawn_probe, spawn_cli.
  destruct (probe _) as [|[]|[]]; cbn [fst snd outcome_of];
    rewrite ?spawned_since_app.
  - split; [discriminate |]. split; [discriminate |].
    split; [intros _; eexists; split; reflexivity |]. done.
  - destruct (spawnCliAndStream _ _) as [|compiled|err]; cbn [fst snd outcome_of];
      rewrite ?spawned_since_app2.
    + split; [discriminate |]. split; [discriminate |].
      split; [intros _; eexists; split; reflexivity |]. done.
    + destruct (spawnCliAndStream _ _) as [|uploaded|err]; cbn [fst snd outcome_of];
        rewrite ?spawned_since_app3.
      * split; [discriminate |]. split; [discriminate |].
        split; [intros _; eexists; split; reflexivity |]. done.
      * split; [intros res [= <-]; cbn; auto |].
        split; [intros res [= <-] _; cbn; done |].
        split; [discriminate |]. intros (inv & [= <-] & Habs). discriminate Habs.
      * split; [intros res [= <-]; cbn; auto |].
        split; [intros res [= <-] Habs; discriminate Habs |].
        split; [discriminate |]. intros (inv & [= <-] & Habs). discriminate Habs.
    + split; [intros res [= <-]; cbn; auto |].
      split; [intros res [= <-] Habs; discriminate Habs |].
      split; [discriminate |]. intros (inv & [= <-] & Habs). discriminate Habs.
  - split; [intros res [= <-]; cbn; auto |].
    split; [intros res [= <-] Habs; discriminate Habs |].
    split; [discriminate |]. intros (inv & [= <-] & Habs). discriminate Habs.
Qed.

End FlashMore.

Lemma spawn_arguments_are_validated_witness :
  Flash.inv_args {| Flash.inv_args := ["compile"; "/srv/app/sketches/blink.ino";
                                       "--fqbn"; "esp32:esp32:esp32"];
                    Flash.inv_outcome := Flash.DidResolve |} = ["version"]
  \/ exists resolvedSketch p fqbnArgs,
       Flash.validate Scenario.cwd Scenario.dirname Scenario.disk Scenario.blink
         = inr resolvedSketch
       /\ Flash.port Scenario.blink = JS.JStr p
       /\ Validators.isValidSerialPort (JS.JStr p) = true
       /\ (fqbnArgs = [] /\ JS.truthy (Flash.fqbn Scenario.blink) = false
           \/ exists f, Flash.fqbn Scenario.blink = JS.JStr f
                        /\ Validators.FQBN_PATTERN f = true
                        /\ fqbnArgs = ["--fqbn"; f])
       /\ (Flash.inv_args
             {| Flash.inv_args := ["compile"; "/srv/app/sketches/blink.ino";
                                   "--fqbn"; "esp32:esp32:esp32"];
                Flash.inv_outcome := Flash.DidResolve |}
           = ["compile"; resolvedSketch] ++ fqbnArgs
           \/ Flash.inv_args
                {| Flash.inv_args := ["compile"; "/srv/app/sketches/blink.ino";
                                      "--fqbn"; "esp32:esp32:esp32"];
                   Flash.inv_outcome := Flash.DidResolve |}
              = ["upload"; resolvedSketch; "--port"; p] ++ fqbnArgs).
Proof.
  apply (spawn_arguments_are_validated Scenario.cwd Scenario.dirname Scenario.disk
           Scenario.all_succeed Scenario.jwt (Some "Bearer signed-by-us")
           Scenario.blink []).
  vm_compute. right. left. reflexivity.
Defined.

Lemma flash_fails_fast_witness :
  (Flash.post_api_flash Scenario.cwd Scenario.dirname Scenario.disk
     Scenario.all_succeed Scenario.jwt (Some "Bearer forged") Scenario.blink []).2
  = [].
Proof.
  refine (proj1 (flash_fails_fast Scenario.cwd Scenario.dirname Scenario.disk
                   Scenario.all_succeed Scenario.jwt (Some "Bearer forged")
                   Scenario.blink [])
            {| Flash.status := 401;
               Flash.body := Flash.ErrorBody "Invalid or expired token" |}
            eq_refl (or_intror eq_refl)).
Defined.


Lemma flash_answer_tells_what_ran_witness :
  map Flash.inv_outcome
    (Flash.spawned_since []
       (Flash.post_api_flash Scenario.cwd Scenario.dirname Scenario.disk
          Scenario.all_succeed Scenario.jwt (Some "Bearer signed-by-us")
          Scenario.blink []).2)
  = [Flash.DidResolve; Flash.DidResolve; Flash.DidResolve].
Proof.
  refine (proj2 (proj1 (proj2 (flash_answer_tells_what_ran Scenario.cwd
                   Scenario.dirname Scenario.disk Scenario.all_succeed Scenario.jwt
                   (Some "Bearer signed-by-us") Scenario.blink []))
            {| Flash.status := 200; Flash.body := Flash.OkBody "Upload complete" |}
            eq_refl eq_refl)).
Defined.

(** The relative sketch of the deployment resolves inside the root. *)
Lemma accepted_relative_sketch_is_inside_witness :
  NodePath.is_within (Flash.PROJECT_ROOT Scenario.cwd Scenario.dirname)
    "/srv/app/sketches/blink.ino" = true.
Proof.
  exact (accepted_relative_sketch_is_inside Scenario.cwd Scenario.dirname
           Scenario.disk Scenario.blink "sketches/blink.ino"
           "/srv/app/sketches/blink.ino" eq_refl eq_refl eq_refl eq_refl).
Defined.

(** ** Auth gate and signing secret *)

Section AuthMore.
Import JS Auth.

Lemma join_split (sep : ascii) (s : string) :
  join (String sep "") (split_on sep s) = s.
Proof.
  induction s as [|c s IH]; [done |]. cbn [split_on].
  pose proof (split_on_not_nil sep s) as Hne.
  destruct (Ascii.eqb_spec c sep) as [->|Hc].
  - destruct (split_on sep s) as [|w ws]; [done |].
    change (join (String sep "") ("" :: w :: ws))
      with ("" +:+ String sep "" +:+ join (String sep "") (w :: ws)).
    by rewrite IH.
  - destruct (split_on sep s) as [|w ws]; [done |].
    destruct ws as [|w' ws'].
    + cbn in *. by rewrite IH.
    + change (join (String sep "") (String c w :: w' :: ws'))
        with (String c (w +:+ String sep "" +:+ join (String sep "") (w' :: ws'))).
      f_equal. exact IH.
Qed.

Lemma split_on_pieces (sep : ascii) (s : string) :
  Forall (fun w => str_forallb (fun c => negb (Ascii.eqb c sep)) w = true)
         (split_on sep s).
Proof.
  induction s as [|c s IH]; cbn [split_on]; [by repeat constructor |].
  destruct (Ascii.eqb c sep) eqn:Hc; [by constructor |].
  destruct (split_on sep s) as [|w ws]; [by repeat constructor; cbn; rewrite Hc |].
  inversion IH; subst. constructor; [| done]. cbn. by rewrite Hc.
Qed.

Lemma split_on_pair (sep : ascii) (a b : string) :
  str_forallb (fun c => negb (Ascii.eqb c sep)) a = true ->
  str_forallb (fun c => negb (Ascii.eqb c sep)) b = true ->
  split_on sep (a +:+ String sep b) = [a; b].
Proof.
  intros Ha Hb.
  assert (Hsingle : split_on sep b = [b]).
  { clear Ha. induction b as [|c b IH]; [done |].
    cbn in Hb. apply andb_true_iff in Hb as [Hc Hb]. apply negb_true_iff in Hc.
    cbn. by rewrite Hc, (IH Hb). }
  induction a as [|c a IH].
  - rewrite str_app_nil. cbn. by rewrite Ascii.eqb_refl, Hsingle.
  - cbn in Ha. apply andb_true_iff in Ha as [Hc Ha]. apply negb_true_iff in Hc.
    rewrite str_app_cons. cbn. by rewrite Hc, (IH Ha).
Qed.

(** X13. The gate lets a request through exactly when its [Authorization]
    header is [Bearer], one space and a token without spaces that
    [jwt.verify] accepts, and then hands on the payload of that token; a
    missing header, another scheme (also [bearer] in lower case) or a
    second space are refused. *)
Theorem gate_admits_exactly_bearer_tokens
    (jwt_verify : string -> JwtError + Identity)
    (authorization : option string) (user : Identity) :
  authMiddleware jwt_verify authorization = Next user <->
  exists token,
    authorization = Some ("Bearer " +:+ token)
    /\ str_forallb (fun c => negb (Ascii.eqb c " ")) token = true
    /\ jwt_verify token = inr user.
Proof.
  unfold authMiddleware, verifyToken. split.
  - destruct authorization as [auth|]; [| discriminate].
    destruct (is_empty auth); [discriminate |].
    pose proof (join_split " " auth) as Hjoin.
    pose proof (split_on_pieces " " auth) as Hpieces.
    destruct (split_on " " auth) as [|scheme [|token [|x rest]]]; try discriminate.
    destruct (String.eqb_spec scheme "Bearer") as [->|]; [| discriminate].
    cbn [negb]. destruct (jwt_verify token) as [|payload] eqn:Hjwt; [discriminate |].
    intros [= <-]. exists token. split; [by rewrite <- Hjoin |].
    split; [| done]. inversion Hpieces as [|? ? _ Hrest]; subst.
    by inversion Hrest.
  - intros (token & -> & Htoken & Hjwt).
    change ("Bearer " +:+ token) with ("Bearer" +:+ String " " token).
    rewrite (split_on_pair " " "Bearer" token eq_refl Htoken).
    cbn. by rewrite Hjwt.
Qed.


End AuthMore.


Lemma sweep_is_unobservable_witness :
  (RateLimit.rateLimit "login:10.0.0.7" 1000001
     (RateLimit.sweep 1000000
        {["login:10.0.0.7" := {| RateLimit.windowStart := 0; RateLimit.count := 3 |}]})).1
  = (RateLimit.rateLimit "login:10.0.0.7" 1000001
       {["login:10.0.0.7" := {| RateLimit.windowStart := 0; RateLimit.count := 3 |}]}).1.
Proof.
  exact (proj1 (proj2 (sweep_is_unobservable "login:10.0.0.7" 1000000 1000001
    {["login:10.0.0.7" := {| RateLimit.windowStart := 0; RateLimit.count := 3 |}]}
    ltac:(lia)))).
Defined.

Lemma credential_store_invariant_witness :
  1 <= Throttle.failures {| Throttle.failures := 2; Throttle.firstFailure := 5 |}
  /\ "ada@example.org" <> "".
Proof.
  apply (credential_store_invariant
           [ThrottleOps.Failure "ada@example.org" 5;
            ThrottleOps.Status "ada@example.org" 6;
            ThrottleOps.Failure "ada@example.org" 7]
           "ada@example.org").
  vm_compute. reflexivity.
Defined.

Lemma gate_admits_exactly_bearer_tokens_witness :
  Auth.authMiddleware Scenario.jwt (Some "Bearer signed-by-us")
  = Auth.Next {| Auth.id := "user_1"; Auth.email := "ada@example.org" |}.
Proof.
  apply (proj2 (gate_admits_exactly_bearer_tokens Scenario.jwt
                  (Some "Bearer signed-by-us")
                  {| Auth.id := "user_1"; Auth.email := "ada@example.org" |})).
  exists "signed-by-us". repeat split; reflexivity.
Defined.

(** ** Accounts *)

Section EmailFacts.
Import JS Accounts.

Lemma str_forallb_app p (a b : string) :
  str_forallb p (a +:+ b) = str_forallb p a && str_forallb p b.
Proof.
  induction a as [|c a IH]; [by rewrite str_app_nil |].
  rewrite str_app_cons. cbn. by rewrite IH, andb_assoc.
Qed.

Lemma email_char_at : email_char "@" = false.
Proof. reflexivity. Qed.

Lemma local_part_spec s : forall seen rest,
  local_part seen s = Some rest <->
  exists l, s = l +:+ String "@" rest
            /\ str_forallb email_char l = true
            /\ (seen = true \/ l <> "").
Proof.
  induction s as [|c s IH]; intros seen rest; cbn [local_part].
  - split; [discriminate |]. intros (l & Hs & _).
    destruct l; [rewrite str_app_nil in Hs | rewrite str_app_cons in Hs];
      discriminate.
  - destruct (Ascii.eqb_spec c "@") as [->|Hc].
    + split.
      * destruct seen; [| discriminate]. intros [= ->]. exists "".
        rewrite str_app_nil. auto.
      * intros (l & Hs & Hl & Hseen). destruct l as [|x l].
        -- rewrite str_app_nil in Hs. injection Hs as ->.
           destruct Hseen as [-> | Hne]; [done | by destruct Hne].
        -- rewrite str_app_cons in Hs. injection Hs as <- _.
           cbn in Hl. by rewrite email_char_at in Hl.
    + destruct (email_char c) eqn:Hclass.
      * rewrite IH. split.
        -- intros (l & -> & Hl & _). exists (String c l).
           rewrite str_app_cons. cbn. rewrite Hclass, Hl.
           repeat split; by right.
        -- intros (l & Hs & Hl & _). destruct l as [|x l].
           ++ rewrite str_app_nil in Hs. by injection Hs as -> _.
           ++ rewrite str_app_cons in Hs. injection Hs as <- ->.
              cbn in Hl. apply andb_true_iff in Hl as [_ Hl].
              exists l. auto.
      * split; [discriminate |]. intros (l & Hs & Hl & _).
        destruct l as [|x l].
        -- rewrite str_app_nil in Hs. by injection Hs as -> _.
        -- rewrite str_app_cons in Hs. injection Hs as <- _.
           cbn in Hl. by rewrite Hclass in Hl.
Qed.

Lemma dot_then_more_spec s :
  dot_then_more s = true <->
  exists a t, s = a +:+ String "." t /\ t <> "".
Proof.
  induction s as [|c s IH]; cbn [dot_then_more].
  - split; [discriminate |]. intros (a & t & Hs & _).
    destruct a; [rewrite str_app_nil in Hs | rewrite str_app_cons in Hs];
      discriminate.
  - rewrite orb_true_iff, andb_true_iff, IH. split.
    + intros [[Hc Hs] | (a & t & -> & Ht)].
      * apply Ascii.eqb_eq in Hc as ->. exists "", s. rewrite str_app_nil.
        split; [done |]. by destruct s.
      * exists (String c a), t. by rewrite str_app_cons.
    + intros (a & t & Hs & Ht). destruct a as [|x a].
      * rewrite str_app_nil in Hs. injection Hs as -> ->. left.
        split; [apply Ascii.eqb_refl | by destruct t].
      * rewrite str_app_cons in Hs. injection Hs as _ ->. right.
        by exists a, t.
Qed.

(** X15. [isValidEmail] accepts exactly the strings of at most 254
    characters that read [local@domain.tail] with three non-empty parts free
    of white space and of [@] (the dot splitting domain and tail may be any
    dot after the [@] that is followed by something); a value that is not a
    string is refused. *)
Theorem isValidEmail_accepts_exactly (v : jsval) :
  isValidEmail v = true <->
  exists l d t,
    v = JStr (l +:+ "@" +:+ d +:+ "." +:+ t)
    /\ (String.length (l +:+ "@" +:+ d +:+ "." +:+ t) <= 254)%nat
    /\ l <> "" /\ d <> "" /\ t <> ""
    /\ str_forallb email_char l = true
    /\ str_forallb email_char d = true
    /\ str_forallb email_char t = true.
Proof.
  split.
  - destruct v as [| | | |s|]; try discriminate. cbn [isValidEmail].
    rewrite andb_true_iff. intros [Hregex Hlen]. apply Nat.leb_le in Hlen.
    unfold emailRegex in Hregex.
    destruct (local_part false s) as [rest|] eqn:Hlocal; [| discriminate].
    apply local_part_spec in Hlocal as (l & -> & Hl & [Hseen | Hne]);
      [discriminate |].
    unfold domain_part in Hregex. apply andb_true_iff in Hregex as [Hclass Hdot].
    destruct rest as [|c rest]; [discriminate |].
    apply dot_then_more_spec in Hdot as (a & t & -> & Ht).
    cbn in Hclass. apply andb_true_iff in Hclass as [Hc Hclass].
    rewrite str_forallb_app in Hclass. apply andb_true_iff in Hclass as [Ha Htail].
    cbn in Htail. exists l, (String c a), t.
    change (l +:+ "@" +:+ String c a +:+ "." +:+ t)
      with (l +:+ String "@" (String c (a +:+ String "." t))).
    apply andb_true_iff in Htail as [_ Htail].
    repeat split; try done. cbn. by rewrite Hc, Ha.
  - intros (l & d & t & -> & Hlen & Hl & Hd & Ht & Hcl & Hcd & Hct).
    cbn [isValidEmail]. apply andb_true_iff. split; [| by apply Nat.leb_le].
    unfold emailRegex.
    assert (Hlocal : local_part false (l +:+ "@" +:+ d +:+ "." +:+ t)
                     = Some (d +:+ "." +:+ t)).
    { apply local_part_spec. exists l. repeat split; [done | by right]. }
    rewrite Hlocal. unfold domain_part. apply andb_true_iff. split.
    + change (d +:+ "." +:+ t) with (d +:+ String "." t).
      rewrite str_forallb_app, Hcd. cbn. by rewrite Hct.
    + destruct d as [|c d]; [done |].
      change (String c d +:+ "." +:+ t) with (String c (d +:+ String "." t)).
      apply dot_then_more_spec. by exists d, t.
Qed.

(** An accepted address is never the empty string: the throttle, which
    ignores an empty key, counts every address the login handler hands
    it. *)
Lemma valid_email_not_empty s : isValidEmail (JStr s) = true -> s <> "".
Proof.
  intros H ->. discriminate H.
Qed.

End EmailFacts.

Lemma isValidEmail_accepts_exactly_witness :
  Accounts.isValidEmail (JS.JStr "ada@example.org") = true.
Proof.
  apply (proj2 (isValidEmail_accepts_exactly (JS.JStr "ada@example.org"))).
  exists "ada", "example", "org". repeat split; try discriminate.
  apply Nat.leb_le. reflexivity.
Defined.

Section AccountsMore.
Import JS Accounts.

Variable bcrypt_compare : string -> string -> Awaited bool.
Variable signToken : Z -> Auth.Identity -> string.
Variable jwt_verify : string -> Auth.JwtError + Auth.Identity.

Lemma users_get_set_eq k u users : users_get k (users_set k u users) = Some u.
Proof.
  induction users as [|[k' v] users IH]; cbn.
  - by rewrite String.eqb_refl.
  - destruct (String.eqb k' k) eqn:Hk; cbn; by rewrite Hk.
Qed.

Lemma users_get_set_ne k k' u users :
  k <> k' -> users_get k' (users_set k u users) = users_get k' users.
Proof.
  intros Hne. induction users as [|[k0 v] users IH]; cbn.
  - by destruct (String.eqb_spec k k').
  - destruct (String.eqb_spec k0 k) as [->|Hk]; cbn.
    + by destruct (String.eqb_spec k k').
    + by rewrite IH.
Qed.

Lemma users_has_get k users :
  users_has k users = false <-> users_get k users = None.
Proof. unfold users_has. by destruct (users_get k users). Qed.

Lemma normalizeEmail_empty : normalizeEmail "" = "".
Proof. reflexivity. Qed.

Lemma register_key_is_not_login_key a b : "register:" +:+ a <> "login:" +:+ b.
Proof. intros H. discriminate H. Qed.

Lemma is_string_inv v : is_string v = true -> exists s, v = JStr s.
Proof. destruct v; try discriminate. by eexists. Qed.

(** What [register_start] has checked when it goes on to hash the
    password. *)
Lemma register_start_await peer req now srv e p srv' :
  register_start peer req now srv = (Await (e, p), srv') ->
  exists raw remaining,
    body_email req = JStr raw /\ body_password req = JStr p
    /\ e = normalizeEmail raw
    /\ isValidEmail (JStr e) = true /\ isValidPassword (JStr p) = true
    /\ (RateLimit.rateLimit ("register:" +:+ client_ip peer) now (rateLimitStore srv)).1
       = RateLimit.Allowed remaining
    /\ srv' = with_rateLimitStore
                (RateLimit.rateLimit ("register:" +:+ client_ip peer) now
                   (rateLimitStore srv)).2 srv.
Proof.
  unfold register_start. intros H.
  destruct (negb (truthy (body_email req)) || negb (truthy (body_password req)));
    [discriminate |].
  destruct (negb (is_string (body_email req)) || negb (is_string (body_password req)))
    eqn:Hstr; [discriminate |].
  apply orb_false_iff in Hstr as [He Hp].
  apply negb_false_iff, is_string_inv in He as [raw He].
  apply negb_false_iff, is_string_inv in Hp as [pw Hp].
  rewrite He, Hp in H. cbn [str_of] in H.
  destruct (isValidEmail (JStr (normalizeEmail raw))) eqn:Hemail; [| discriminate].
  destruct (isValidPassword (JStr pw)) eqn:Hpass; [| discriminate].
  cbn [negb] in H.
  destruct (RateLimit.rateLimit ("register:" +:+ client_ip peer) now (rateLimitStore srv))
    as [[remaining|retryAfter] store] eqn:Hrate; [| discriminate].
  injection H as <- <- <-. exists raw, remaining. by rewrite He, Hp.
Qed.

(** The answers [register_start] gives itself: 400 without a change of the
    state, or 429 from the limiter. *)
Lemma register_start_done peer req now srv res srv' :
  register_start peer req now srv = (Done res, srv') ->
  (status res = 400 /\ srv' = srv)
  \/ (status res = 429
      /\ srv' = with_rateLimitStore
                  (RateLimit.rateLimit ("register:" +:+ client_ip peer) now
                     (rateLimitStore srv)).2 srv).
Proof.
  unfold register_start. intros H.
  destruct (negb (truthy (body_email req)) || negb (truthy (body_password req)));
    [injection H as <- <-; by left |].
  destruct (negb (is_string (body_email req)) || negb (is_string (body_password req)));
    [injection H as <- <-; by left |].
  destruct (negb (isValidEmail (JStr (normalizeEmail (str_of (body_email req))))));
    [injection H as <- <-; by left |].
  destruct (negb (isValidPassword (JStr (str_of (body_password req)))));
    [injection H as <- <-; by left |].
  destruct (RateLimit.rateLimit ("register:" +:+ client_ip peer) now (rateLimitStore srv))
    as [[remaining|retryAfter] store] eqn:Hrate; [discriminate |].
  injection H as <- <-. by right.
Qed.

Lemma login_start_await peer req now now' srv e p srv' :
  login_start peer req now now' srv = (Await (e, p), srv') ->
  exists raw remaining,
    body_email req = JStr raw /\ body_password req = JStr p
    /\ e = normalizeEmail raw
    /\ isValidEmail (JStr e) = true
    /\ (RateLimit.rateLimit ("login:" +:+ client_ip peer) now (rateLimitStore srv)).1
       = RateLimit.Allowed remaining
    /\ (Throttle.getCredentialThrottle e now' (credentialThrottleStore srv)).1
       = Throttle.NotBlocked
    /\ srv' = with_credentialThrottleStore
                (Throttle.getCredentialThrottle e now' (credentialThrottleStore srv)).2
                (with_rateLimitStore
                   (RateLimit.rateLimit ("login:" +:+ client_ip peer) now
                      (rateLimitStore srv)).2 srv).
Proof.
  unfold login_start. intros H.
  destruct (negb (truthy (body_email req)) || negb (truthy (body_password req)));
    [discriminate |].
  destruct (negb (is_string (body_email req)) || negb (is_string (body_password req)))
    eqn:Hstr; [discriminate |].
  apply orb_false_iff in Hstr as [He Hp].
  apply negb_false_iff, is_string_inv in He as [raw He].
  apply negb_false_iff, is_string_inv in Hp as [pw Hp].
  rewrite He, Hp in H. cbn [str_of] in H.
  destruct (isValidEmail (JStr (normalizeEmail raw))) eqn:Hemail; [| discriminate].
  cbn [negb] in H.
  destruct (RateLimit.rateLimit ("login:" +:+ client_ip peer) now (rateLimitStore srv))
    as [[remaining|retryAfter] store] eqn:Hrate; [| discriminate].
  cbn [with_rateLimitStore credentialThrottleStore] in H.
  destruct (Throttle.getCredentialThrottle (normalizeEmail raw) now'
              (credentialThrottleStore srv))
    as [[|retryAfter] failures] eqn:Hthrottle; [| discriminate].
  injection H as <- <- <-. exists raw, remaining. rewrite Hthrottle.
  repeat split; done.
Qed.

Lemma login_start_done peer req now now' srv res srv' :
  login_start peer req now now' srv = (Done res, srv') ->
  (status res = 400 /\ srv' = srv)
  \/ (status res = 429
      /\ inMemoryUsers srv' = inMemoryUsers srv
      /\ (credentialThrottleStore srv' = credentialThrottleStore srv
          \/ credentialThrottleStore srv'
             = (Throttle.getCredentialThrottle
                  (normalizeEmail (str_of (body_email req))) now'
                  (credentialThrottleStore srv)).2)).
Proof.
  intros H. unfold login_start in H.
  set (e := normalizeEmail (str_of (body_email req))) in *.
  destruct (negb (truthy (body_email req)) || negb (truthy (body_password req)));
    [injection H as <- <-; by left |].
  destruct (negb (is_string (body_email req)) || negb (is_string (body_password req)));
    [injection H as <- <-; by left |].
  destruct (negb (isValidEmail (JStr e))); [injection H as <- <-; by left |].
  destruct (RateLimit.rateLimit ("login:" +:+ client_ip peer) now (rateLimitStore srv))
    as [[remaining|retryAfter] store] eqn:Hrate.
  - cbn [with_rateLimitStore credentialThrottleStore] in H.
    destruct (Throttle.getCredentialThrottle e now' (credentialThrottleStore srv))
      as [[|retryAfter] failures] eqn:Hthrottle; [discriminate |].
    injection H as <- <-. right. cbn. auto.
  - injection H as <- <-. right. cbn. auto.
Qed.

(** When [login_start] goes on to the lookup. *)
Lemma login_start_proceeds peer req now now' srv raw p remaining :
  body_email req = JStr raw -> body_password req = JStr p -> p <> "" ->
  isValidEmail (JStr (normalizeEmail raw)) = true ->
  (RateLimit.rateLimit ("login:" +:+ client_ip peer) now (rateLimitStore srv)).1
  = RateLimit.Allowed remaining ->
  (Throttle.getCredentialThrottle (normalizeEmail raw) now'
     (credentialThrottleStore srv)).1 = Throttle.NotBlocked ->
  login_start peer req now now' srv
  = (Await (normalizeEmail raw, p),
     with_credentialThrottleStore
       (Throttle.getCredentialThrottle (normalizeEmail raw) now'
          (credentialThrottleStore srv)).2
       (with_rateLimitStore
          (RateLimit.rateLimit ("login:" +:+ client_ip peer) now
             (rateLimitStore srv)).2 srv)).
Proof.
  intros He Hp Hpw Hvalid Hrate Hthrottle. unfold login_start.
  rewrite He, Hp. cbn [truthy is_string str_of negb orb].
  destruct raw as [|c raw]; [by rewrite normalizeEmail_empty in Hvalid |].
  destruct p as [|c' p]; [done |]. cbn [is_empty negb orb].
  rewrite Hvalid. cbn [negb].
  destruct (RateLimit.rateLimit ("login:" +:+ client_ip peer) now (rateLimitStore srv))
    as [result store]. cbn [fst snd] in *. subst result.
  cbn [with_rateLimitStore credentialThrottleStore].
  destruct (Throttle.getCredentialThrottle (normalizeEmail (String c raw)) now'
              (credentialThrottleStore srv)) as [status failures].
  cbn [fst snd] in *. by subst status.
Qed.

Lemma getCredentialThrottle_only_forgets key now
    (store : gmap string Throttle.FailureRecord) k r :
  (Throttle.getCredentialThrottle key now store).2 !! k = Some r ->
  store !! k = Some r.
Proof.
  unfold Throttle.getCredentialThrottle.
  destruct (Throttle.no_key key); [done |].
  destruct (store !! key) as [record|]; [| done].
  destruct (now - Throttle.firstFailure record >? Throttle.CREDENTIAL_WINDOW_MS).
  - cbn. intros H. by apply lookup_delete_Some in H as [_ H].
  - by destruct (Throttle.failures record >=? Throttle.CREDENTIAL_MAX_FAILURES).
Qed.

Lemma register_failure_status code :
  status (register_failure code) = 409 \/ status (register_failure code) = 500.
Proof.
  unfold register_failure.
  destruct (match code with Some c => c =? 11000 | None => false end); auto.
Qed.

(** What [register_finish] leaves alone, and the answers it can give. *)
Lemma register_finish_frame e hashed saved now signed_at srv :
  let out := register_finish signToken e hashed saved now signed_at srv in
  rateLimitStore out.2 = rateLimitStore srv
  /\ credentialThrottleStore out.2 = credentialThrottleStore srv
  /\ mongoConnected out.2 = mongoConnected srv
  /\ (status out.1 = 200 \/ status out.1 = 409 \/ status out.1 = 500).
Proof.
  unfold register_finish.
  destruct hashed as [h|code]; cbn zeta.
  - destruct (mongoConnected srv) eqn:Hmongo.
    + destruct saved as [user|code]; cbn; [repeat split; auto |].
      destruct (register_failure_status code) as [-> | ->]; repeat split; auto.
    + destruct (users_has e (inMemoryUsers srv)); cbn; repeat split; auto.
  - cbn. destruct (register_failure_status code) as [-> | ->]; repeat split; auto.
Qed.

Lemma login_lookup_frame e found now srv :
  let out := login_lookup e found now srv in
  rateLimitStore out.2 = rateLimitStore srv
  /\ inMemoryUsers out.2 = inMemoryUsers srv
  /\ mongoConnected out.2 = mongoConnected srv.
Proof.
  unfold login_lookup.
  destruct (if mongoConnected srv then found
            else Fulfilled (users_get e (inMemoryUsers srv))) as [[user|]|code];
    by cbn.
Qed.

Lemma login_finish_frame e user ok now signed_at srv :
  let out := login_finish signToken e user ok now signed_at srv in
  rateLimitStore out.2 = rateLimitStore srv
  /\ inMemoryUsers out.2 = inMemoryUsers srv
  /\ mongoConnected out.2 = mongoConnected srv.
Proof.
  unfold login_finish. by destruct ok as [[|]|code].
Qed.

(** X16. A request with a malformed body costs nothing: when registration
    or login answers 400, no counter of the limiter has moved, no failure
    has been recorded and no account was written.  The checks of the body
    come before the limiter, and nothing after it answers 400. *)
Theorem malformed_request_changes_nothing peer req clock hashed saved found srv :
  (status (post_api_register signToken peer req clock hashed saved srv).1 = 400 ->
   (post_api_register signToken peer req clock hashed saved srv).2 = srv)
  /\ (status (post_api_login bcrypt_compare signToken peer req clock found srv).1 = 400 ->
      (post_api_login bcrypt_compare signToken peer req clock found srv).2 = srv).
Proof.
  split.
  - unfold post_api_register.
    destruct (register_start peer req (at_limit clock) srv)
      as [[res|[e p]] srv1] eqn:Hstart.
    + apply register_start_done in Hstart as [[_ ->] | [Hres _]]; [done |].
      cbn. rewrite Hres. discriminate.
    + intros H400.
      destruct (register_finish_frame e hashed saved (at_write clock)
                  (at_sign clock) srv1) as (_ & _ & _ & [H | [H | H]]);
        cbn zeta in H; rewrite H in H400; discriminate.
  - unfold post_api_login.
    destruct (login_start peer req (at_limit clock) (at_throttle clock) srv)
      as [[res|[e p]] srv1] eqn:Hstart.
    + apply login_start_done in Hstart as [[_ ->] | [Hres _]]; [done |].
      cbn. rewrite Hres. discriminate.
    + unfold login_lookup.
      destruct (if mongoConnected srv1 then found
                else Fulfilled (users_get e (inMemoryUsers srv1)))
        as [[user|]|code]; [| discriminate | discriminate].
      unfold login_finish.
      destruct (bcrypt_compare p (password_hash user)) as [[|]|code]; discriminate.
Qed.

(** X17. Finishing a registration never overwrites or removes an account,
    whatever state it finds when the hash is ready, and touches neither
    the limiter nor the failure records.  Without MongoDB it answers 200
    only for an address that had no account, which then has one with the
    hash and the id [user_<clock>]; for an address that has one it answers
    409 when the hash succeeded. *)
Theorem registration_keeps_existing_accounts e hashed saved now signed_at srv
    res srv' :
  register_finish signToken e hashed saved now signed_at srv = (res, srv') ->
  (forall k u, users_get k (inMemoryUsers srv) = Some u ->
               users_get k (inMemoryUsers srv') = Some u)
  /\ rateLimitStore srv' = rateLimitStore srv
  /\ credentialThrottleStore srv' = credentialThrottleStore srv
  /\ (mongoConnected srv = false -> status res = 200 ->
      users_get e (inMemoryUsers srv) = None
      /\ exists h, hashed = Fulfilled h
           /\ users_get e (inMemoryUsers srv')
              = Some {| id := "user_" +:+ show_Z now; email := e;
                        password_hash := h |})
  /\ (mongoConnected srv = false ->
      forall h u, hashed = Fulfilled h -> users_get e (inMemoryUsers srv) = Some u ->
      res = {| status := 409; body := Error "User already exists" |}
      /\ srv' = srv).
Proof.
  intros Hfinish.
  pose proof (register_finish_frame e hashed saved now signed_at srv) as Hframe.
  cbn zeta in Hframe. rewrite Hfinish in Hframe.
  destruct Hframe as (Hrate & Hcred & _ & _). cbn [fst snd] in *.
  unfold register_finish in Hfinish.
  destruct hashed as [h|code].
  - destruct (mongoConnected srv) eqn:Hmongo.
    + destruct saved as [user|code]; injection Hfinish as <- <-;
        split_and!; done.
    + destruct (users_has e (inMemoryUsers srv)) eqn:Hhas.
      * injection Hfinish as <- <-. split_and!; done.
      * apply users_has_get in Hhas. injection Hfinish as <- <-.
        cbn [inMemoryUsers with_inMemoryUsers status].
        split_and!; try done.
        -- intros k u Hk. rewrite users_get_set_ne; [done |].
           intros ->. by rewrite Hhas in Hk.
        -- intros _ _. split; [done |]. exists h. by rewrite users_get_set_eq.
        -- intros _ h' u _ Hu. by rewrite Hhas in Hu.
  - injection Hfinish as <- <-. split_and!; try done.
    intros _ Hstatus.
    destruct (register_failure_status code) as [H | H]; rewrite H in Hstatus;
      discriminate.
Qed.

Lemma valid_password_not_empty p : isValidPassword (JStr p) = true -> p <> "".
Proof. intros H ->. discriminate H. Qed.

Lemma valid_email_is_key e : isValidEmail (JStr e) = true -> Throttle.no_key e = false.
Proof. destruct e; [discriminate | done]. Qed.

(** X18. Register, then log in: without MongoDB, after a registration
    answered 200 a login with the same body is answered 200 with a token
    for the id that the registration returned and the normalized address,
    and leaves no failure record for the address.  It is assumed that
    [bcrypt.compare] accepts the password against the stored hash, that the
    limiter has quota left for the caller's address (registrations do not
    use it up) and that the address is not locked. *)
Theorem register_then_login peer req clock hashed saved srv peer' clock' found
    remaining :
  mongoConnected srv = false ->
  status (post_api_register signToken peer req clock hashed saved srv).1 = 200 ->
  (forall h, hashed = Fulfilled h ->
             bcrypt_compare (str_of (body_password req)) h = Fulfilled true) ->
  (RateLimit.rateLimit ("login:" +:+ client_ip peer') (at_limit clock')
     (rateLimitStore srv)).1 = RateLimit.Allowed remaining ->
  (Throttle.getCredentialThrottle (normalizeEmail (str_of (body_email req)))
     (at_throttle clock') (credentialThrottleStore srv)).1 = Throttle.NotBlocked ->
  body (post_api_register signToken peer req clock hashed saved srv).1
  = Registered ("user_" +:+ show_Z (at_write clock))
      (signToken (at_sign clock)
         {| Auth.id := "user_" +:+ show_Z (at_write clock);
            Auth.email := normalizeEmail (str_of (body_email req)) |})
  /\ (post_api_login bcrypt_compare signToken peer' req clock' found
        (post_api_register signToken peer req clock hashed saved srv).2).1
     = {| status := 200;
          body := Token
            (signToken (at_sign clock')
               {| Auth.id := "user_" +:+ show_Z (at_write clock);
                  Auth.email := normalizeEmail (str_of (body_email req)) |}) |}
  /\ credentialThrottleStore
       (post_api_login bcrypt_compare signToken peer' req clock' found
          (post_api_register signToken peer req clock hashed saved srv).2).2
     !! normalizeEmail (str_of (body_email req)) = None.
Proof.
  intros Hmongo H200 Hcompare Hrate Hthrottle.
  unfold post_api_register in *.
  destruct (register_start peer req (at_limit clock) srv)
    as [[res|[e p]] srv1] eqn:Hstart.
  { apply register_start_done in Hstart as [[Hres _] | [Hres _]];
      cbn in H200; rewrite Hres in H200; discriminate. }
  apply register_start_await in Hstart
    as (raw & rem & He & Hp & -> & Hvalid & Hpass & _ & ->).
  rewrite He, Hp in *. cbn [str_of] in *.
  unfold register_finish in *.
  destruct hashed as [h|code]; cycle 1.
  { destruct (register_failure_status code) as [H | H]; cbn in H200;
      rewrite H in H200; discriminate. }
  specialize (Hcompare h eq_refl).
  cbn [mongoConnected with_rateLimitStore inMemoryUsers] in *.
  rewrite Hmongo in *.
  destruct (users_has (normalizeEmail raw) (inMemoryUsers srv)); [discriminate |].
  cbn [fst snd body]. split; [done |].
  set (store1 := (RateLimit.rateLimit ("register:" +:+ client_ip peer)
                    (at_limit clock) (rateLimitStore srv)).2).
  set (account := {| id := "user_" +:+ show_Z (at_write clock);
                     email := normalizeEmail raw; password_hash := h |}).
  set (srv2 := with_inMemoryUsers _ _).
  assert (Hrate2 : (RateLimit.rateLimit ("login:" +:+ client_ip peer')
                      (at_limit clock') (rateLimitStore srv2)).1
                   = RateLimit.Allowed remaining).
  { rewrite <- Hrate. apply rateLimit_local. cbn.
    apply rateLimit_other_key, register_key_is_not_login_key. }
  unfold post_api_login.
  rewrite (login_start_proceeds peer' req (at_limit clock') (at_throttle clock')
             srv2 raw p remaining He Hp (valid_password_not_empty p Hpass)
             Hvalid Hrate2 Hthrottle).
  unfold login_lookup.
  cbn [mongoConnected inMemoryUsers with_credentialThrottleStore
       with_rateLimitStore with_inMemoryUsers srv2].
  rewrite Hmongo, users_get_set_eq.
  unfold login_finish. cbn [password_hash account]. rewrite Hcompare.
  cbn [fst snd credentialThrottleStore with_credentialThrottleStore id email].
  split; [done |]. unfold Throttle.resetCredentialFailures.
  apply lookup_delete_eq.
Qed.

(** X19. What a login does to the failure records, by its answer.  A 401
    always carries the message [Invalid credentials], whether the address
    has no account or the password is wrong, and records one failure for
    the normalized address; a 200 removes the record of the address; any
    answer other than 401 adds or changes no record.  No login writes an
    account. *)
Theorem login_answer_and_failure_count peer req clock found srv res srv' :
  post_api_login bcrypt_compare signToken peer req clock found srv = (res, srv') ->
  inMemoryUsers srv' = inMemoryUsers srv
  /\ (status res = 401 ->
      body res = Error "Invalid credentials"
      /\ credentialThrottleStore srv'
         = Throttle.recordCredentialFailure
             (normalizeEmail (str_of (body_email req))) (at_write clock)
             (Throttle.getCredentialThrottle
                (normalizeEmail (str_of (body_email req))) (at_throttle clock)
                (credentialThrottleStore srv)).2)
  /\ (status res = 200 ->
      credentialThrottleStore srv' !! normalizeEmail (str_of (body_email req)) = None)
  /\ (status res <> 401 ->
      forall k r, credentialThrottleStore srv' !! k = Some r ->
                  credentialThrottleStore srv !! k = Some r).
Proof.
  unfold post_api_login. intros H.
  destruct (login_start peer req (at_limit clock) (at_throttle clock) srv)
    as [[res0|[e p]] srv1] eqn:Hstart.
  - injection H as <- <-.
    apply login_start_done in Hstart
      as [[Hres ->] | (Hres & Husers & [Hcred | Hcred])];
      (split_and!; [done | by rewrite Hres | by rewrite Hres |]);
      intros _ k r Hk; try done.
    + by rewrite Hcred in Hk.
    + rewrite Hcred in Hk. by apply getCredentialThrottle_only_forgets in Hk.
  - apply login_start_await in Hstart
      as (raw & rem & He & Hp & -> & Hvalid & _ & _ & ->).
    rewrite He in *. cbn [str_of] in *.
    unfold login_lookup in H.
    cbn [mongoConnected inMemoryUsers credentialThrottleStore
         with_credentialThrottleStore with_rateLimitStore] in H.
    destruct (if mongoConnected srv then found
              else Fulfilled (users_get (normalizeEmail raw) (inMemoryUsers srv)))
      as [[user|]|code].
    + unfold login_finish in H.
      cbn [credentialThrottleStore with_credentialThrottleStore] in H.
      destruct (bcrypt_compare p (password_hash user)) as [[|]|code];
        injection H as <- <-;
        cbn [status body inMemoryUsers credentialThrottleStore
             with_credentialThrottleStore with_rateLimitStore];
        split_and!; try done.
      * intros _. apply lookup_delete_eq.
      * intros _ k r Hk. unfold Throttle.resetCredentialFailures in Hk.
        apply lookup_delete_Some in Hk as [_ Hk].
        by apply getCredentialThrottle_only_forgets in Hk.
      * intros _ k r Hk. by apply getCredentialThrottle_only_forgets in Hk.
    + injection H as <- <-.
      cbn [status body inMemoryUsers credentialThrottleStore
           with_credentialThrottleStore with_rateLimitStore].
      split_and!; done.
    + injection H as <- <-.
      cbn [status body inMemoryUsers credentialThrottleStore
           with_credentialThrottleStore with_rateLimitStore].
      split_and!; try done.
      intros _ k r Hk. by apply getCredentialThrottle_only_forgets in Hk.
Qed.

(** X20. A locked address is refused whatever the password: with five or
    more failures on record and the window still open, a login for the
    address is answered 429, also with the right password, and the record
    stays as it is.  When the limiter lets the caller through, the answer
    names the account lock and the seconds left in the window. *)
Theorem locked_account_refuses_any_password peer req clock found srv raw p record :
  body_email req = JStr raw -> body_password req = JStr p -> p <> "" ->
  isValidEmail (JStr (normalizeEmail raw)) = true ->
  credentialThrottleStore srv !! normalizeEmail raw = Some record ->
  Throttle.CREDENTIAL_MAX_FAILURES <= Throttle.failures record ->
  at_throttle clock - Throttle.firstFailure record <= Throttle.CREDENTIAL_WINDOW_MS ->
  status (post_api_login bcrypt_compare signToken peer req clock found srv).1 = 429
  /\ credentialThrottleStore
       (post_api_login bcrypt_compare signToken peer req clock found srv).2
     = credentialThrottleStore srv
  /\ (forall remaining,
        (RateLimit.rateLimit ("login:" +:+ client_ip peer) (at_limit clock)
           (rateLimitStore srv)).1 = RateLimit.Allowed remaining ->
        (post_api_login bcrypt_compare signToken peer req clock found srv).1
        = {| status := 429;
             body := ErrorRetry
               "Too many failed login attempts for this account. Please try again later."
               (ceil_div (Throttle.CREDENTIAL_WINDOW_MS
                          - (at_throttle clock - Throttle.firstFailure record)) 1000) |}).
Proof.
  intros He Hp Hpw Hvalid Hrecord Hmany Hopen.
  unfold post_api_login, login_start.
  rewrite He, Hp. cbn [truthy is_string str_of negb orb].
  destruct raw as [|c raw]; [by rewrite normalizeEmail_empty in Hvalid |].
  destruct p as [|c' p]; [done |]. cbn [is_empty negb orb].
  rewrite Hvalid. cbn [negb].
  destruct (RateLimit.rateLimit ("login:" +:+ client_ip peer) (at_limit clock)
              (rateLimitStore srv)) as [[rem|retryAfter] store].
  - cbn [with_rateLimitStore credentialThrottleStore].
    unfold Throttle.getCredentialThrottle.
    rewrite (valid_email_is_key _ Hvalid), Hrecord.
    destruct (Z.gtb_spec (at_throttle clock - Throttle.firstFailure record)
                Throttle.CREDENTIAL_WINDOW_MS) as [Hgt|_]; [lia |].
    destruct (Z.geb_spec (Throttle.failures record) Throttle.CREDENTIAL_MAX_FAILURES)
      as [_|Hlt]; [| lia].
    cbn. split_and!; done.
  - cbn. split_and!; done.
Qed.

(** X21. Registration and login count against different keys of the
    limiter: a registration moves no counter but [register:<address>] and a
    login none but [login:<address>], so neither uses up the quota of the
    other or of another address. *)
Theorem handlers_touch_their_own_counter_only peer req clock hashed saved found
    srv k :
  (k <> "register:" +:+ client_ip peer ->
   rateLimitStore (post_api_register signToken peer req clock hashed saved srv).2 !! k
   = rateLimitStore srv !! k)
  /\ (k <> "login:" +:+ client_ip peer ->
      rateLimitStore
        (post_api_login bcrypt_compare signToken peer req clock found srv).2 !! k
      = rateLimitStore srv !! k).
Proof.
  split; intros Hk.
  - unfold post_api_register.
    destruct (register_start peer req (at_limit clock) srv)
      as [[res|[e p]] srv1] eqn:Hstart.
    + apply register_start_done in Hstart as [[_ ->] | [_ ->]]; [done |].
      cbn. by apply rateLimit_other_key.
    + apply register_start_await in Hstart as (_ & _ & _ & _ & _ & _ & _ & _ & ->).
      destruct (register_finish_frame e hashed saved (at_write clock)
                  (at_sign clock)
                  (with_rateLimitStore
                     (RateLimit.rateLimit ("register:" +:+ client_ip peer)
                        (at_limit clock) (rateLimitStore srv)).2 srv))
        as (Hsame & _).
      cbn zeta in Hsame. rewrite Hsame. cbn. by apply rateLimit_other_key.
  - unfold post_api_login.
    destruct (login_start peer req (at_limit clock) (at_throttle clock) srv)
      as [[res|[e p]] srv1] eqn:Hstart.
    + unfold login_start in Hstart.
      destruct (negb (truthy (body_email req)) || negb (truthy (body_password req)));
        [by injection Hstart as _ <- |].
      destruct (negb (is_string (body_email req))
                || negb (is_string (body_password req)));
        [by injection Hstart as _ <- |].
      destruct (negb (isValidEmail
                        (JStr (normalizeEmail (str_of (body_email req))))));
        [by injection Hstart as _ <- |].
      pose proof (rateLimit_other_key ("login:" +:+ client_ip peer) k
                    (at_limit clock) (rateLimitStore srv) (not_eq_sym Hk)) as Hother.
      destruct (RateLimit.rateLimit ("login:" +:+ client_ip peer) (at_limit clock)
                  (rateLimitStore srv)) as [[rem|retryAfter] store].
      * cbn [with_rateLimitStore credentialThrottleStore] in Hstart.
        destruct (Throttle.getCredentialThrottle
                    (normalizeEmail (str_of (body_email req))) (at_throttle clock)
                    (credentialThrottleStore srv)) as [[|retryAfter] failures];
          [discriminate |].
        by injection Hstart as _ <-.
      * by injection Hstart as _ <-.
    + apply login_start_await in Hstart as (_ & _ & _ & _ & _ & _ & _ & _ & ->).
      set (srv1 := with_credentialThrottleStore _ _).
      destruct (login_lookup_frame e found (at_write clock) srv1) as (Hlookup & _).
      cbn zeta in Hlookup.
      destruct (login_lookup e found (at_write clock) srv1) as [[res|user] srv2].
      * cbn [fst snd] in *. rewrite Hlookup. cbn.
        by apply rateLimit_other_key.
      * destruct (login_finish_frame e user (bcrypt_compare p (password_hash user))
                    (at_write clock) (at_sign clock) srv2) as (Hfinish & _).
        cbn zeta in Hfinish. cbn [fst snd] in *. rewrite Hfinish, Hlookup. cbn.
        by apply rateLimit_other_key.
Qed.

(** The loop of [/api/me] after [set] has added a new key: an earlier
    user with the id is found first. *)
Lemma find_by_id_set_absent wanted e account users :
  users_get e users = None ->
  find_by_id wanted (users_set e account users)
  = match find_by_id wanted users with
    | Some earlier => Some earlier
    | None => if String.eqb (id account) wanted then Some account else None
    end.
Proof.
  unfold find_by_id, users_values.
  induction users as [|[k v] users IH]; cbn; [done |].
  destruct (String.eqb k e) eqn:Hk; [discriminate |]. intros Hget. cbn.
  destruct (String.eqb (id v) wanted); [done |]. by apply IH.
Qed.

Lemma register_finish_in_memory e h saved now signed_at srv :
  mongoConnected srv = false ->
  users_get e (inMemoryUsers srv) = None ->
  register_finish signToken e (Fulfilled h) saved now signed_at srv
  = ({| status := 200;
        body := Registered ("user_" +:+ show_Z now)
                  (signToken signed_at
                     {| Auth.id := "user_" +:+ show_Z now; Auth.email := e |}) |},
     with_inMemoryUsers
       (users_set e {| id := "user_" +:+ show_Z now; email := e;
                       password_hash := h |} (inMemoryUsers srv))
       srv).
Proof.
  intros Hmongo Hget. unfold register_finish, users_has.
  by rewrite Hmongo, Hget.
Qed.

(** X22. Who [/api/me] answers with after a registration without MongoDB.
    The lookup goes by the id of the token alone and takes the first
    account with that id in the order of registration: for a token with
    the id just handed out it is the new account, with the normalized
    address, when no earlier account has that id, and the earlier account
    otherwise. *)
Theorem me_after_registration e h saved now signed_at srv authorization found
    claimed :
  mongoConnected srv = false ->
  users_get e (inMemoryUsers srv) = None ->
  Auth.authMiddleware jwt_verify authorization
  = Auth.Next {| Auth.id := "user_" +:+ show_Z now; Auth.email := claimed |} ->
  get_api_me jwt_verify authorization found
    (register_finish signToken e (Fulfilled h) saved now signed_at srv).2
  = match find_by_id ("user_" +:+ show_Z now) (inMemoryUsers srv) with
    | Some earlier => {| status := 200; body := Me (id earlier) (email earlier) |}
    | None => {| status := 200; body := Me ("user_" +:+ show_Z now) e |}
    end.
Proof.
  intros Hmongo Hget Hgate.
  rewrite (register_finish_in_memory e h saved now signed_at srv Hmongo Hget).
  unfold get_api_me. rewrite Hgate.
  cbn [snd mongoConnected inMemoryUsers with_inMemoryUsers Auth.id].
  rewrite Hmongo, (find_by_id_set_absent _ _ _ _ Hget).
  destruct (find_by_id ("user_" +:+ show_Z now) (inMemoryUsers srv)); [done |].
  cbn [id]. by rewrite String.eqb_refl.
Qed.

(** X23. Two registrations finished at the same clock reading get the same
    id: without MongoDB, when two different addresses are registered at
    one reading of the clock and no earlier account has the id, both are
    answered 200 with the id [user_<clock>], and [/api/me] with the token
    of the second answers with the address of the first. *)
Theorem same_clock_registrations_share_an_id e1 e2 h1 h2 saved now signed1 signed2
    srv authorization found :
  mongoConnected srv = false ->
  e1 <> e2 ->
  users_get e1 (inMemoryUsers srv) = None ->
  users_get e2 (inMemoryUsers srv) = None ->
  find_by_id ("user_" +:+ show_Z now) (inMemoryUsers srv) = None ->
  Auth.authMiddleware jwt_verify authorization
  = Auth.Next {| Auth.id := "user_" +:+ show_Z now; Auth.email := e2 |} ->
  (register_finish signToken e2 (Fulfilled h2) saved now signed2
     (register_finish signToken e1 (Fulfilled h1) saved now signed1 srv).2).1
  = {| status := 200;
       body := Registered ("user_" +:+ show_Z now)
                 (signToken signed2
                    {| Auth.id := "user_" +:+ show_Z now; Auth.email := e2 |}) |}
  /\ get_api_me jwt_verify authorization found
       (register_finish signToken e2 (Fulfilled h2) saved now signed2
          (register_finish signToken e1 (Fulfilled h1) saved now signed1 srv).2).2
     = {| status := 200; body := Me ("user_" +:+ show_Z now) e1 |}.
Proof.
  intros Hmongo Hne Hget1 Hget2 Hnone Hgate.
  rewrite (register_finish_in_memory e1 h1 saved now signed1 srv Hmongo Hget1).
  cbn [snd].
  set (first := {| id := "user_" +:+ show_Z now; email := e1; password_hash := h1 |}).
  set (users1 := users_set e1 first (inMemoryUsers srv)).
  assert (Hget2' : users_get e2 users1 = None).
  { unfold users1. by rewrite users_get_set_ne. }
  rewrite (register_finish_in_memory e2 h2 saved now signed2
             (with_inMemoryUsers users1 srv) Hmongo Hget2').
  split; [done |]. unfold get_api_me. rewrite Hgate.
  cbn [snd mongoConnected inMemoryUsers with_inMemoryUsers Auth.id].
  rewrite Hmongo, (find_by_id_set_absent _ _ _ _ Hget2'). unfold users1.
  rewrite (find_by_id_set_absent _ _ _ _ Hget1), Hnone.
  cbn [id first]. by rewrite String.eqb_refl.
Qed.

End AccountsMore.

Lemma malformed_request_changes_nothing_witness :
  (Accounts.post_api_register AccountScenario.signToken AccountScenario.peer
     AccountScenario.malformed (AccountScenario.clock 1700000000000)
     (Accounts.Fulfilled "bcrypt of correct horse 1") AccountScenario.unsaved
     AccountScenario.fresh).2
  = AccountScenario.fresh.
Proof.
  apply (proj1 (malformed_request_changes_nothing AccountScenario.bcrypt_compare
                  AccountScenario.signToken AccountScenario.peer
                  AccountScenario.malformed (AccountScenario.clock 1700000000000)
                  (Accounts.Fulfilled "bcrypt of correct horse 1")
                  AccountScenario.unsaved AccountScenario.unfound
                  AccountScenario.fresh)).
  reflexivity.
Defined.

Lemma registration_keeps_existing_accounts_witness :
  Accounts.rateLimitStore
    (Accounts.register_finish AccountScenario.signToken "ada@example.org"
       (Accounts.Fulfilled "bcrypt of correct horse 1") AccountScenario.unsaved
       1700000000250 1700000000251 AccountScenario.fresh).2
  = Accounts.rateLimitStore AccountScenario.fresh.
Proof.
  exact (proj1 (proj2 (registration_keeps_existing_accounts
                         AccountScenario.signToken "ada@example.org"
                         (Accounts.Fulfilled "bcrypt of correct horse 1")
                         AccountScenario.unsaved 1700000000250 1700000000251
                         AccountScenario.fresh _ _ (surjective_pairing _)))).
Defined.

Lemma register_then_login_witness :
  (Accounts.post_api_login AccountScenario.bcrypt_compare AccountScenario.signToken
     AccountScenario.peer AccountScenario.ada (AccountScenario.clock 1700000060000)
     AccountScenario.unfound
     (Accounts.post_api_register AccountScenario.signToken AccountScenario.peer
        AccountScenario.ada (AccountScenario.clock 1700000000000)
        (Accounts.Fulfilled "bcrypt of correct horse 1") AccountScenario.unsaved
        AccountScenario.fresh).2).1
  = {| Accounts.status := 200;
       Accounts.body := Accounts.Token "token-of-user_1700000000250" |}.
Proof.
  refine (proj1 (proj2 (register_then_login AccountScenario.bcrypt_compare
                          AccountScenario.signToken AccountScenario.peer
                          AccountScenario.ada (AccountScenario.clock 1700000000000)
                          (Accounts.Fulfilled "bcrypt of correct horse 1")
                          AccountScenario.unsaved AccountScenario.fresh
                          AccountScenario.peer (AccountScenario.clock 1700000060000)
                          AccountScenario.unfound 9 _ _ _ _ _))).
  - reflexivity.
  - vm_compute. reflexivity.
  - intros h [= <-]. reflexivity.
  - vm_compute. reflexivity.
  - vm_compute. reflexivity.
Defined.

Lemma login_answer_and_failure_count_witness :
  Accounts.inMemoryUsers
    (Accounts.post_api_login AccountScenario.bcrypt_compare AccountScenario.signToken
       AccountScenario.peer AccountScenario.ada (AccountScenario.clock 1700000000000)
       AccountScenario.unfound AccountScenario.fresh).2
  = Accounts.inMemoryUsers AccountScenario.fresh.
Proof.
  exact (proj1 (login_answer_and_failure_count AccountScenario.bcrypt_compare
                  AccountScenario.signToken AccountScenario.peer AccountScenario.ada
                  (AccountScenario.clock 1700000000000) AccountScenario.unfound
                  AccountScenario.fresh _ _ (surjective_pairing _))).
Defined.

Lemma locked_account_refuses_any_password_witness :
  Accounts.status
    (Accounts.post_api_login AccountScenario.bcrypt_compare AccountScenario.signToken
       AccountScenario.peer AccountScenario.ada (AccountScenario.clock 1700000060000)
       AccountScenario.unfound AccountScenario.locked).1
  = 429.
Proof.
  refine (proj1 (locked_account_refuses_any_password AccountScenario.bcrypt_compare
                   AccountScenario.signToken AccountScenario.peer AccountScenario.ada
                   (AccountScenario.clock 1700000060000) AccountScenario.unfound
                   AccountScenario.locked " Ada@Example.org " "correct horse 1"
                   {| Throttle.failures := 5; Throttle.firstFailure := 1700000000000 |}
                   _ _ _ _ _ _ _)).
  - reflexivity.
  - reflexivity.
  - discriminate.
  - reflexivity.
  - vm_compute. reflexivity.
  - vm_compute. discriminate.
  - vm_compute. discriminate.
Defined.

Lemma handlers_touch_their_own_counter_only_witness :
  Accounts.rateLimitStore
    (Accounts.post_api_register AccountScenario.signToken AccountScenario.peer
       AccountScenario.ada (AccountScenario.clock 1700000000000)
       (Accounts.Fulfilled "bcrypt of correct horse 1") AccountScenario.unsaved
       AccountScenario.fresh).2 !! "login:10.0.0.7"
  = Accounts.rateLimitStore AccountScenario.fresh !! "login:10.0.0.7".
Proof.
  refine (proj1 (handlers_touch_their_own_counter_only AccountScenario.bcrypt_compare
                   AccountScenario.signToken AccountScenario.peer AccountScenario.ada
                   (AccountScenario.clock 1700000000000)
                   (Accounts.Fulfilled "bcrypt of correct horse 1")
                   AccountScenario.unsaved AccountScenario.unfound
                   AccountScenario.fresh "login:10.0.0.7") _).
  intros H. discriminate H.
Defined.

Lemma me_after_registration_witness :
  Accounts.get_api_me AccountScenario.jwt_verify
    (Some "Bearer token-of-user_1700000000250") AccountScenario.unfound
    (Accounts.register_finish AccountScenario.signToken "ada@example.org"
       (Accounts.Fulfilled "bcrypt of correct horse 1") AccountScenario.unsaved
       1700000000250 1700000000251 AccountScenario.fresh).2
  = {| Accounts.status := 200;
       Accounts.body := Accounts.Me "user_1700000000250" "ada@example.org" |}.
Proof.
  refine (me_after_registration AccountScenario.signToken AccountScenario.jwt_verify
            "ada@example.org" "bcrypt of correct horse 1" AccountScenario.unsaved
            1700000000250 1700000000251 AccountScenario.fresh
            (Some "Bearer token-of-user_1700000000250") AccountScenario.unfound
            "ada@example.org" _ _ _).
  - reflexivity.
  - reflexivity.
  - vm_compute. reflexivity.
Defined.

Lemma same_clock_registrations_share_an_id_witness :
  Accounts.get_api_me AccountScenario.jwt_verify
    (Some "Bearer token-of-grace") AccountScenario.unfound
    (Accounts.register_finish AccountScenario.signToken "grace@example.org"
       (Accounts.Fulfilled AccountScenario.grace_hash) AccountScenario.unsaved
       1700000000250 1700000000252
       (Accounts.register_finish AccountScenario.signToken "ada@example.org"
          (Accounts.Fulfilled "bcrypt of correct horse 1") AccountScenario.unsaved
          1700000000250 1700000000251 AccountScenario.fresh).2).2
  = {| Accounts.status := 200;
       Accounts.body := Accounts.Me "user_1700000000250" "ada@example.org" |}.
Proof.
  refine (proj2 (same_clock_registrations_share_an_id AccountScenario.signToken
                   AccountScenario.jwt_verify "ada@example.org" "grace@example.org"
                   "bcrypt of correct horse 1" AccountScenario.grace_hash
                   AccountScenario.unsaved 1700000000250 1700000000251 1700000000252
                   AccountScenario.fresh (Some "Bearer token-of-grace")
                   AccountScenario.unfound _ _ _ _ _ _)).
  - reflexivity.
  - discriminate.
  - reflexivity.
  - reflexivity.
  - reflexivity.
  - vm_compute. reflexivity.
Defined.

(** ** Allowed origins *)

Section CorsMore.
Import JS Cors.

Lemma split_on_free (sep : ascii) (b : string) :
  str_forallb (fun c => negb (Ascii.eqb c sep)) b = true ->
  split_on sep b = [b].
Proof.
  induction b as [|c b IH]; [done |]. cbn.
  intros H. apply andb_true_iff in H as [Hc Hb]. apply negb_true_iff in Hc.
  by rewrite Hc, (IH Hb).
Qed.

Lemma split_on_first (sep : ascii) (a rest : string) :
  str_forallb (fun c => negb (Ascii.eqb c sep)) a = true ->
  split_on sep (a +:+ String sep rest) = a :: split_on sep rest.
Proof.
  induction a as [|c a IH]; intros Ha.
  - rewrite str_app_nil. cbn. by rewrite Ascii.eqb_refl.
  - cbn in Ha. apply andb_true_iff in Ha as [Hc Ha]. apply negb_true_iff in Hc.
    rewrite str_app_cons. cbn. by rewrite Hc, (IH Ha).
Qed.

(** [join] then [split] gives back pieces that are free of the separator. *)
Lemma split_on_join_pieces (sep : ascii) (pieces : list string) :
  pieces <> [] ->
  Forall (fun w => str_forallb (fun c => negb (Ascii.eqb c sep)) w = true) pieces ->
  split_on sep (join (String sep "") pieces) = pieces.
Proof.
  induction pieces as [|w ws IH]; [done |]. intros _ Hfree.
  inversion Hfree as [|? ? Hw Hws]; subst.
  destruct ws as [|w' ws]; [by apply split_on_free |].
  change (join (String sep "") (w :: w' :: ws))
    with (w +:+ String sep (join (String sep "") (w' :: ws))).
  rewrite (split_on_first sep w _ Hw). f_equal. by apply IH.
Qed.

Lemma existsb_eqb_In o (l : list string) :
  existsb (String.eqb o) l = true <-> In o l.
Proof.
  rewrite existsb_exists. split.
  - intros (x & Hx & Heq). by apply String.eqb_eq in Heq as ->.
  - intros Hin. exists o. by rewrite String.eqb_refl.
Qed.

(** X24. Which requests the origin check turns away.  With the allow-list
    given as pieces joined by commas, a request is answered by the error
    handler exactly when it has a non-empty [Origin] header that is not the
    trimmed form of one of the pieces, and the answer is then 403 with the
    message [CORS origin denied]; every other request goes on to the
    routes.  Blank pieces allow nothing. *)
Theorem cors_turns_away_unlisted_origins (pieces : list string)
    (header : option string) :
  pieces <> [] ->
  Forall (fun w => str_forallb (fun c => negb (Ascii.eqb c ",")) w = true) pieces ->
  join "," pieces <> "" ->
  (cors (Some (join "," pieces)) header = None <->
   (header = None \/ header = Some ""
    \/ exists piece, In piece pieces /\ header = Some (trim piece)))
  /\ (cors (Some (join "," pieces)) header = None
      \/ cors (Some (join "," pieces)) header
         = Some {| answer_status := 403; error := "CORS origin denied" |}).
Proof.
  intros Hne Hfree Hjoin. unfold cors, allowedOrigins, Accounts.or_else.
  destruct (is_empty (join "," pieces)) eqn:Hempty;
    [by destruct (join "," pieces) |].
  rewrite (split_on_join_pieces "," pieces Hne Hfree).
  destruct header as [o|]; cbn [origin];
    [| split; [split; [by left | done] | by left]].
  destruct (is_empty o) eqn:Ho.
  { destruct o; [| done].
    split; [split; [by right; left | done] | by left]. }
  destruct (existsb (String.eqb o) _) eqn:Hin.
  - split; [| by left]. split; [| done]. intros _. right. right.
    apply existsb_eqb_In, filter_In in Hin as [Hin _].
    apply in_map_iff in Hin as (piece & <- & Hpiece). by exists piece.
  - split; [| by right]. split; [done |].
    intros [H | [H | (piece & Hpiece & H)]]; try discriminate.
    + injection H as ->. discriminate.
    + injection H as ->.
      assert (existsb (String.eqb (trim piece))
                (List.filter (fun origin => negb (is_empty origin))
                   (map trim pieces)) = true) as Hyes; [| congruence].
      apply existsb_eqb_In, filter_In. split; [by apply in_map |].
      by rewrite Ho.
Qed.

End CorsMore.

Lemma cors_turns_away_unlisted_origins_witness :
  Cors.cors (Some "https://app.example.org, https://lab.example.org")
    (Some "https://evil.example.net")
  = Some {| Cors.answer_status := 403; Cors.error := "CORS origin denied" |}.
Proof.
  destruct (proj2 (cors_turns_away_unlisted_origins
                     ["https://app.example.org"; " https://lab.example.org"]
                     (Some "https://evil.example.net")
                     ltac:(discriminate)
                     ltac:(repeat constructor)
                     ltac:(discriminate))) as [H | H].
  - discriminate H.
  - exact H.
Defined.
